(** * Workout progress tracker: analytics core

    A shallow embedding of the pure functions of the tracker's dashboard
    component ([epley1RM], [tonnage], [calculateNextWeight],
    [deduplicateWorkouts], [inferMuscleGroup], [muscleGroupTonnage], the
    tonnage total of [compareData]) together with the properties the
    design document states about them.

    Number model.  A JavaScript [number] is modelled by a rational
    ([Q]); equality of numbers is [Qeq] ([==]).  The arithmetic of the
    analytics functions is written over the exact rationals, which is the
    value the doubles of the program approximate.  Where a result depends
    on the rounding itself (the text that [calculateNextWeight] prints,
    the order in which a total is added up) the operations are those of
    [Double], which round every result to the nearest binary64 value as
    IEEE-754 does; NaN and the infinities are outside the model.  A
    numeric field that may be absent from an object is an [option Q],
    [None] standing for [undefined]. *)

From Stdlib Require Import QArith Qabs Qround Qpower Lqa List String Ascii.
From Stdlib Require Import Permutation Sorted DecimalString OrderedTypeEx.
From Stdlib Require PrimFloat FloatOps SpecFloat.
From stdpp Require Import gmap strings pretty.
Import ListNotations.

Local Open Scope Q_scope.

(* ================================================================== *)
(** * Part I: the program                                              *)
(* ================================================================== *)

(** ** JavaScript primitives used by the component *)

(** [x || 0] on a numeric field: [undefined] and [0] are falsy. *)
Definition orZero (x : option Q) : Q :=
  match x with
  | Some q => if Qeq_bool q 0 then 0 else q
  | None => 0
  end.

(** The integer [n] that [Number.prototype.toFixed] picks for a
    non-negative [x] and one fraction digit: [n / 10 - x] is as close to
    zero as possible, the larger [n] on a tie. *)
Definition nearestTenths (x : Q) : Z := Qfloor (x * 10 + (1 # 2)).

(** [x.toFixed(1)] as a signed count of tenths: a negative [x] is
    formatted as its magnitude behind a minus sign. *)
Definition fixed1 (x : Q) : bool * Z :=
  if Qlt_le_dec x 0 then (true, nearestTenths (- x)) else (false, nearestTenths x).

(** The text of [x.toFixed(1)], for a number of magnitude below
    [10 ^ 21]; from there on [toFixed] prints as [String] does. *)
Definition toFixed1 (x : Q) : string :=
  let '(neg, n) := fixed1 x in
  ((if neg then "-" else "")
   ++ NilZero.string_of_uint (N.to_uint (Z.to_N (n / 10)))
   ++ "."
   ++ NilZero.string_of_uint (N.to_uint (Z.to_N (n mod 10))))%string.

(** [+x.toFixed(1)]: the text read back as a number. *)
Definition roundFixed1 (x : Q) : Q :=
  let '(neg, n) := fixed1 x in
  if neg then - (inject_Z n / 10) else inject_Z n / 10.

(** ** Data model *)

Record WorkoutEntry := mkWorkoutEntry {
  date : string;
  exerciseRaw : option string;
  exercise : string;
  sets : option Q;
  lowTarget : Q;
  highTarget : Q;
  tempo : string;
  rest : string;
  reps : option Q;
  weight : option Q;
  rpe : option Q;
  notes : option string;
  nextWeight : option string
}.

Inductive MuscleGroup :=
| Chest | Back | Legs | Shoulders | Arms | Core | Calves | Conditioning | Other.

#[global] Instance MuscleGroup_eq_dec : EqDecision MuscleGroup.
Proof. solve_decision. Defined.

Definition MUSCLE_GROUPS : list MuscleGroup :=
  [Chest; Back; Legs; Shoulders; Arms; Core; Calves; Conditioning; Other].

(** ** Strength helpers *)

Definition epley1RM (w r : Q) : Q :=
  if Qlt_le_dec 0 r then w * (1 + r / 30) else w.

(** The product in exact arithmetic; [Double.tonnage] below is the
    double that the program computes for it. *)
Definition tonnage (w : WorkoutEntry) : Q :=
  orZero (sets w) * orZero (reps w) * orZero (weight w).

(** [arr.reduce((s, w) => s + tonnage(w), 0)], the tonnage total that
    [compareData] and [insights] compute for a list of entries, in
    exact arithmetic; [Double.totalTonnage] below is the double that the
    program computes for it, which depends on the order of the
    entries. *)
Definition totalTonnage (arr : list WorkoutEntry) : Q :=
  fold_left (fun s w => s + tonnage w) arr 0.

(** ** Double-precision arithmetic

    The numbers of the program are binary64 values.  [Double.round x]
    is the binary64 value nearest to the rational [x], a tie going to
    the even significand: 53 significant bits above the exponent
    [-1022], the fixed spacing [2 ^ -1074] below it.  A rational that is
    no binary64 value stands for the double nearest to it, as a decimal
    literal or a CSV cell does.  Results beyond the largest finite
    double are outside the model. *)

Module Double.

(** [2 ^ e] for an exponent of either sign. *)
Definition pow2 (e : Z) : Q :=
  if (0 <=? e)%Z then inject_Z (2 ^ e) else 1 # Z.to_pos (2 ^ (- e)).

(** The binary exponent [e] of a non-zero [x]:
    [2 ^ e <= |x| < 2 ^ (e + 1)]. *)
Definition exponent (x : Q) : Z :=
  let e := (Z.log2 (Z.abs (Qnum x)) - Z.log2 (Zpos (Qden x)))%Z in
  if Qle_bool (pow2 e) (Qabs x) then e else (e - 1)%Z.

(** The nearest integer, a tie going to the even one. *)
Definition roundHalfEven (x : Q) : Z :=
  let f := Qfloor x in
  match Qcompare (x - inject_Z f) (1 # 2) with
  | Lt => f
  | Gt => (f + 1)%Z
  | Eq => if Z.even f then f else (f + 1)%Z
  end.

(** The double nearest to [x]: the significand of [x] at the spacing
    of the doubles of its size, rounded to an integer, and scaled
    back. *)
Definition round (x : Q) : Q :=
  let x := Qred x in
  if Qeq_bool x 0 then 0
  else
    let scale := (52 - Z.max (exponent x) (-1022))%Z in
    Qred (inject_Z (roundHalfEven (x * pow2 scale)) * pow2 (- scale)).

(** [x * y] and [x + y] on doubles. *)
Definition mul (x y : Q) : Q := round (x * y).
Definition add (x y : Q) : Q := round (x + y).

(** [tonnage] as the doubles compute it: the product is taken left to
    right, each step rounded. *)
Definition tonnage (w : WorkoutEntry) : Q :=
  mul (mul (round (orZero (sets w))) (round (orZero (reps w))))
    (round (orZero (weight w))).

(** [arr.reduce((s, w) => s + tonnage(w), 0)] as the doubles compute
    it: the entries are added from the left, each sum rounded. *)
Definition totalTonnage (arr : list WorkoutEntry) : Q :=
  fold_left (fun s w => add s (tonnage w)) arr 0.

End Double.

(** The arguments are JavaScript numbers; the product is the double
    product, and [toFixed(1)] prints the exact value of that double. *)
Definition calculateNextWeight (currentWeight reps lowTarget highTarget rpe : Q) : string :=
  let currentWeight := Double.round currentWeight in
  let reps := Double.round reps in
  let lowTarget := Double.round lowTarget in
  let highTarget := Double.round highTarget in
  let rpe := Double.round rpe in
  if Qle_bool highTarget reps && Qle_bool 9 rpe
  then toFixed1 (Double.mul currentWeight (Double.round 1.025))
  else if negb (Qle_bool lowTarget reps)
  then toFixed1 (Double.mul currentWeight (Double.round 0.95))
  else toFixed1 currentWeight.

(** ** Exercise name to muscle group *)

(** [String.prototype.toLowerCase], on the ASCII letters the keyword
    rules look at. *)
Definition lowerAscii (c : ascii) : ascii :=
  let n := N_of_ascii c in
  if ((65 <=? n) && (n <=? 90))%N then ascii_of_N (n + 32) else c.

Fixpoint toLowerCase (s : string) : string :=
  match s with
  | EmptyString => EmptyString
  | String c s' => String (lowerAscii c) (toLowerCase s')
  end.

(** [hay.includes(needle)]. *)
Fixpoint includes (needle hay : string) : bool :=
  if String.prefix needle hay then true
  else match hay with
       | EmptyString => false
       | String _ hay' => includes needle hay'
       end.

(** [/(k1|k2|...)/.test(x)] for literal alternatives. *)
Definition test (alternatives : list string) (x : string) : bool :=
  existsb (fun k => includes k x) alternatives.

(** The keyword rules of [inferMuscleGroup], tried in source order. *)
Definition keywordGroup (exercise : string) : MuscleGroup :=
  let x := toLowerCase exercise in
  if test ["squat"; "lunge"; "leg press"; "hack"; "deadlift"; "rdl"; "thigh";
           "hamstring"; "quad"]%string x then Legs
  else if test ["bench"; "chest"; "fly"; "dip"]%string x then Chest
  else if test ["row"; "pulldown"; "pull-up"; "chin"; "lat"; "back"]%string x then Back
  else if test ["press"; "shoulder"; "lateral"; "rear delt"; "overhead"]%string x
  then Shoulders
  else if test ["curl"; "bicep"; "tricep"; "extension"; "pushdown"]%string x then Arms
  else if test ["calf"]%string x then Calves
  else if test ["abs"; "core"; "crunch"; "plank"]%string x then Core
  else if test ["run"; "bike"; "swim"; "conditioning"; "kettlebell"; "cardio"]%string x
  then Conditioning
  else Other.

(** The members that a plain object inherits from [Object.prototype].
    A property read [obj[key]] finds them when [obj] has no own property
    of that name; each is a function or, for [__proto__], the prototype
    object itself, hence truthy. *)
Definition OBJECT_PROTOTYPE : list string :=
  ["constructor"; "hasOwnProperty"; "isPrototypeOf"; "propertyIsEnumerable";
   "toLocaleString"; "toString"; "valueOf"; "__proto__";
   "__defineGetter__"; "__defineSetter__"; "__lookupGetter__";
   "__lookupSetter__"]%string.

(** What [inferMuscleGroup] returns.  Its declared type is
    [MuscleGroup]; the value is the inherited member of
    [muscleGroupOverrides] when the lookup finds one. *)
Inductive GroupKey :=
| Group (g : MuscleGroup)
| Inherited (member : string).

Coercion Group : MuscleGroup >-> GroupKey.

#[global] Instance GroupKey_eq_dec : EqDecision GroupKey.
Proof. solve_decision. Defined.

(** [inferMuscleGroup]: the closure over [muscleGroupOverrides], here an
    explicit argument holding the own properties of that object.  Every
    [MuscleGroup] is a non-empty string, hence truthy, so is every
    inherited member: [if (override)] fails only when the name is
    neither an own property nor a member of [Object.prototype]. *)
Definition inferMuscleGroup (muscleGroupOverrides : gmap string MuscleGroup)
    (exercise : string) : GroupKey :=
  match muscleGroupOverrides !! exercise with
  | Some override => Group override
  | None =>
      if bool_decide (exercise ∈ OBJECT_PROTOTYPE) then Inherited exercise
      else Group (keywordGroup exercise)
  end.

(** ** Volume by muscle group *)

(** The [Record<MuscleGroup, number>] accumulator: the totals under its
    nine initial keys, [MUSCLE_GROUPS] in that order, and the keys added
    behind them.  A key that is none of the nine starts out as
    [undefined + t], which is NaN, and stays NaN: [strayKeys] lists the
    members whose text became such a key. *)
Record TonnageMap := mkTonnageMap {
  groupTotal : MuscleGroup -> Q;
  strayKeys : list string
}.

Definition emptyTonnageMap : TonnageMap := mkTonnageMap (fun _ => 0) [].

(** [map[g] += v] *)
Definition addTonnage (map : TonnageMap) (g : GroupKey) (v : Q) : TonnageMap :=
  match g with
  | Group g =>
      mkTonnageMap
        (fun g' => if decide (g' = g) then groupTotal map g' + v else groupTotal map g')
        (strayKeys map)
  | Inherited member =>
      mkTonnageMap (groupTotal map)
        (if bool_decide (member ∈ strayKeys map) then strayKeys map
         else strayKeys map ++ [member])
  end.

Definition accumulateTonnage (overrides : gmap string MuscleGroup)
    (allWorkouts : list WorkoutEntry) : TonnageMap :=
  fold_left
    (fun map w => addTonnage map (inferMuscleGroup overrides (exercise w)) (tonnage w))
    allWorkouts emptyTonnageMap.

Definition palette (g : MuscleGroup) : string :=
  match g with
  | Legs => "#34d399" | Back => "#60a5fa" | Chest => "#a78bfa"
  | Shoulders => "#fbbf24" | Arms => "#fb7185" | Core => "#22c55e"
  | Calves => "#eab308" | Conditioning => "#38bdf8" | Other => "#94a3b8"
  end.

Record PieItem := mkPieItem { name : MuscleGroup; value : Q; color : string }.

(** [{ ...x, pct, total }] *)
Record PieSlice := mkPieSlice { item : PieItem; pct : Q; total : Q }.

(** [items.sort((a, b) => b.value - a.value)]: a stable sort, largest
    value first. *)
Fixpoint insertDesc (a : PieItem) (l : list PieItem) : list PieItem :=
  match l with
  | [] => [a]
  | b :: l' => if Qle_bool (value b - value a) 0 then a :: l else b :: insertDesc a l'
  end.

Definition sortDesc (l : list PieItem) : list PieItem := fold_right insertDesc [] l.

(** [Object.keys(map).map(...).filter((x) => x.value > 0).sort(...)].
    The value under a stray key is NaN, for which [x.value > 0] is
    false: the filter keeps none of the stray keys, and the items come
    from the nine groups. *)
Definition pieItems (map : TonnageMap) : list PieItem :=
  sortDesc
    (List.filter (fun x => negb (Qle_bool (value x) 0))
       (List.map (fun g => mkPieItem g (groupTotal map g) (palette g)) MUSCLE_GROUPS)).

Definition itemsTotal (items : list PieItem) : Q :=
  fold_left (fun s x => s + value x) items 0.

Definition muscleGroupTonnage (overrides : gmap string MuscleGroup)
    (allWorkouts : list WorkoutEntry) : list PieSlice :=
  let items := pieItems (accumulateTonnage overrides allWorkouts) in
  let total := itemsTotal items in
  List.map
    (fun x => mkPieSlice x
                (if Qeq_bool total 0 then 0 else roundFixed1 (value x / total * 100))
                total)
    items.

(** ** Deduplication and upload *)

Record WorkoutsState := mkWorkoutsState {
  push : list WorkoutEntry;
  pull : list WorkoutEntry;
  legs : list WorkoutEntry;
  conditioning : list WorkoutEntry
}.

Definition allWorkouts (workouts : WorkoutsState) : list WorkoutEntry :=
  push workouts ++ pull workouts ++ legs workouts ++ conditioning workouts.

Inductive WorkoutCategory := CatPush | CatPull | CatLegs | CatConditioning.

#[global] Instance WorkoutCategory_eq_dec : EqDecision WorkoutCategory.
Proof. solve_decision. Defined.

(** [workouts[category]] *)
Definition entriesOf (category : WorkoutCategory) (workouts : WorkoutsState)
  : list WorkoutEntry :=
  match category with
  | CatPush => push workouts
  | CatPull => pull workouts
  | CatLegs => legs workouts
  | CatConditioning => conditioning workouts
  end.

(** One parsed CSV row, after the handler's [??] chains and [Number(...)]
    conversions: a numeric cell that is absent or not finite is [None]. *)
Record HevyRow := mkHevyRow {
  row_title : string;
  row_exercise : string;
  row_reps : option Q;
  row_weight : option Q;
  row_sets : option Q;
  row_rpe : option Q;
  row_date : string;
  row_notes : string
}.

Section Upload.

(** [Number::toString], the text a template literal gives a number. *)
Variable numToString : Q -> string.

(** [normalizeExercise] and the current date in en-GB format; neither
    takes part in the properties below. *)
Variable normalizeExercise : string -> string.
Variable today : string.

(** [`${x}`] for a numeric field. *)
Definition template (x : option Q) : string :=
  match x with
  | Some q => numToString q
  | None => "undefined"
  end.

(** [`${w.date}-${w.exercise}-${w.weight}-${w.reps}-${w.rpe ?? ''}`] *)
Definition workoutKey (w : WorkoutEntry) : string :=
  (date w ++ "-" ++ exercise w ++ "-" ++ template (weight w) ++ "-"
   ++ template (reps w) ++ "-"
   ++ match rpe w with Some q => numToString q | None => "" end)%string.

(** The [filter] callback of [deduplicateWorkouts] with its [seen] set
    threaded through the traversal. *)
Fixpoint filterUnseen (seen : gset string) (workouts : list WorkoutEntry)
  : list WorkoutEntry :=
  match workouts with
  | [] => []
  | w :: rest =>
      let key := workoutKey w in
      if decide (key ∈ seen) then filterUnseen seen rest
      else w :: filterUnseen ({[key]} ∪ seen) rest
  end.

Definition deduplicateWorkouts (workouts : list WorkoutEntry) : list WorkoutEntry :=
  filterUnseen ∅ workouts.

Definition categoryOf (title : string) : WorkoutCategory :=
  let t := toLowerCase title in
  if includes "push" t then CatPush
  else if includes "pull" t then CatPull
  else if includes "legs" t then CatLegs
  else CatConditioning.

(** The [WorkoutEntry] that [handleWorkoutUpload] builds from a row. *)
Definition workoutOfRow (row : HevyRow) : WorkoutEntry :=
  let reps := default 0 (row_reps row) in
  let weight := default 0 (row_weight row) in
  let sets := match row_sets row with
              | Some s => if Qeq_bool s 0 then 1 else s
              | None => 1
              end in
  let rpe := default 9 (row_rpe row) in
  let date := if String.eqb (row_date row) "" then today else row_date row in
  {| date := date;
     exerciseRaw := Some (row_exercise row);
     exercise := normalizeExercise (row_exercise row);
     sets := Some sets;
     lowTarget := 6;
     highTarget := 10;
     tempo := "3010";
     rest := "120s";
     reps := Some reps;
     weight := Some weight;
     rpe := Some rpe;
     notes := Some (row_notes row);
     nextWeight := Some (calculateNextWeight weight reps 6 10 rpe) |}.

Definition rowsOf (c : WorkoutCategory) (csvData : list HevyRow) : list WorkoutEntry :=
  List.map workoutOfRow
    (List.filter
       (fun row => bool_decide (categoryOf (row_title row) = c)) csvData).

(** The state update of [handleWorkoutUpload]. *)
Definition mergeUpload (prev : WorkoutsState) (csvData : list HevyRow) : WorkoutsState :=
  {| push := deduplicateWorkouts (push prev ++ rowsOf CatPush csvData);
     pull := deduplicateWorkouts (pull prev ++ rowsOf CatPull csvData);
     legs := deduplicateWorkouts (legs prev ++ rowsOf CatLegs csvData);
     conditioning :=
       deduplicateWorkouts (conditioning prev ++ rowsOf CatConditioning csvData) |}.

End Upload.

(** ** Session matcher *)

Module Matcher.

(** Modelled from the spec: the confidence tiers of a match. *)
Inductive MatchQuality := Exact | Close | Approximate | MatchNone.

(** Modelled from the spec: a workout-labelled window of the biometric
    stream with its aggregates, as the absent backend reads it from an
    upload; times are seconds. *)
Record BiometricWindow := mkBiometricWindow {
  bw_start : Z;
  bw_end : Z;
  bw_avg_heart_rate : option Q;
  bw_max_heart_rate : option Q;
  bw_min_heart_rate : option Q;
  bw_calories : option Q;
  bw_distance_meters : option Q
}.

(** Modelled from the spec: the timing of a training session; the
    duration is absent when the session's exercises log none. *)
Record TrainingSession := mkTrainingSession {
  ts_start : Z;
  ts_duration_seconds : option Z
}.

(** The biometric part of the [Workout] interface of the API client. *)
Record Workout := mkWorkout {
  avg_heart_rate : option Q;
  max_heart_rate : option Q;
  min_heart_rate : option Q;
  calories : option Q;
  distance_meters : option Q;
  apple_match_quality : MatchQuality
}.

Section Merge.

(** The fixed duration assumed for a session that logs none. *)
Variable defaultDuration : Z.

(** Modelled from the spec: the merge function of the backend
    ([merge_workout_data]) is not part of the sources at hand.  Twice
    the distance in seconds between the midpoint of the session's
    nominal window [start, start + duration] and the midpoint of a
    biometric window. *)
Definition gap2 (s : TrainingSession) (b : BiometricWindow) : Z :=
  let d := default defaultDuration (ts_duration_seconds s) in
  Z.abs ((2 * ts_start s + d) - (bw_start b + bw_end b)).

(** Modelled from the spec: the tiers of the merge function, absent
    from the sources: gap under 5 minutes is exact, under 30 close,
    under 45 approximate, otherwise none. *)
Definition tier (g2 : Z) : MatchQuality :=
  if (g2 <? 2 * (5 * 60))%Z then Exact
  else if (g2 <? 2 * (30 * 60))%Z then Close
  else if (g2 <? 2 * (45 * 60))%Z then Approximate
  else MatchNone.

(** Modelled from the spec: the nearest-window search of the absent
    merge function; the window with the smallest gap wins, the
    earliest window among equals. *)
Definition closer (s : TrainingSession) (b c : BiometricWindow) : BiometricWindow :=
  if (gap2 s c <? gap2 s b)%Z then c
  else if (gap2 s c =? gap2 s b)%Z && (bw_start c <? bw_start b)%Z then c
  else b.

(** Modelled from the spec: the search itself, part of the absent
    merge function; an empty stream has no nearest window. *)
Definition nearest (s : TrainingSession) (stream : list BiometricWindow)
  : option BiometricWindow :=
  match stream with
  | [] => None
  | b :: rest => Some (fold_left (closer s) rest b)
  end.

(** Modelled from the spec: the result the absent merge function
    gives a session without a match, no field populated. *)
Definition unmatched : Workout :=
  mkWorkout None None None None None MatchNone.

(** Modelled from the spec: the merge function of the backend, absent
    from the sources.  A session with no window within the search
    radius gets quality none and no biometric field. *)
Definition merge (s : TrainingSession) (stream : list BiometricWindow) : Workout :=
  match nearest s stream with
  | None => unmatched
  | Some b =>
      match tier (gap2 s b) with
      | MatchNone => unmatched
      | q => mkWorkout (bw_avg_heart_rate b) (bw_max_heart_rate b)
               (bw_min_heart_rate b) (bw_calories b) (bw_distance_meters b) q
      end
  end.

End Merge.

End Matcher.

(** ** Definitions used to state the properties *)





(** [sets * reps * weight] of an entry that carries all three fields. *)
Definition productVolume (w : WorkoutEntry) : Q :=
  match sets w, reps w, weight w with
  | Some s, Some r, Some kg => s * r * kg
  | _, _, _ => 0
  end.

Definition sumOf {A} (f : A -> Q) (l : list A) : Q :=
  fold_right (fun x s => f x + s) 0 l.

(** The tonnage of the entries that [inferMuscleGroup] puts in group [g]. *)
Definition groupVolume (overrides : gmap string MuscleGroup)
    (arr : list WorkoutEntry) (g : MuscleGroup) : Q :=
  sumOf tonnage
    (List.filter (fun w => bool_decide (inferMuscleGroup overrides (exercise w) = g)) arr).

(** A logged set as the upload handler would store it, for examples. *)
Definition loggedSet (d ex : string) (s r kg p : Q) : WorkoutEntry :=
  {| date := d; exerciseRaw := Some ex; exercise := ex; sets := Some s;
     lowTarget := 6; highTarget := 10; tempo := "3010"; rest := "120s";
     reps := Some r; weight := Some kg; rpe := Some p; notes := None;
     nextWeight := None |}.

(** A text for whole numbers, standing in for [Number::toString] in
    examples. *)
Definition showWhole (q : Q) : string :=
  NilZero.string_of_int (Z.to_int (Qfloor q)).

(** A squat set and a calf-raise set. *)
Definition calfHistory : list WorkoutEntry :=
  [loggedSet "2025-01-06" "Squat" 1 5 100 8;
   loggedSet "2025-01-06" "Standing Calf Raise" 1 10 30 8].

(** Three sets of five at 100 kg logged as one entry. *)
Definition threeSets : WorkoutEntry := loggedSet "2025-01-06" "Squat" 3 5 100 8.

(** An entry whose reps were never recorded. *)
Definition noReps : WorkoutEntry :=
  {| date := "2025-01-06"; exerciseRaw := None; exercise := "Squat";
     sets := Some 1; lowTarget := 6; highTarget := 10; tempo := "3010";
     rest := "120s"; reps := None; weight := Some 100; rpe := None;
     notes := None; nextWeight := None |}.


(** A set of an exercise that goes by the name of a member of
    [Object.prototype]. *)
Definition inheritedNameSet : WorkoutEntry :=
  loggedSet "2025-01-06" "constructor" 1 3 100 8.

(** Three sets with fractional weights. *)
Definition fractionalSets : list WorkoutEntry :=
  [loggedSet "2025-01-06" "Bicep Curl" 1 3 22.7 8;
   loggedSet "2025-01-06" "Bench Press" 1 7 41.3 8;
   loggedSet "2025-01-06" "Lateral Raise" 1 9 18.1 8].

(** A whole number, and an entry whose sets, reps and weight are whole
    numbers of magnitude below [2 ^ 53], each of them a double. *)
Definition isWhole (q : Q) : Prop := q == inject_Z (Qfloor q).

Definition wholeNumber (q : Q) : Prop := isWhole q /\ Qabs q < inject_Z (2 ^ 53).

Definition wholeEntry (w : WorkoutEntry) : Prop :=
  wholeNumber (orZero (sets w)) /\ wholeNumber (orZero (reps w))
  /\ wholeNumber (orZero (weight w)).

(** The value of a primitive float, for comparing [Double.round] with
    the arithmetic of the machine. *)
Definition valueOfFloat (f : PrimFloat.float) : option Q :=
  match FloatOps.Prim2SF f with
  | SpecFloat.S754_zero _ => Some 0
  | SpecFloat.S754_finite s m e =>
      Some (Qred ((if s then - (1) else 1) * inject_Z (Zpos m) * Double.pow2 e))
  | _ => None
  end.

(** ** Telling keys apart *)

(** A text without the separator of the deduplication key. *)
Fixpoint dashFree (s : string) : bool :=
  match s with
  | EmptyString => true
  | String c s' => negb (Ascii.eqb c "-") && dashFree s'
  end.

(** Two texts that end at the same place when each is followed by the
    separator: they are equally long, or neither holds a separator. *)
Definition separableText (a b : string) : Prop :=
  String.length a = String.length b \/ (dashFree a = true /\ dashFree b = true).

(** Two entries whose date, exercise, weight and reps can be told apart
    in their keys, and an entry that carries weight, reps and RPE. *)
Definition separable (numToString : Q -> string) (w1 w2 : WorkoutEntry) : Prop :=
  separableText (date w1) (date w2)
  /\ separableText (exercise w1) (exercise w2)
  /\ separableText (template numToString (weight w1)) (template numToString (weight w2))
  /\ separableText (template numToString (reps w1)) (template numToString (reps w2)).

Definition complete (w : WorkoutEntry) : Prop :=
  is_Some (weight w) /\ is_Some (reps w) /\ is_Some (rpe w).

(** Equal numeric fields: both absent, or both present and equal as
    numbers. *)
Definition sameNumber (x y : option Q) : Prop :=
  match x, y with
  | Some a, Some b => a == b
  | None, None => True
  | _, _ => False
  end.

(** Two entries that agree on date, exercise, weight, reps and RPE. *)
Definition sameSet (w1 w2 : WorkoutEntry) : Prop :=
  date w1 = date w2 /\ exercise w1 = exercise w2
  /\ sameNumber (weight w1) (weight w2) /\ sameNumber (reps w1) (reps w2)
  /\ sameNumber (rpe w1) (rpe w2).

(** A text that tells any two numbers apart, standing in for
    [Number::toString] in examples: the decimal code of the number's
    reduced fraction. *)
Definition showNumber (q : Q) : string :=
  pretty (encode (Qnum (Qred q), Qden (Qred q))).

(** Two entries that differ in date and in exercise and share a key. *)
Definition splitDateA : WorkoutEntry := loggedSet "2025-01" "06-Squat" 1 5 100 8.
Definition splitDateB : WorkoutEntry := loggedSet "2025-01-06" "Squat" 1 5 100 8.
(** ** Further primitives *)

(** The integer that [toFixed] picks for a non-negative [x] and
    [digits] fraction digits. *)
Definition nearestScaled (digits : nat) (x : Q) : Z :=
  Qfloor (x * inject_Z (10 ^ Z.of_nat digits) + (1 # 2)).

(** [+x.toFixed(digits)] *)
Definition roundFixed (digits : nat) (x : Q) : Q :=
  if Qlt_le_dec x 0
  then - (inject_Z (nearestScaled digits (- x)) / inject_Z (10 ^ Z.of_nat digits))
  else inject_Z (nearestScaled digits x) / inject_Z (10 ^ Z.of_nat digits).

(** [Math.round]: the nearest integer, a half going up. *)
Definition mathRound (x : Q) : Z := Qfloor (x + (1 # 2)).

(** ** Pie data and override editing *)

(** [muscleGroupTonnage.slice(0, 9)] *)
Definition muscleGroupPieData (overrides : gmap string MuscleGroup)
    (allWorkouts : list WorkoutEntry) : list PieSlice :=
  firstn 9 (muscleGroupTonnage overrides allWorkouts).

(** [saveOverride]: the state update, skipped for an empty exercise
    name; the chosen group is never an empty string. *)
Definition saveOverride (prev : gmap string MuscleGroup)
    (overrideExercise : string) (overrideMuscleGroup : MuscleGroup)
  : gmap string MuscleGroup :=
  if String.eqb overrideExercise "" then prev
  else <[overrideExercise := overrideMuscleGroup]> prev.

(** [removeOverride]: copy, then [delete copy[exercise]]. *)
Definition removeOverride (prev : gmap string MuscleGroup) (exercise : string)
  : gmap string MuscleGroup :=
  delete exercise prev.

(** The order [sort] leaves the pie items in: no later item is larger. *)
Definition noSmallerThan (a b : PieItem) : Prop := value b <= value a.

(** ** Weekly volume *)

(** The accumulator that [weeklyVolumeSeries] keeps per week. *)
Record WeekBucket := mkWeekBucket {
  bucket_ts : Z;
  bucket_volume : Q;
  bucket_rpeSum : Q;
  bucket_rpeCount : nat
}.

(** One point of the weekly series. *)
Record WeekPoint := mkWeekPoint { ts : Z; volume : Q; avgRPE : Q }.

(** [w.rpe > 0]; an absent RPE compares false. *)
Definition positiveRpe (w : WorkoutEntry) : option Q :=
  match rpe w with
  | Some p => if Qlt_le_dec 0 p then Some p else None
  | None => None
  end.

(** The loop body's updates of one bucket. *)
Definition addToBucket (w : WorkoutEntry) (b : WeekBucket) : WeekBucket :=
  match positiveRpe w with
  | Some p => mkWeekBucket (bucket_ts b) (bucket_volume b + tonnage w)
                (bucket_rpeSum b + p) (bucket_rpeCount b + 1)
  | None => mkWeekBucket (bucket_ts b) (bucket_volume b + tonnage w)
              (bucket_rpeSum b) (bucket_rpeCount b)
  end.

(** [if (!map[ts]) map[ts] = {...}] followed by the updates of
    [map[ts]]; the map is kept as the list of its buckets, a new week
    going last. *)
Fixpoint updateWeek (t : Z) (w : WorkoutEntry) (map : list WeekBucket)
  : list WeekBucket :=
  match map with
  | [] => [addToBucket w (mkWeekBucket t 0 0 0)]
  | b :: rest =>
      if (bucket_ts b =? t)%Z then addToBucket w b :: rest
      else b :: updateWeek t w rest
  end.

(** [.sort((a, b) => a.ts - b.ts)] *)
Fixpoint insertByTs (a : WeekPoint) (l : list WeekPoint) : list WeekPoint :=
  match l with
  | [] => [a]
  | b :: l' => if (ts a - ts b <=? 0)%Z then a :: l else b :: insertByTs a l'
  end.

Definition sortByTs (l : list WeekPoint) : list WeekPoint := fold_right insertByTs [] l.

Definition weekPoint (x : WeekBucket) : WeekPoint :=
  mkWeekPoint (bucket_ts x) (roundFixed 0 (bucket_volume x))
    (match bucket_rpeCount x with
     | O => 0
     | S _ => roundFixed 2 (bucket_rpeSum x / inject_Z (Z.of_nat (bucket_rpeCount x)))
     end).

Section WeeklyVolume.

(** [startOfWeek(toTs(date))]: the calendar arithmetic of [Date]. *)
Variable weekStart : string -> Z.

Definition weekBuckets (allWorkouts : list WorkoutEntry) : list WeekBucket :=
  fold_left (fun map w => updateWeek (weekStart (date w)) w map) allWorkouts [].

(** [weeklyVolumeSeries].  The weeks have distinct timestamps, so the
    order in which [Object.values] lists the buckets does not show after
    the sort. *)
Definition weeklyVolumeSeries (allWorkouts : list WorkoutEntry) : list WeekPoint :=
  sortByTs (List.map weekPoint (weekBuckets allWorkouts)).

End WeeklyVolume.

(** [arr.slice(-n)] *)
Definition sliceLast {A} (n : nat) (arr : list A) : list A :=
  skipn (length arr - n) arr.

(** [arr.slice(-m, -n)] for [n <= m] *)
Definition sliceBetween {A} (m n : nat) (arr : list A) : list A :=
  firstn ((length arr - n) - (length arr - m)) (skipn (length arr - m) arr).

Inductive VolumeWarning :=
| WarnDrop (pct : Q)
| WarnIncrease (pct : Q).

Definition volumeDropWarning (weeklyVolumeSeries : list WeekPoint)
  : option VolumeWarning :=
  let last4 := sliceLast 4 weeklyVolumeSeries in
  let prev4 := sliceBetween 8 4 weeklyVolumeSeries in
  if (length last4 <? 4)%nat || (length prev4 <? 4)%nat then None
  else
    let lastSum := fold_left (fun s x => s + volume x) last4 0 in
    let prevSum := fold_left (fun s x => s + volume x) prev4 0 in
    if Qeq_bool prevSum 0 then None
    else
      let pct := roundFixed 0 ((lastSum - prevSum) / prevSum * 100) in
      if negb (Qle_bool (- (10)) pct) then Some (WarnDrop pct)
      else if negb (Qle_bool pct 10) then Some (WarnIncrease pct)
      else None.

(** Eight weeks, the last four at half the volume of the first four. *)
Definition dropSeries : list WeekPoint :=
  List.map (fun i => mkWeekPoint (i * 604800000) (if (i <? 4)%Z then 1000 else 500) 8)
    [0; 1; 2; 3; 4; 5; 6; 7]%Z.

(** ** Comparison statistics and insights *)

Record CompareStats := mkCompareStats {
  cs_sessions : nat;
  cs_tonnage : Q;
  cs_avgRPE : Q;
  cs_failurePct : Q;
  cs_entries : nat
}.

Section Compare.

(** [toDateLabel]: the en-GB rendering of a date by [Date]. *)
Variable toDateLabel : string -> string.

(** [calc] of [compareData] *)
Definition calc (arr : list WorkoutEntry) : CompareStats :=
  let sessions :=
    size (list_to_set (List.map (fun w => toDateLabel (date w)) arr) : gset string) in
  let ton := totalTonnage arr in
  let rpes := omap positiveRpe arr in
  let avgRPE :=
    match rpes with
    | [] => 0
    | _ => roundFixed 2 (fold_left Qplus rpes 0 / inject_Z (Z.of_nat (length rpes)))
    end in
  let failurePct :=
    match rpes with
    | [] => 0
    | _ =>
        roundFixed 0
          (inject_Z (Z.of_nat (length (List.filter (fun r => Qle_bool 9 r) rpes)))
           / inject_Z (Z.of_nat (length rpes)) * 100)
    end in
  mkCompareStats sessions ton avgRPE failurePct (length arr).

End Compare.

Record RepRanges := mkRepRanges { low : nat; target : nat; high : nat }.

(** [w.reps <= 5], [w.reps <= 10]; absent reps compare false. *)
Definition repsAtMost (bound : Q) (w : WorkoutEntry) : bool :=
  match reps w with
  | Some r => Qle_bool r bound
  | None => false
  end.

(** [repRangeDistribution] of [insights] *)
Definition repRangeDistribution (allWorkouts : list WorkoutEntry) : RepRanges :=
  fold_left
    (fun acc w =>
       if repsAtMost 5 w then mkRepRanges (low acc + 1) (target acc) (high acc)
       else if repsAtMost 10 w then mkRepRanges (low acc) (target acc + 1) (high acc)
       else mkRepRanges (low acc) (target acc) (high acc + 1))
    allWorkouts (mkRepRanges 0 0 0).

Definition DAY_MS : Z := 24 * 60 * 60 * 1000.

(** The loop of [trainingStreak], walking the ascending list of training
    days from its end; [later] is the day the walk has reached and
    [earlier] the days before it, nearest first. *)
Fixpoint streakBack (later : Z) (earlier : list Z) : nat :=
  match earlier with
  | [] => 1
  | d :: rest =>
      if ((later - d) / DAY_MS <=? 7)%Z then S (streakBack d rest) else 1
  end.

(** [trainingStreak] for the ascending list [unique] of training days. *)
Definition trainingStreak (unique : list Z) : nat :=
  match rev unique with
  | [] => 0
  | lastDay :: earlier => streakBack lastDay earlier
  end.

(** ** Heat map levels *)

(** [levelFor] of [heatmapWeeks], with the [maxCount] it closes over. *)
Definition levelFor (maxCount count : Z) : Z :=
  if (count <=? 0)%Z then 0%Z
  else if (maxCount <=? 1)%Z then 2%Z
  else
    let ratio := inject_Z count / inject_Z maxCount in
    if negb (Qle_bool 0.25 ratio) then 1%Z
    else if negb (Qle_bool 0.5 ratio) then 2%Z
    else if negb (Qle_bool 0.75 ratio) then 3%Z
    else 4%Z.

(** ** Time ranges *)

Inductive TimeRange := R1W | R1M | R3M | R6M | R1Y | ALL.

#[global] Instance TimeRange_eq_dec : EqDecision TimeRange.
Proof. solve_decision. Defined.

(** [ok] of [availableRanges]; a zero [spanDays] is falsy. *)
Definition rangeOk (spanDays : Z) (r : TimeRange) : bool :=
  match r with
  | ALL => true
  | _ =>
      if (spanDays =? 0)%Z then false
      else match r with
           | R1W => (7 <=? spanDays)%Z
           | R1M => (30 <=? spanDays)%Z
           | R3M => (90 <=? spanDays)%Z
           | R6M => (180 <=? spanDays)%Z
           | R1Y => (365 <=? spanDays)%Z
           | ALL => true
           end
  end.

Definition availableRanges (spanDays : Z) : list TimeRange :=
  let filtered := List.filter (rangeOk spanDays) [R1W; R1M; R3M; R6M; R1Y; ALL] in
  match filtered with
  | [] => [ALL]
  | _ => filtered
  end.

(** The days a range looks back, as [getRangeStart] has them. *)
Definition rangeDays (r : TimeRange) : Z :=
  match r with
  | R1W => 7 | R1M => 30 | R3M => 90 | R6M => 180 | R1Y => 365 | ALL => 0
  end.

(** [weekOfMonth], from [date.getDate()] and the [getDay()] of the first
    of the month. *)
Definition weekOfMonth (dayOfMonth firstWeekday : Z) : Z :=
  let offset := ((firstWeekday + 6) mod 7)%Z in
  Qceiling (inject_Z (dayOfMonth + offset) / 7).

(** ** Steps and tape measurements *)

(** [handleStepsUpload]: the value set as weekly steps, from the
    [parseInt] of each row's cell ([None] when it is not a number). *)
Definition weeklyStepsOf (rows : list (option Z)) : Z :=
  let last7 := sliceLast 7 rows in
  let total := fold_left (fun sum n => (sum + default 0 n)%Z) last7 0%Z in
  mathRound (inject_Z total / 7).

(** [avg] of [handleMeasurementsUpload], on the [Number(...)] of its
    arguments ([None] when not finite). *)
Definition avg (A B : option Q) : Q :=
  match A, B with
  | Some a, Some b => roundFixed1 ((a + b) / 2)
  | Some a, None => a
  | None, Some b => b
  | None, None => 0
  end.

(** ** Health token *)

(** JavaScript truthiness of a string that may be absent. *)
Definition truthy (s : option string) : bool :=
  match s with
  | Some s => negb (String.eqb s "")
  | None => false
  end.

(** [verifyHealthToken], as the truthiness of what it returns: from the
    configured token, the [x-health-token] header and the [token] query
    parameter. *)
Definition verifyHealthToken (expected header queryToken : option string) : bool :=
  if negb (truthy expected) then true
  else
    let got := if truthy header then header else queryToken in
    truthy got && bool_decide (got = expected).

(** ** CSV type detection *)

Inductive CsvType :=
| HEVY_WORKOUTS | HEVY_MEASUREMENTS | STEPS | GENERIC_WORKOUTS | UNKNOWN.

(** The class [a-z0-9]. *)
Definition isLowerAlnum (c : ascii) : bool :=
  let n := N_of_ascii c in
  (((97 <=? n) && (n <=? 122)) || ((48 <=? n) && (n <=? 57)))%N.

(** [.replace(/[^a-z0-9]+/g, "_")]; [inRun] tells that the run of other
    characters being read has its underscore already. *)
Fixpoint replaceRuns (inRun : bool) (s : string) : string :=
  match s with
  | EmptyString => EmptyString
  | String c s' =>
      if isLowerAlnum c then String c (replaceRuns false s')
      else if inRun then replaceRuns true s'
      else String "_" (replaceRuns true s')
  end.

(** [norm] of [detectCsvType] *)
Definition norm (s : string) : string := replaceRuns false (toLowerCase s).

(** [hasAny] of [detectCsvType], over the normalised headers. *)
Definition hasAny (normalised : list string) (cands : list string) : bool :=
  existsb (fun c => existsb (String.eqb (norm c)) normalised) cands.

Definition detectCsvType (fieldsLower : list string) : CsvType :=
  let set := List.map norm fieldsLower in
  if hasAny set ["exercise_title"]%string && hasAny set ["weight_kg"; "weight"]%string
  then HEVY_WORKOUTS
  else if hasAny set ["chest_in"]%string && hasAny set ["waist_in"; "abdomen_in"]%string
  then HEVY_MEASUREMENTS
  else if hasAny set ["steps"]%string
          || (hasAny set ["value"]%string && hasAny set ["date"; "day"; "start"]%string)
  then STEPS
  else if hasAny set ["exercise"; "exercise_name"; "movement"; "title"]%string
          && (hasAny set ["weight"; "weight_kg"; "load"]%string
              || hasAny set ["reps"; "rep"]%string)
  then GENERIC_WORKOUTS
  else UNKNOWN.

(** ** Backend: the database and the Hevy synchronisation *)

(** A workout as the Hevy API returns it, read the way the
    synchronisation reads it: [id] is [w.id || w.workout_id ||
    w.workoutId], [updated] is [w.updated_at || w.updatedAt], [payload]
    is [JSON.stringify(w)]. *)
Record HevyWorkout := mkHevyWorkout {
  hw_id : option string;
  hw_updated : option string;
  hw_payload : string
}.

(** An event of the Hevy API: [type] is [ev.type || ev.event_type ||
    ev.eventType || "unknown"], [workoutId] is [ev.workout_id ||
    ev.workoutId || ev.id || null], [occurredAt] the first present of
    the event's timestamps or else the clock's reading, [raw] is
    [JSON.stringify(ev)], and [fetched] what [getWorkout(workoutId)]
    answers, with [w.id] for its id. *)
Record HevyEvent := mkHevyEvent {
  ev_type : string;
  ev_workoutId : option string;
  ev_occurredAt : string;
  ev_raw : string;
  ev_fetched : HevyWorkout
}.

(** The tables of [openDb] that the synchronisation writes: [meta] and
    [hevy_workouts] by primary key, [hevy_events] in insertion order. *)
Record Db := mkDb {
  meta : gmap string string;
  hevy_workouts : gmap string (option string * string);
  hevy_events : list (string * option string * string * string)
}.

Definition getMeta (db : Db) (key fallback : string) : string :=
  match meta db !! key with
  | Some value => value
  | None => fallback
  end.

Definition setMeta (db : Db) (key value : string) : Db :=
  mkDb (<[key := value]> (meta db)) (hevy_workouts db) (hevy_events db).

Definition META_KEY : string := "hevy_last_sync_iso".

(** [a || b] on strings that may be absent. *)
Definition orElse (a b : option string) : option string :=
  if truthy a then a else b.

(** The upsert statement on [hevy_workouts]. *)
Definition upsertWorkout (id : string) (updated : option string) (payload : string)
    (db : Db) : Db :=
  mkDb (meta db) (<[id := (updated, payload)]> (hevy_workouts db)) (hevy_events db).

(** The body of the transaction of [initialBackfill] for one row: a row
    without an id is skipped. *)
Definition backfillRow (db : Db) (w : HevyWorkout) : Db :=
  match orElse (hw_id w) None with
  | Some id => upsertWorkout id (orElse (hw_updated w) None) (hw_payload w) db
  | None => db
  end.

(** The paging loop of [initialBackfill] over the pages the API answers,
    up to the first empty one. *)
Fixpoint backfillPages (pages : list (list HevyWorkout)) (db : Db) : Db :=
  match pages with
  | [] => db
  | [] :: _ => db
  | workouts :: more => backfillPages more (fold_left backfillRow workouts db)
  end.

(** [initialBackfill]; [now] is the clock's reading at the end. *)
Definition initialBackfill (now : string) (pages : list (list HevyWorkout)) (db : Db)
  : Db :=
  setMeta (backfillPages pages db) META_KEY now.

(** The body of the event loop of [incrementalSync]: the database and
    [newestSeen] after one event. *)
Definition syncEvent (state : Db * string) (ev : HevyEvent) : Db * string :=
  let '(db, newestSeen) := state in
  let logged :=
    mkDb (meta db) (hevy_workouts db)
      (hevy_events db
       ++ [(ev_type ev, ev_workoutId ev, ev_occurredAt ev, ev_raw ev)]) in
  let newestSeen' :=
    if String.ltb newestSeen (ev_occurredAt ev) then ev_occurredAt ev else newestSeen in
  let db' :=
    if includes "delete" (toLowerCase (ev_type ev)) then
      match orElse (ev_workoutId ev) None with
      | Some workoutId =>
          mkDb (meta logged) (delete workoutId (hevy_workouts logged))
            (hevy_events logged)
      | None => logged
      end
    else
      match orElse (ev_workoutId ev) None with
      | Some workoutId =>
          let w := ev_fetched ev in
          upsertWorkout (default workoutId (orElse (hw_id w) None))
            (orElse (hw_updated w) (Some (ev_occurredAt ev))) (hw_payload w) logged
      | None => logged
      end in
  (db', newestSeen').

Fixpoint syncPages (pages : list (list HevyEvent)) (state : Db * string)
  : Db * string :=
  match pages with
  | [] => state
  | [] :: _ => state
  | events :: more => syncPages more (fold_left syncEvent events state)
  end.

(** [incrementalSync]: the database afterwards and the [since] and
    [newestSeen] it returns. *)
Definition incrementalSync (pages : list (list HevyEvent)) (db : Db)
  : Db * (string * string) :=
  let since := getMeta db META_KEY "1970-01-01T00:00:00Z" in
  let '(db', newestSeen) := syncPages pages (db, since) in
  (setMeta db' META_KEY newestSeen, (since, newestSeen)).

(** The rows or events of the pages read before the first empty page. *)
Fixpoint untilEmpty {A} (pages : list (list A)) : list A :=
  match pages with
  | [] => []
  | [] :: _ => []
  | page :: more => page ++ untilEmpty more
  end.

(** The last of the rows that carry the id [id]. *)
Definition lastRowFor (id : string) (rows : list HevyWorkout) : option HevyWorkout :=
  List.find (fun w => bool_decide (orElse (hw_id w) None = Some id)) (rev rows).

(** The ids an event can write to: its workout id, and the id of the
    workout fetched for it. *)
Definition eventMentions (id : string) (ev : HevyEvent) : Prop :=
  ev_workoutId ev = Some id \/ hw_id (ev_fetched ev) = Some id.

(** The row that an event leaves in [hevy_events]. *)
Definition eventRow (ev : HevyEvent) : string * option string * string * string :=
  (ev_type ev, ev_workoutId ev, ev_occurredAt ev, ev_raw ev).

(* ================================================================== *)
(** * Part II: properties                                              *)
(* ================================================================== *)

(** ** The functions on concrete inputs *)

Example epley1RM_100x5 : Qred (epley1RM 100 5) = 350 # 3.
Proof. reflexivity. Qed.

Example tonnage_threeSets : Qred (tonnage threeSets) = 1500.
Proof. reflexivity. Qed.

Example toFixed1_samples :
  (toFixed1 (100 * 1.025), toFixed1 (100 * 0.95), toFixed1 22.25, toFixed1 0)
  = ("102.5", "95.0", "22.3", "0.0")%string.
Proof. reflexivity. Qed.

Example calculateNextWeight_samples :
  (calculateNextWeight 100 10 6 10 9, calculateNextWeight 100 5 6 10 9,
   calculateNextWeight 100 8 6 10 9, calculateNextWeight 100 12 6 10 8)
  = ("102.5", "95.0", "100.0", "100.0")%string.
Proof. vm_compute. reflexivity. Qed.

(** What is printed is the double, not the exact product: 50 times
    1.025 is 51.25, and a little less in doubles; the double nearest to
    0.35 lies below it. *)
Example calculateNextWeight_prints_the_double :
  (calculateNextWeight 50 10 6 10 9, toFixed1 (50 * 1.025),
   calculateNextWeight 0.35 8 6 10 9, toFixed1 0.35)
  = ("51.2", "51.3", "0.3", "0.4")%string.
Proof. vm_compute. reflexivity. Qed.

(** [Double.round] and the operations built on it give the values of
    the machine's binary64 arithmetic: on decimal literals, on a
    subnormal number, on a tie between two neighbours, and on the
    products and sums of the examples below. *)
Module MachineArithmetic.

Import PrimFloat.

#[local] Set Warnings "-inexact-float".

Example round_is_the_nearest_double :
  (valueOfFloat 0.35%float, valueOfFloat 1.025%float, valueOfFloat 22.7%float,
   valueOfFloat (-0.95)%float, valueOfFloat 1e-320%float,
   valueOfFloat 9007199254740993%float, valueOfFloat 1.9999999999999999%float)
  = (Some (Double.round 0.35), Some (Double.round 1.025), Some (Double.round 22.7),
     Some (Double.round (- 0.95)), Some (Double.round (1 # 10 ^ 320)),
     Some (Double.round 9007199254740993), Some (Double.round 1.9999999999999999)).
Proof. vm_compute. reflexivity. Qed.

Example mul_is_the_double_product :
  (valueOfFloat (50 * 1.025)%float, valueOfFloat (22.7 * 3)%float)
  = (Some (Double.mul 50 (Double.round 1.025)),
     Some (Double.mul (Double.round 22.7) 3)).
Proof. vm_compute. reflexivity. Qed.

Example totalTonnage_is_the_double_sum :
  (valueOfFloat (0 + 1 * 3 * 22.7 + 1 * 7 * 41.3 + 1 * 9 * 18.1)%float,
   valueOfFloat (0 + 1 * 9 * 18.1 + 1 * 7 * 41.3 + 1 * 3 * 22.7)%float)
  = (Some (Double.totalTonnage fractionalSets),
     Some (Double.totalTonnage (rev fractionalSets))).
Proof. vm_compute. reflexivity. Qed.

End MachineArithmetic.

Example inferMuscleGroup_samples :
  (inferMuscleGroup ∅ "Squat", inferMuscleGroup (<["Squat"%string := Arms]> ∅) "Squat",
   inferMuscleGroup ∅ "constructor",
   inferMuscleGroup (<["constructor"%string := Arms]> ∅) "constructor")
  = (Group Legs, Group Arms, Inherited "constructor", Group Arms).
Proof. vm_compute. reflexivity. Qed.

(** The volume of an exercise named after a member of
    [Object.prototype] lands under a stray key and in no entry: the
    distribution of such a set next to [calfHistory] is that of
    [calfHistory]. *)
Example muscleGroupTonnage_inherited_name :
  (muscleGroupTonnage ∅ (inheritedNameSet :: calfHistory),
   strayKeys (accumulateTonnage ∅ (inheritedNameSet :: calfHistory)))
  = (muscleGroupTonnage ∅ calfHistory, ["constructor"%string]).
Proof. vm_compute. reflexivity. Qed.

Example keywordGroup_samples :
  List.map keywordGroup
    ["Squat"; "Bench Press"; "Lat Pulldown"; "Overhead Press"; "Bicep Curl";
     "Standing Calf Raise"; "Plank"; "Treadmill Run"; "Farmer Walk"]%string
  = [Legs; Chest; Back; Shoulders; Arms; Calves; Core; Conditioning; Other].
Proof. reflexivity. Qed.

Example workoutKey_sample :
  workoutKey showWhole threeSets = "2025-01-06-Squat-100-5-8"%string.
Proof. reflexivity. Qed.

(** The squat of [calfHistory] has the key of [threeSets], which comes
    first: the key does not hold the sets count. *)
Example deduplicateWorkouts_sample :
  deduplicateWorkouts showWhole (threeSets :: calfHistory ++ [threeSets])
  = [threeSets; loggedSet "2025-01-06" "Standing Calf Raise" 1 10 30 8].
Proof. vm_compute. reflexivity. Qed.

(** The scenario of the design document: a session whose window
    coincides with a biometric window is an exact match and takes its
    aggregates. *)
Example merge_exact :
  Matcher.merge 3600%Z (Matcher.mkTrainingSession 36000%Z (Some 3600%Z))
    [Matcher.mkBiometricWindow 36000%Z 39600%Z (Some 135) (Some 165) (Some 110)
       (Some 450) None]
  = Matcher.mkWorkout (Some 135) (Some 165) (Some 110) (Some 450) None Matcher.Exact.
Proof. reflexivity. Qed.

(** ** Estimated one-rep max *)

(** C4: for a weight [w >= 0] and [r > 0] reps, the estimated one-rep
    max is [w * (1 + r / 30)], the Epley formula. *)
Theorem epley1RM_is_epley (w r : Q) :
  0 <= w -> 0 < r -> epley1RM w r == w * (1 + r / 30).
Proof.
  intros _ Hr. unfold epley1RM.
  destruct (Qlt_le_dec 0 r) as [_ | Hle]; [reflexivity | lra].
Qed.

Lemma epley1RM_is_epley_witness :
  0 <= 100 /\ 0 < 5 /\ epley1RM 100 5 == 100 * (1 + 5 / 30).
Proof.
  split; [lra |]. split; [lra |].
  apply (epley1RM_is_epley 100 5); lra.
Defined.

Lemma epley1RM_ge_weight (w r : Q) : 0 <= w -> w <= epley1RM w r.
Proof.
  intros Hw. unfold epley1RM.
  destruct (Qlt_le_dec 0 r) as [Hr | _]; [| lra].
  assert (0 <= w * (r / 30)).
  { apply Qmult_le_0_compat; [assumption |].
    apply Qle_shift_div_l; lra. }
  lra.
Qed.

(** C5: for a fixed weight [w >= 0] the estimated one-rep max is
    non-decreasing in the number of reps, and it is [w] at zero reps. *)
Theorem epley1RM_monotone_in_reps (w : Q) :
  0 <= w ->
  (forall r1 r2, r1 <= r2 -> epley1RM w r1 <= epley1RM w r2)
  /\ epley1RM w 0 == w.
Proof.
  intros Hw. split.
  - intros r1 r2 Hle.
    pose proof (epley1RM_ge_weight w r2 Hw) as Hge.
    unfold epley1RM in *.
    destruct (Qlt_le_dec 0 r1) as [H1 | H1]; [| exact Hge].
    destruct (Qlt_le_dec 0 r2) as [H2 | H2]; [| lra].
    assert (0 <= w * ((r2 - r1) / 30)) as Hprod.
    { apply Qmult_le_0_compat; [exact Hw |].
      apply Qle_shift_div_l; lra. }
    unfold Qdiv in *. lra.
  - unfold epley1RM. destruct (Qlt_le_dec 0 0) as [H | _]; [lra | reflexivity].
Qed.

Lemma epley1RM_monotone_in_reps_witness :
  0 <= 100 /\ epley1RM 100 3 <= epley1RM 100 8 /\ epley1RM 100 0 == 100.
Proof.
  split; [lra |].
  destruct (epley1RM_monotone_in_reps 100) as [Hmono Hzero]; [lra |].
  split; [apply Hmono; lra | exact Hzero].
Defined.

(** ** Tonnage totals *)

Lemma fold_left_sumOf {A} (f : A -> Q) (l : list A) :
  forall a, fold_left (fun s x => s + f x) l a == a + sumOf f l.
Proof.
  induction l as [| x l IH]; intros a; simpl.
  - ring.
  - rewrite IH. ring.
Qed.

Lemma totalTonnage_sumOf (arr : list WorkoutEntry) :
  totalTonnage arr == sumOf tonnage arr.
Proof. unfold totalTonnage. rewrite fold_left_sumOf. ring. Qed.

Lemma sumOf_ext {A} (f g : A -> Q) (l : list A) :
  (forall x, f x == g x) -> sumOf f l == sumOf g l.
Proof.
  intros Hfg. induction l as [| x l IH]; simpl; [reflexivity |].
  rewrite IH, Hfg. reflexivity.
Qed.

Lemma sumOf_Permutation {A} (f : A -> Q) (l l' : list A) :
  Permutation l l' -> sumOf f l == sumOf f l'.
Proof.
  induction 1 as [| x l l' _ IH | x y l | l l' l'' _ IH1 _ IH2]; simpl.
  - reflexivity.
  - rewrite IH. reflexivity.
  - ring.
  - rewrite IH1. exact IH2.
Qed.

Lemma orZero_Some (q : Q) : orZero (Some q) == q.
Proof.
  simpl. destruct (Qeq_bool q 0) eqn:E; [| reflexivity].
  apply Qeq_bool_eq in E. symmetry. exact E.
Qed.

Lemma tonnage_productVolume (w : WorkoutEntry) : tonnage w == productVolume w.
Proof.
  unfold tonnage, productVolume.
  destruct (sets w) as [s |], (reps w) as [r |], (weight w) as [kg |];
    rewrite ?orZero_Some; simpl; ring.
Qed.




(** ** Rounding to double precision *)

Lemma Qred_inject_Z (z : Z) : Qred (inject_Z z) = inject_Z z.
Proof.
  unfold Qred, inject_Z.
  pose proof (Z.ggcd_gcd z 1) as Hg.
  pose proof (Z.ggcd_correct_divisors z 1) as Hd.
  destruct (Z.ggcd z 1) as [g [a b]]. cbn [fst snd] in *.
  rewrite Z.gcd_1_r in Hg. subst g. destruct Hd as [Ha Hb].
  rewrite Z.mul_1_l in Ha, Hb. subst a b. reflexivity.
Qed.

Lemma round_comp (x y : Q) : x == y -> Double.round x = Double.round y.
Proof.
  intros E. unfold Double.round. rewrite (Qred_complete _ _ E). reflexivity.
Qed.

Lemma roundHalfEven_comp (x y : Q) :
  x == y -> Double.roundHalfEven x = Double.roundHalfEven y.
Proof.
  intros E. unfold Double.roundHalfEven. rewrite (Qfloor_comp _ _ E).
  assert (x - inject_Z (Qfloor y) == y - inject_Z (Qfloor y)) as E'
      by (rewrite E; reflexivity).
  rewrite (Qcompare_comp _ _ E' (1 # 2) (1 # 2) (Qeq_refl _)). reflexivity.
Qed.

Lemma roundHalfEven_whole (m : Z) : Double.roundHalfEven (inject_Z m) = m.
Proof.
  unfold Double.roundHalfEven. rewrite Qfloor_Z.
  assert (inject_Z m - inject_Z m == 0) as E by ring.
  rewrite (Qcompare_comp _ _ E (1 # 2) (1 # 2) (Qeq_refl _)). reflexivity.
Qed.

Lemma pow2_scale (k : Z) : (0 <= k)%Z -> inject_Z (2 ^ k) * Double.pow2 (- k) == 1.
Proof.
  intros Hk. unfold Double.pow2.
  destruct (Z.eq_dec k 0%Z) as [-> | Hne]; [reflexivity |].
  assert (0 < 2 ^ k)%Z as Hpos by (apply Z.pow_pos_nonneg; lia).
  destruct (0 <=? - k)%Z eqn:E; [apply Z.leb_le in E; lia |].
  rewrite Z.opp_involutive.
  unfold Qeq, Qmult, inject_Z. cbn [Qnum Qden].
  rewrite Pos.mul_1_l, Z2Pos.id by exact Hpos. lia.
Qed.

(** A whole number of magnitude below [2 ^ 53] is a double. *)
Lemma round_whole (z : Z) :
  (Z.abs z < 2 ^ 53)%Z -> Double.round (inject_Z z) == inject_Z z.
Proof.
  intros Hz. unfold Double.round. rewrite Qred_inject_Z.
  destruct (Qeq_bool (inject_Z z) 0) eqn:E0.
  - apply Qeq_bool_eq in E0. symmetry. exact E0.
  - assert (z <> 0%Z) as Hne by (intros ->; discriminate E0).
    assert (Double.exponent (inject_Z z) = Z.log2 (Z.abs z)) as ->.
    { unfold Double.exponent. cbn [inject_Z Qnum Qden].
      change (Z.log2 1) with 0%Z. rewrite Z.sub_0_r.
      assert (0 <= Z.log2 (Z.abs z))%Z as Hlog by apply Z.log2_nonneg.
      unfold Double.pow2. rewrite (proj2 (Z.leb_le _ _) Hlog).
      match goal with
      | |- context [Qle_bool ?a ?b] =>
          assert (Qle_bool a b = true) as ->; [| reflexivity]
      end.
      apply Qle_bool_iff. unfold Qle, Qabs, inject_Z. cbn [Qnum Qden].
      rewrite !Z.mul_1_r. apply Z.log2_spec. lia. }
    set (e := Z.log2 (Z.abs z)).
    assert (0 <= e < 53)%Z as He.
    { split; [apply Z.log2_nonneg | apply Z.log2_lt_pow2; lia]. }
    rewrite Z.max_l by lia.
    set (k := (52 - e)%Z). assert (0 <= k)%Z as Hk by lia.
    rewrite Qred_correct.
    assert (inject_Z z * Double.pow2 k == inject_Z (z * 2 ^ k)) as Ek.
    { unfold Double.pow2. rewrite (proj2 (Z.leb_le _ _) Hk).
      rewrite inject_Z_mult. reflexivity. }
    rewrite (roundHalfEven_comp _ _ Ek), roundHalfEven_whole.
    rewrite inject_Z_mult, <- Qmult_assoc, pow2_scale by exact Hk. ring.
Qed.

Lemma pow2_Qpower (e : Z) : Double.pow2 e == 2 ^ e.
Proof.
  unfold Double.pow2. destruct (0 <=? e)%Z eqn:E.
  - apply Z.leb_le in E. rewrite Zpower_Qpower by exact E. reflexivity.
  - apply Z.leb_gt in E. destruct e as [| p | p]; try lia.
    change (- Z.neg p)%Z with (Z.pos p).
    change (2 ^ Z.neg p) with (/ (2 ^ Z.pos p)).
    rewrite <- (Zpower_Qpower 2 (Z.pos p)) by lia.
    assert (0 < 2 ^ Z.pos p)%Z as Hpos by (apply Z.pow_pos_nonneg; lia).
    destruct (2 ^ Z.pos p)%Z as [| q | q] eqn:Eq; try lia.
    reflexivity.
Qed.

Lemma pow2_pos (e : Z) : 0 < Double.pow2 e.
Proof.
  rewrite pow2_Qpower. apply Qpower_0_lt. reflexivity.
Qed.

Lemma pow2_add (i j : Z) : Double.pow2 (i + j) == Double.pow2 i * Double.pow2 j.
Proof.
  rewrite !pow2_Qpower. apply Qpower_plus. discriminate.
Qed.

Lemma pow2_succ (e : Z) : Double.pow2 (e + 1) == 2 * Double.pow2 e.
Proof. rewrite pow2_add. change (Double.pow2 1) with 2. ring. Qed.

Lemma pow2_opp (e : Z) : Double.pow2 e * Double.pow2 (- e) == 1.
Proof. rewrite <- pow2_add, Z.add_opp_diag_r. reflexivity. Qed.

(** The exponent that [Double.exponent] finds is the binary exponent. *)
Lemma exponent_spec (x : Q) :
  ~ x == 0 ->
  Double.pow2 (Double.exponent x) <= Qabs x
  /\ Qabs x < Double.pow2 (Double.exponent x + 1).
Proof.
  intros Hne. unfold Double.exponent.
  set (n := Z.abs (Qnum x)). set (d := Z.pos (Qden x)).
  assert (0 < n)%Z as Hn.
  { assert (Qnum x <> 0%Z); [| lia]. intros E. apply Hne.
    unfold Qeq. rewrite E. reflexivity. }
  assert (0 < d)%Z as Hd by reflexivity.
  destruct (Z.log2_spec n Hn) as [Hn1 Hn2].
  destruct (Z.log2_spec d Hd) as [Hd1 Hd2].
  set (a := Z.log2 n) in *. set (b := Z.log2 d) in *.
  assert (0 <= a)%Z as Ha by apply Z.log2_nonneg.
  assert (0 <= b)%Z as Hb by apply Z.log2_nonneg.
  assert (Qabs x == inject_Z n / inject_Z d) as Ex.
  { unfold Qabs. destruct x as [xn xd]. cbn [Qnum Qden] in *. apply Qmake_Qdiv. }
  assert (0 < inject_Z d) as Hd0 by (change 0 with (inject_Z 0); rewrite <- Zlt_Qlt; exact Hd).
  assert (Qabs x < Double.pow2 (a - b + 1)) as Hup.
  { rewrite Ex. apply Qlt_shift_div_r; [exact Hd0 |].
    assert (Double.pow2 (a - b + 1) * Double.pow2 b == Double.pow2 (a + 1)) as E
        by (rewrite <- pow2_add; f_equiv; lia).
    apply Qlt_le_trans with (Double.pow2 (a - b + 1) * Double.pow2 b).
    - rewrite E. unfold Double.pow2. rewrite (proj2 (Z.leb_le 0 (a + 1)) ltac:(lia)).
      rewrite <- Zlt_Qlt. replace (a + 1)%Z with (Z.succ a) by lia. exact Hn2.
    - apply Qmult_le_l; [apply pow2_pos |].
      unfold Double.pow2. rewrite (proj2 (Z.leb_le 0 b) Hb).
      rewrite <- Zle_Qle. exact Hd1. }
  assert (Double.pow2 (a - b - 1) <= Qabs x) as Hlow.
  { rewrite Ex. apply Qle_shift_div_l; [exact Hd0 |].
    assert (Double.pow2 (a - b - 1) * Double.pow2 (b + 1) == Double.pow2 a) as E
        by (rewrite <- pow2_add; f_equiv; lia).
    apply Qle_trans with (Double.pow2 (a - b - 1) * Double.pow2 (b + 1)).
    - apply Qmult_le_l; [apply pow2_pos |].
      unfold Double.pow2. rewrite (proj2 (Z.leb_le 0 (b + 1)) ltac:(lia)).
      rewrite <- Zle_Qle. replace (b + 1)%Z with (Z.succ b) by lia. lia.
    - rewrite E. unfold Double.pow2. rewrite (proj2 (Z.leb_le 0 a) Ha).
      rewrite <- Zle_Qle. exact Hn1. }
  destruct (Qle_bool (Double.pow2 (a - b)) (Qabs x)) eqn:T.
  - apply Qle_bool_iff in T. split; assumption.
  - split; [exact Hlow |].
    replace (a - b - 1 + 1)%Z with (a - b)%Z by lia.
    apply Qnot_le_lt. intros Hle. apply Qle_bool_iff in Hle. congruence.
Qed.

Lemma roundHalfEven_error (y : Q) :
  Qabs (inject_Z (Double.roundHalfEven y) - y) <= 1 # 2.
Proof.
  unfold Double.roundHalfEven.
  pose proof (Qfloor_le y) as Hlo. pose proof (Qlt_floor y) as Hhi.
  rewrite inject_Z_plus in Hhi. change (inject_Z 1) with 1 in Hhi.
  apply Qabs_Qle_condition.
  destruct (Qcompare (y - inject_Z (Qfloor y)) (1 # 2)) eqn:C.
  - apply Qeq_alt in C. destruct (Z.even (Qfloor y));
      rewrite ?inject_Z_plus; change (inject_Z 1) with 1; split; lra.
  - apply Qlt_alt in C. split; lra.
  - apply Qgt_alt in C. rewrite inject_Z_plus. change (inject_Z 1) with 1. split; lra.
Qed.

(** [Double.round] rounds to nearest: the result is a multiple of the
    spacing of the doubles at the size of [x], [2 ^ (e - 52)] for the
    exponent [e] of [x] and no finer than [2 ^ -1074], and it lies
    within half that spacing of [x]. *)
Lemma round_nearest (x : Q) :
  ~ x == 0 ->
  let e := Double.exponent (Qred x) in
  let spacing := Double.pow2 (Z.max e (-1022) - 52) in
  Double.pow2 e <= Qabs x /\ Qabs x < Double.pow2 (e + 1)
  /\ (exists m : Z, Double.round x == inject_Z m * spacing)
  /\ Qabs (Double.round x - x) <= spacing / 2.
Proof.
  intros Hne e spacing.
  assert (~ Qred x == 0) as Hne' by (rewrite Qred_correct; exact Hne).
  destruct (exponent_spec (Qred x) Hne') as [Hlo Hhi].
  fold e in Hlo, Hhi. rewrite Qred_correct in Hlo, Hhi.
  split; [exact Hlo |]. split; [exact Hhi |].
  unfold Double.round.
  destruct (Qeq_bool (Qred x) 0) eqn:E0; [apply Qeq_bool_eq in E0; contradiction |].
  fold e. set (scale := (52 - Z.max e (-1022))%Z).
  assert (spacing = Double.pow2 (- scale)) as Es
      by (unfold spacing, scale; f_equal; lia).
  rewrite Es.
  set (y := Qred x * Double.pow2 scale).
  split; [exists (Double.roundHalfEven y); apply Qred_correct |].
  rewrite (Qred_correct (inject_Z (Double.roundHalfEven y) * Double.pow2 (- scale))).
  assert (x == y * Double.pow2 (- scale)) as Ex.
  { unfold y. rewrite <- Qmult_assoc, pow2_opp, Qred_correct. ring. }
  assert (inject_Z (Double.roundHalfEven y) * Double.pow2 (- scale) - x
          == (inject_Z (Double.roundHalfEven y) - y) * Double.pow2 (- scale)) as ->
      by (rewrite Ex at 1; ring).
  rewrite Qabs_Qmult.
  pose proof (pow2_pos (- scale)) as Hu.
  rewrite (Qabs_pos (Double.pow2 (- scale))) by lra.
  pose proof (roundHalfEven_error y) as Herr.
  assert (0 <= ((1 # 2) - Qabs (inject_Z (Double.roundHalfEven y) - y))
               * Double.pow2 (- scale)) by (apply Qmult_le_0_compat; lra).
  unfold Qdiv. change (/ 2) with (1 # 2). lra.
Qed.

(** ** Totals in double precision *)

Lemma isWhole_comp (x y : Q) : x == y -> isWhole x -> isWhole y.
Proof.
  unfold isWhole. intros E Hx. rewrite <- (Qfloor_comp _ _ E), <- E. exact Hx.
Qed.

Lemma isWhole_inject_Z (z : Z) : isWhole (inject_Z z).
Proof. unfold isWhole. rewrite Qfloor_Z. reflexivity. Qed.

Lemma isWhole_plus (x y : Q) : isWhole x -> isWhole y -> isWhole (x + y).
Proof.
  intros Hx Hy. apply (isWhole_comp (inject_Z (Qfloor x + Qfloor y))).
  - unfold isWhole in Hx, Hy. rewrite inject_Z_plus, <- Hx, <- Hy. reflexivity.
  - apply isWhole_inject_Z.
Qed.

Lemma isWhole_mult (x y : Q) : isWhole x -> isWhole y -> isWhole (x * y).
Proof.
  intros Hx Hy. apply (isWhole_comp (inject_Z (Qfloor x * Qfloor y))).
  - unfold isWhole in Hx, Hy. rewrite inject_Z_mult, <- Hx, <- Hy. reflexivity.
  - apply isWhole_inject_Z.
Qed.

Lemma Qabs_inject_Z (z : Z) : Qabs (inject_Z z) = inject_Z (Z.abs z).
Proof. reflexivity. Qed.

Lemma round_exact (x : Q) :
  isWhole x -> Qabs x < inject_Z (2 ^ 53) -> Double.round x == x.
Proof.
  intros Hx Hb. unfold isWhole in Hx.
  rewrite (round_comp _ _ Hx). rewrite round_whole.
  - symmetry. exact Hx.
  - rewrite Hx, Qabs_inject_Z, <- Zlt_Qlt in Hb. exact Hb.
Qed.

Lemma round_zero (x : Q) : x == 0 -> Double.round x == 0.
Proof. intros E. rewrite (round_comp _ _ E). reflexivity. Qed.

Lemma isWhole_magnitude (x : Q) : isWhole x -> ~ x == 0 -> 1 <= Qabs x.
Proof.
  intros Hx Hne. unfold isWhole in Hx. rewrite Hx, Qabs_inject_Z.
  change 1 with (inject_Z 1). rewrite <- Zle_Qle.
  assert (Qfloor x <> 0%Z); [| lia].
  intros E. apply Hne. rewrite Hx, E. reflexivity.
Qed.

Lemma Qabs_factor (x y : Q) : 1 <= Qabs y -> Qabs x <= Qabs (x * y).
Proof.
  intros Hy. rewrite Qabs_Qmult.
  pose proof (Qabs_nonneg x) as Hx.
  assert (0 <= Qabs x * (Qabs y - 1)) by (apply Qmult_le_0_compat; lra).
  lra.
Qed.

(** The tonnage of an entry of whole numbers is computed exactly as
    long as it stays below [2 ^ 53]. *)
Lemma tonnage_exact (w : WorkoutEntry) :
  wholeEntry w -> Qabs (tonnage w) < inject_Z (2 ^ 53) ->
  Double.tonnage w == tonnage w.
Proof.
  unfold wholeEntry, wholeNumber, Double.tonnage, Double.mul, tonnage.
  set (s := orZero (sets w)). set (r := orZero (reps w)).
  set (kg := orZero (weight w)). clearbody s r kg.
  intros ((Hs & _) & (Hr & _) & (Hkg & _)) Hb.
  destruct (Qeq_dec kg 0) as [Ekg | Nkg].
  { assert (Double.round (Double.round s * Double.round r) * Double.round kg == 0) as E.
    { rewrite (round_zero kg Ekg). ring. }
    rewrite (round_zero _ E), Ekg. ring. }
  destruct (Qeq_dec (s * r) 0) as [Esr | Nsr].
  { assert (Double.round s * Double.round r == 0) as E1.
    { apply Qmult_integral in Esr as [E | E]; rewrite (round_zero _ E); ring. }
    assert (Double.round (Double.round s * Double.round r) * Double.round kg == 0) as E.
    { rewrite (round_zero _ E1). ring. }
    rewrite (round_zero _ E).
    assert (s * r * kg == 0 * kg) as -> by (rewrite Esr; reflexivity). ring. }
  assert (~ s == 0) as Ns by (intros E; apply Nsr; rewrite E; ring).
  assert (~ r == 0) as Nr by (intros E; apply Nsr; rewrite E; ring).
  pose proof (isWhole_magnitude _ Hs Ns) as Ms.
  pose proof (isWhole_magnitude _ Hr Nr) as Mr.
  pose proof (isWhole_magnitude _ Hkg Nkg) as Mkg.
  pose proof (isWhole_mult _ _ Hs Hr) as Hsr.
  pose proof (isWhole_magnitude _ Hsr Nsr) as Msr.
  pose proof (Qabs_factor (s * r) kg Mkg) as Bsr.
  pose proof (Qabs_factor s r Mr) as Bs.
  assert (Qabs r <= Qabs (s * r)) as Br.
  { assert (s * r == r * s) as -> by ring. apply Qabs_factor, Ms. }
  assert (Qabs kg <= Qabs (s * r * kg)) as Bkg.
  { assert (s * r * kg == kg * (s * r)) as -> by ring. apply Qabs_factor, Msr. }
  assert (Double.round s == s) as Es by (apply round_exact; [exact Hs | lra]).
  assert (Double.round r == r) as Er by (apply round_exact; [exact Hr | lra]).
  assert (Double.round kg == kg) as Ek by (apply round_exact; [exact Hkg | lra]).
  assert (Double.round s * Double.round r == s * r) as E1 by (rewrite Es, Er; reflexivity).
  rewrite (round_comp _ _ E1).
  assert (Double.round (s * r) == s * r) as Esr by (apply round_exact; [exact Hsr | lra]).
  assert (Double.round (s * r) * Double.round kg == s * r * kg) as E2
      by (rewrite Esr, Ek; reflexivity).
  rewrite (round_comp _ _ E2).
  apply round_exact; [apply isWhole_mult; assumption | exact Hb].
Qed.

Lemma wholeEntry_tonnage (w : WorkoutEntry) : wholeEntry w -> isWhole (tonnage w).
Proof.
  intros ((Hs & _) & (Hr & _) & (Hkg & _)). unfold tonnage.
  repeat apply isWhole_mult; assumption.
Qed.

Lemma sumOf_Qabs_nonneg {A} (f : A -> Q) (l : list A) :
  0 <= sumOf (fun x => Qabs (f x)) l.
Proof.
  induction l as [| x l IH]; simpl; [lra |].
  pose proof (Qabs_nonneg (f x)). 
  change (fold_right (fun x s => Qabs (f x) + s) 0 l)
    with (sumOf (fun x => Qabs (f x)) l).
  lra.
Qed.

(** The running total of whole entries stays exact as long as the
    magnitudes to be added leave it below [2 ^ 53]. *)
Lemma totalTonnage_exact_from (arr : list WorkoutEntry) :
  forall acc,
    isWhole acc -> Forall wholeEntry arr ->
    Qabs acc + sumOf (fun w => Qabs (tonnage w)) arr < inject_Z (2 ^ 53) ->
    fold_left (fun s w => Double.add s (Double.tonnage w)) arr acc
    == acc + sumOf tonnage arr.
Proof.
  induction arr as [| w arr IH]; intros acc Hacc Hall Hb.
  - simpl. ring.
  - apply Forall_cons in Hall as [Hw Hall].
    cbn [fold_left sumOf fold_right] in *.
    change (fold_right (fun x s => Qabs (tonnage x) + s) 0 arr)
      with (sumOf (fun x => Qabs (tonnage x)) arr) in Hb.
    change (fold_right (fun x s => tonnage x + s) 0 arr) with (sumOf tonnage arr).
    pose proof (sumOf_Qabs_nonneg tonnage arr) as Hrest.
    pose proof (Qabs_nonneg acc) as Hacc0.
    pose proof (Qabs_nonneg (tonnage w)) as Hw0.
    pose proof (Qabs_triangle acc (tonnage w)) as Htri.
    assert (Double.tonnage w == tonnage w) as Ew by (apply tonnage_exact; [exact Hw | lra]).
    assert (Double.add acc (Double.tonnage w) == acc + tonnage w) as Estep.
    { unfold Double.add.
      assert (acc + Double.tonnage w == acc + tonnage w) as E by (rewrite Ew; reflexivity).
      rewrite (round_comp _ _ E). apply round_exact; [| lra].
      apply isWhole_plus; [exact Hacc | apply wholeEntry_tonnage, Hw]. }
    rewrite IH.
    + rewrite Estep. ring.
    + apply (isWhole_comp (acc + tonnage w)); [symmetry; exact Estep |].
      apply isWhole_plus; [exact Hacc | apply wholeEntry_tonnage, Hw].
    + exact Hall.
    + rewrite Estep. lra.
Qed.

Lemma totalTonnage_exact (arr : list WorkoutEntry) :
  Forall wholeEntry arr ->
  sumOf (fun w => Qabs (tonnage w)) arr < inject_Z (2 ^ 53) ->
  Double.totalTonnage arr == totalTonnage arr.
Proof.
  intros Hall Hb. unfold Double.totalTonnage.
  rewrite totalTonnage_exact_from, totalTonnage_sumOf.
  - ring.
  - apply (isWhole_inject_Z 0).
  - exact Hall.
  - change (Qabs 0) with 0. lra.
Qed.

(** C6, as stated, fails: the total is a sum of doubles taken from the
    left, and each addition rounds.  Three sets with fractional weights
    add up to the double nearest to 520.1 in one order and to the double
    below it in the reverse order. *)
Lemma total_volume_depends_on_order :
  Permutation fractionalSets (rev fractionalSets)
  /\ Double.totalTonnage (rev fractionalSets) == Double.round 520.1
  /\ Double.totalTonnage fractionalSets < Double.round 520.1
  /\ ~ Double.totalTonnage fractionalSets == Double.totalTonnage (rev fractionalSets).
Proof.
  split; [apply Permutation_rev |].
  repeat split; vm_compute; discriminate || reflexivity.
Qed.

(** C6, amended: when the sets, reps and weight of every entry are
    whole numbers of magnitude below [2 ^ 53] and the magnitudes of the
    entries' tonnages add up to less than [2 ^ 53], no operation rounds:
    the total is the exact sum, and it is the same for every permutation
    of the list. *)
Theorem total_volume_permutation_invariant_whole (arr arr' : list WorkoutEntry) :
  Forall wholeEntry arr ->
  sumOf (fun w => Qabs (tonnage w)) arr < inject_Z (2 ^ 53) ->
  Permutation arr arr' ->
  Double.totalTonnage arr == sumOf tonnage arr
  /\ Double.totalTonnage arr' == Double.totalTonnage arr.
Proof.
  intros Hall Hb Hperm.
  assert (Double.totalTonnage arr == sumOf tonnage arr) as E
      by (rewrite totalTonnage_exact, totalTonnage_sumOf by assumption; reflexivity).
  split; [exact E |].
  rewrite E, totalTonnage_exact, totalTonnage_sumOf.
  - symmetry. apply sumOf_Permutation, Hperm.
  - apply (Permutation_Forall Hperm), Hall.
  - rewrite <- (sumOf_Permutation _ _ _ Hperm). exact Hb.
Qed.

Lemma total_volume_permutation_invariant_whole_witness :
  Double.totalTonnage [loggedSet "2025-01-06" "Bench Press" 1 8 60 9;
                       loggedSet "2025-01-06" "Squat" 3 5 100 8]
  == Double.totalTonnage [loggedSet "2025-01-06" "Squat" 3 5 100 8;
                          loggedSet "2025-01-06" "Bench Press" 1 8 60 9].
Proof.
  apply (total_volume_permutation_invariant_whole
           [loggedSet "2025-01-06" "Squat" 3 5 100 8;
            loggedSet "2025-01-06" "Bench Press" 1 8 60 9]).
  - repeat constructor; vm_compute; reflexivity.
  - vm_compute. reflexivity.
  - apply perm_swap.
Defined.

(** ** Volume by muscle group *)

Lemma positive_test (v : Q) : negb (Qle_bool v 0) = true <-> 0 < v.
Proof.
  rewrite negb_true_iff. split.
  - intros E. apply Qnot_le_lt. intros Hle. apply Qle_bool_iff in Hle. congruence.
  - intros Hlt. destruct (Qle_bool v 0) eqn:E; [| reflexivity].
    apply Qle_bool_iff in E. lra.
Qed.

Lemma groupVolume_cons overrides w arr (g : MuscleGroup) :
  groupVolume overrides (w :: arr) g
  == (if decide (inferMuscleGroup overrides (exercise w) = g) then tonnage w else 0)
     + groupVolume overrides arr g.
Proof.
  unfold groupVolume. simpl.
  destruct (decide (inferMuscleGroup overrides (exercise w) = g)) as [E | E].
  - rewrite bool_decide_eq_true_2 by exact E. reflexivity.
  - rewrite bool_decide_eq_false_2 by exact E. ring.
Qed.

Lemma accumulate_from overrides arr (g : MuscleGroup) :
  forall map,
    groupTotal
      (fold_left
         (fun map w => addTonnage map (inferMuscleGroup overrides (exercise w)) (tonnage w))
         arr map) g
    == groupTotal map g + groupVolume overrides arr g.
Proof.
  induction arr as [| w arr IH]; intros map.
  - unfold groupVolume. simpl. ring.
  - simpl fold_left. rewrite IH, groupVolume_cons. unfold addTonnage.
    destruct (inferMuscleGroup overrides (exercise w)) as [g' | member];
      cbn [groupTotal].
    + destruct (decide (g = g')) as [-> | Hne].
      * rewrite decide_True by reflexivity. ring.
      * rewrite decide_False by congruence. ring.
    + rewrite decide_False by discriminate. ring.
Qed.

Lemma accumulateTonnage_groupVolume overrides arr (g : MuscleGroup) :
  groupTotal (accumulateTonnage overrides arr) g == groupVolume overrides arr g.
Proof.
  unfold accumulateTonnage. rewrite accumulate_from. unfold emptyTonnageMap.
  cbn [groupTotal]. ring.
Qed.

Lemma insertDesc_Permutation a l : Permutation (insertDesc a l) (a :: l).
Proof.
  induction l as [| b l IH]; simpl; [reflexivity |].
  destruct (Qle_bool (value b - value a) 0); [reflexivity |].
  rewrite IH. apply perm_swap.
Qed.

Lemma sortDesc_Permutation l : Permutation (sortDesc l) l.
Proof.
  induction l as [| a l IH]; simpl; [reflexivity |].
  rewrite insertDesc_Permutation. apply perm_skip, IH.
Qed.

Lemma in_MUSCLE_GROUPS g : In g MUSCLE_GROUPS.
Proof. destruct g; simpl; tauto. Qed.

Lemma in_pieItems map x :
  In x (pieItems map)
  <-> exists g, x = mkPieItem g (groupTotal map g) (palette g) /\ 0 < groupTotal map g.
Proof.
  unfold pieItems. split.
  - intros Hin. apply (Permutation_in _ (sortDesc_Permutation _)) in Hin.
    apply filter_In in Hin as [Hin Hpos]. apply in_map_iff in Hin as [g [<- _]].
    exists g. split; [reflexivity |]. apply positive_test in Hpos. exact Hpos.
  - intros [g [-> Hpos]].
    apply (Permutation_in _ (Permutation_sym (sortDesc_Permutation _))).
    apply filter_In. split.
    + apply in_map_iff. exists g. split; [reflexivity | apply in_MUSCLE_GROUPS].
    + apply positive_test. exact Hpos.
Qed.

Lemma in_muscleGroupTonnage overrides arr sl :
  In sl (muscleGroupTonnage overrides arr) ->
  In (item sl) (pieItems (accumulateTonnage overrides arr)).
Proof.
  unfold muscleGroupTonnage. intros Hin.
  apply in_map_iff in Hin as [x [<- Hx]]. exact Hx.
Qed.

(** Every group is reported on its own: the distribution has an entry
    for [g] exactly when the tonnage of the exercises mapped to [g] is
    positive, and the entry carries that tonnage. *)
Lemma distribution_entry overrides arr g :
  (forall sl, In sl (muscleGroupTonnage overrides arr) -> name (item sl) = g ->
              value (item sl) == groupVolume overrides arr g)
  /\ ((exists sl, In sl (muscleGroupTonnage overrides arr) /\ name (item sl) = g)
      <-> 0 < groupVolume overrides arr g).
Proof.
  split; [| split].
  - intros sl Hin Hname. apply in_muscleGroupTonnage, in_pieItems in Hin.
    destruct Hin as [g' [E _]]. rewrite E in *. simpl in *. subst g'.
    apply accumulateTonnage_groupVolume.
  - intros [sl [Hin Hname]]. apply in_muscleGroupTonnage, in_pieItems in Hin.
    destruct Hin as [g' [E Hpos]]. rewrite E in Hname. simpl in Hname. subst g'.
    rewrite <- accumulateTonnage_groupVolume. exact Hpos.
  - intros Hpos. rewrite <- accumulateTonnage_groupVolume in Hpos.
    set (x := mkPieItem g (groupTotal (accumulateTonnage overrides arr) g) (palette g)).
    assert (In x (pieItems (accumulateTonnage overrides arr))) as Hx.
    { apply in_pieItems. exists g. split; [reflexivity | exact Hpos]. }
    unfold muscleGroupTonnage.
    eexists. split.
    + apply in_map_iff. exists x. split; [reflexivity | exact Hx].
    + reflexivity.
Qed.

(** C1, as stated, fails: with a squat set and a calf-raise set in the
    history the distribution has a Calves entry of 300, and the Legs
    entry holds the squat's 500 only. *)
Lemma calves_not_folded_into_legs :
  List.map (fun sl => (name (item sl), Qred (value (item sl))))
    (muscleGroupTonnage ∅ calfHistory)
  = [(Legs, 500); (Calves, 300)].
Proof. vm_compute. reflexivity. Qed.

(** C1, amended: the volume of the exercises that [inferMuscleGroup]
    maps to Calves is reported under a Calves entry of its own, which is
    present exactly when that volume is positive; the Legs entry carries
    the volume of the exercises mapped to Legs, and nothing else. *)
Theorem calves_reported_as_own_group overrides (arr : list WorkoutEntry) :
  (forall sl, In sl (muscleGroupTonnage overrides arr) -> name (item sl) = Calves ->
              value (item sl) == groupVolume overrides arr Calves)
  /\ ((exists sl, In sl (muscleGroupTonnage overrides arr) /\ name (item sl) = Calves)
      <-> 0 < groupVolume overrides arr Calves)
  /\ (forall sl, In sl (muscleGroupTonnage overrides arr) -> name (item sl) = Legs ->
                 value (item sl) == groupVolume overrides arr Legs).
Proof.
  destruct (distribution_entry overrides arr Calves) as [Hvalue Hpresent].
  destruct (distribution_entry overrides arr Legs) as [Hlegs _].
  repeat split; try assumption; apply Hpresent.
Qed.

Lemma calves_reported_as_own_group_witness :
  exists sl, In sl (muscleGroupTonnage ∅ calfHistory)
             /\ name (item sl) = Calves /\ value (item sl) == 300.
Proof.
  destruct (calves_reported_as_own_group ∅ calfHistory) as [Hvalue [Hpresent _]].
  destruct Hpresent as [_ Hpresent].
  destruct Hpresent as [sl [Hin Hname]]; [vm_compute; reflexivity |].
  exists sl. split; [exact Hin |]. split; [exact Hname |].
  rewrite (Hvalue sl Hin Hname). vm_compute. reflexivity.
Defined.

(** *** Percentages *)

Lemma nearestTenths_bounds (x : Q) :
  x - (1 # 20) <= inject_Z (nearestTenths x) / 10
  /\ inject_Z (nearestTenths x) / 10 <= x + (1 # 20).
Proof.
  unfold nearestTenths.
  pose proof (Qfloor_le (x * 10 + (1 # 2))) as Hle.
  pose proof (Qlt_floor (x * 10 + (1 # 2))) as Hlt.
  rewrite inject_Z_plus in Hlt.
  set (n := inject_Z (Qfloor (x * 10 + (1 # 2)))) in *. clearbody n.
  change (inject_Z 1) with 1 in Hlt.
  unfold Qdiv. change (/ 10) with (1 # 10). split; lra.
Qed.

(** Rounding to one decimal place moves a number by at most 0.05. *)
Lemma roundFixed1_bounds (x : Q) :
  x - (1 # 20) <= roundFixed1 x /\ roundFixed1 x <= x + (1 # 20).
Proof.
  unfold roundFixed1, fixed1.
  destruct (Qlt_le_dec x 0) as [Hneg | Hpos].
  - destruct (nearestTenths_bounds (- x)) as [Hlo Hhi].
    generalize dependent (inject_Z (nearestTenths (- x)) / 10). intros; split; lra.
  - apply nearestTenths_bounds.
Qed.

Lemma sumOf_rounded_bounds {A} (f : A -> Q) (l : list A) :
  sumOf f l - inject_Z (Z.of_nat (length l)) * (1 # 20)
    <= sumOf (fun x => roundFixed1 (f x)) l
  /\ sumOf (fun x => roundFixed1 (f x)) l
    <= sumOf f l + inject_Z (Z.of_nat (length l)) * (1 # 20).
Proof.
  induction l as [| x l [IHlo IHhi]].
  - split; vm_compute; discriminate.
  - cbn [sumOf fold_right length].
    change (fold_right (fun x s => f x + s) 0 l) with (sumOf f l).
    change (fold_right (fun x s => roundFixed1 (f x) + s) 0 l)
      with (sumOf (fun x => roundFixed1 (f x)) l).
    rewrite Nat2Z.inj_succ, <- Z.add_1_r, inject_Z_plus.
    change (inject_Z 1) with 1.
    destruct (roundFixed1_bounds (f x)) as [Hlo Hhi].
    split; lra.
Qed.

Lemma sumOf_scale {A} (f : A -> Q) (c : Q) (l : list A) :
  sumOf (fun x => f x * c) l == sumOf f l * c.
Proof.
  induction l as [| x l IH]; simpl; [ring |].
  change (fold_right (fun x s => f x * c + s) 0 l) with (sumOf (fun x => f x * c) l).
  change (fold_right (fun x s => f x + s) 0 l) with (sumOf f l).
  rewrite IH. ring.
Qed.

Lemma sumOf_map {A B} (h : A -> B) (f : B -> Q) (l : list A) :
  sumOf f (List.map h l) = sumOf (fun x => f (h x)) l.
Proof. induction l as [| x l IH]; simpl; [reflexivity |]. f_equal. exact IH. Qed.

Lemma itemsTotal_sumOf (items : list PieItem) : itemsTotal items == sumOf value items.
Proof. unfold itemsTotal. rewrite fold_left_sumOf. ring. Qed.

Lemma pieItems_length map : (length (pieItems map) <= 9)%nat.
Proof.
  unfold pieItems.
  rewrite (Permutation_length (sortDesc_Permutation _)).
  etransitivity; [apply List.filter_length_le |].
  rewrite length_map. reflexivity.
Qed.

Lemma muscleGroupTonnage_positive_total overrides (arr : list WorkoutEntry) :
  let items := pieItems (accumulateTonnage overrides arr) in
  0 < itemsTotal items ->
  muscleGroupTonnage overrides arr
  = List.map
      (fun x => mkPieSlice x (roundFixed1 (value x / itemsTotal items * 100))
                  (itemsTotal items))
      items.
Proof.
  intros items Hpos. unfold muscleGroupTonnage. fold items.
  destruct (Qeq_bool (itemsTotal items) 0) eqn:E; [| reflexivity].
  apply Qeq_bool_eq in E. lra.
Qed.

(** C7 fails on the code at a history whose only set belongs to an
    exercise that goes by the name of a member of [Object.prototype].
    The lookup in the override object finds the inherited member, the
    set's volume lands under a stray key, and the distribution is empty:
    the total tonnage is 300, and the percentages sum to 0. *)
Theorem percentages_lost_for_inherited_name :
  0 < totalTonnage [inheritedNameSet]
  /\ inferMuscleGroup ∅ (exercise inheritedNameSet) = Inherited "constructor"
  /\ strayKeys (accumulateTonnage ∅ [inheritedNameSet]) = ["constructor"%string]
  /\ muscleGroupTonnage ∅ [inheritedNameSet] = []
  /\ sumOf pct (muscleGroupTonnage ∅ [inheritedNameSet]) == 0.
Proof. repeat split; vm_compute; reflexivity. Qed.

(** ** Overrides *)

(** C8: a name that is a key of the override map gets the override's
    group, whatever the keyword rules would say.  The keyword rules
    decide only for names the map does not hold: for all of them except
    the names of the members of [Object.prototype], for which the lookup
    returns the inherited member. *)
Theorem override_takes_precedence (overrides : gmap string MuscleGroup)
    (exercise : string) :
  (forall g : MuscleGroup,
      overrides !! exercise = Some g -> inferMuscleGroup overrides exercise = g)
  /\ (overrides !! exercise = None -> exercise ∉ OBJECT_PROTOTYPE ->
      inferMuscleGroup overrides exercise = keywordGroup exercise)
  /\ (overrides !! exercise = None -> exercise ∈ OBJECT_PROTOTYPE ->
      inferMuscleGroup overrides exercise = Inherited exercise).
Proof.
  unfold inferMuscleGroup. split; [| split].
  - intros g ->. reflexivity.
  - intros -> Hout. rewrite bool_decide_eq_false_2 by exact Hout. reflexivity.
  - intros -> Hin. rewrite bool_decide_eq_true_2 by exact Hin. reflexivity.
Qed.

Lemma override_takes_precedence_witness :
  keywordGroup "Squat" = Legs
  /\ inferMuscleGroup (<["Squat"%string := Arms]> ∅) "Squat" = Arms
  /\ inferMuscleGroup (<["Squat"%string := Arms]> ∅) "Bench Press" = Chest
  /\ inferMuscleGroup (<["Squat"%string := Arms]> ∅) "toString" = Inherited "toString".
Proof.
  split; [reflexivity |].
  split; [| split].
  - apply (override_takes_precedence (<["Squat"%string := Arms]> ∅) "Squat").
    apply lookup_insert_eq.
  - destruct (override_takes_precedence (<["Squat"%string := Arms]> ∅) "Bench Press")
      as (_ & Hrules & _).
    rewrite Hrules; [reflexivity | |].
    + rewrite lookup_insert_ne by discriminate. apply lookup_empty.
    + apply (bool_decide_unpack _). vm_compute. exact I.
  - destruct (override_takes_precedence (<["Squat"%string := Arms]> ∅) "toString")
      as (_ & _ & Hmember).
    apply Hmember.
    + rewrite lookup_insert_ne by discriminate. apply lookup_empty.
    + apply (bool_decide_unpack _). vm_compute. exact I.
Defined.

(** ** Suggested next weight *)

Section UploadedRows.

Variable normalizeExercise : string -> string.
Variable today : string.


End UploadedRows.


(** ** Session matcher *)

(** C2: a merged workout whose match quality is none has no average,
    maximum or minimum heart rate, no calories and no distance: each is
    absent, none is a zero. *)
Theorem unmatched_has_no_biometrics (defaultDuration : Z)
    (s : Matcher.TrainingSession) (stream : list Matcher.BiometricWindow) :
  let w := Matcher.merge defaultDuration s stream in
  Matcher.apple_match_quality w = Matcher.MatchNone ->
  Matcher.avg_heart_rate w = None /\ Matcher.max_heart_rate w = None
  /\ Matcher.min_heart_rate w = None /\ Matcher.calories w = None
  /\ Matcher.distance_meters w = None.
Proof.
  intros w. subst w. unfold Matcher.merge.
  destruct (Matcher.nearest defaultDuration s stream) as [b |]; [| intros _; tauto].
  destruct (Matcher.tier (Matcher.gap2 defaultDuration s b));
    cbn [Matcher.apple_match_quality]; intros Hq; try discriminate Hq.
  cbn. tauto.
Qed.

(** A window 50 minutes away from a one-hour session leaves it
    unmatched. *)
Lemma unmatched_has_no_biometrics_witness :
  let w := Matcher.merge 3600%Z (Matcher.mkTrainingSession 36000%Z (Some 3600%Z))
             [Matcher.mkBiometricWindow 39000%Z 42600%Z (Some 135) (Some 165) (Some 110)
                (Some 450) (Some 0)] in
  Matcher.apple_match_quality w = Matcher.MatchNone
  /\ Matcher.avg_heart_rate w = None /\ Matcher.max_heart_rate w = None
  /\ Matcher.min_heart_rate w = None /\ Matcher.calories w = None
  /\ Matcher.distance_meters w = None.
Proof.
  intros w. split; [reflexivity |].
  apply (unmatched_has_no_biometrics 3600%Z (Matcher.mkTrainingSession 36000%Z (Some 3600%Z))
           [Matcher.mkBiometricWindow 39000%Z 42600%Z (Some 135) (Some 165) (Some 110)
              (Some 450) (Some 0)]).
  reflexivity.
Defined.

(** ** Deduplication *)

(** *** Reading the fields back from a key *)

Lemma append_nil (s : string) : (EmptyString ++ s)%string = s.
Proof. reflexivity. Qed.

Lemma append_cons (c : ascii) (a s : string) :
  (String c a ++ s)%string = String c (a ++ s)%string.
Proof. reflexivity. Qed.

Lemma append_inj_length (a a' s s' : string) :
  String.length a = String.length a' ->
  (a ++ s)%string = (a' ++ s')%string -> a = a' /\ s = s'.
Proof.
  revert a'. induction a as [| c a IH]; intros [| c' a'] Hlen E;
    try discriminate Hlen; rewrite ?append_nil, ?append_cons in E.
  - split; [reflexivity | exact E].
  - injection E as -> E. injection Hlen as Hlen.
    destruct (IH a' Hlen E) as [-> ->]. split; reflexivity.
Qed.

Lemma append_inj_dashFree (a a' s s' : string) :
  dashFree a = true -> dashFree a' = true ->
  (a ++ "-" ++ s)%string = (a' ++ "-" ++ s')%string -> a = a' /\ s = s'.
Proof.
  revert a'. induction a as [| c a IH]; intros [| c' a'] Ha Ha' E;
    rewrite ?append_nil, ?append_cons, ?append_nil in E; cbn [dashFree] in Ha, Ha'.
  - injection E as ->. split; reflexivity.
  - injection E as <- _. discriminate Ha'.
  - injection E as -> _. discriminate Ha.
  - injection E as -> E.
    apply andb_true_iff in Ha as [_ Ha]. apply andb_true_iff in Ha' as [_ Ha'].
    destruct (IH a' Ha Ha' E) as [-> ->]. split; reflexivity.
Qed.

Lemma separableText_split (a a' s s' : string) :
  separableText a a' ->
  (a ++ "-" ++ s)%string = (a' ++ "-" ++ s')%string -> a = a' /\ s = s'.
Proof.
  intros [Hlen | [Ha Ha']] E.
  - destruct (append_inj_length _ _ _ _ Hlen E) as [-> E'].
    rewrite !append_cons, !append_nil in E'.
    injection E' as ->. split; reflexivity.
  - apply append_inj_dashFree; assumption.
Qed.

Lemma showNumber_tells_apart (x y : Q) : showNumber x = showNumber y <-> x == y.
Proof.
  unfold showNumber. split.
  - intros E. apply (inj pretty), (inj encode) in E.
    apply Qred_eq_iff. destruct (Qred x), (Qred y). cbn in E. congruence.
  - intros E. rewrite (Qred_complete _ _ E). reflexivity.
Qed.

Section Deduplication.

#[local] Set Warnings "-clear-no-such-hyp".

Variable numToString : Q -> string.
Variable normalizeExercise : string -> string.
Variable today : string.

Abbreviation key := (workoutKey numToString).
Abbreviation unseen := (filterUnseen numToString).
Abbreviation dedup := (deduplicateWorkouts numToString).
Abbreviation upload := (mergeUpload numToString normalizeExercise today).
Abbreviation uploaded := (rowsOf normalizeExercise today).

Lemma filterUnseen_app (l1 l2 : list WorkoutEntry) :
  forall seen : gset string,
    unseen seen (l1 ++ l2)
    = unseen seen l1 ++ unseen (seen ∪ list_to_set (key <$> l1)) l2.
Proof.
  induction l1 as [| w l1 IH]; intros seen.
  - simpl. f_equal. set_solver.
  - cbn [app filterUnseen fmap list_fmap]. rewrite list_to_set_cons.
    destruct (decide (key w ∈ seen)) as [Hin | Hnew].
    + rewrite IH. do 2 f_equal. set_solver.
    + rewrite IH. cbn [app]. do 3 f_equal. set_solver.
Qed.

Lemma filterUnseen_all_seen (l : list WorkoutEntry) (seen : gset string) :
  Forall (fun w => key w ∈ seen) l -> unseen seen l = [].
Proof.
  induction 1 as [| w l Hw _ IH]; simpl; [reflexivity |].
  rewrite decide_True by exact Hw. exact IH.
Qed.

Lemma filterUnseen_fresh (l : list WorkoutEntry) :
  forall seen : gset string,
    NoDup (key <$> unseen seen l)
    /\ (forall w, w ∈ unseen seen l -> (key w ∉ seen) /\ (w ∈ l)).
Proof.
  induction l as [| w l IH]; intros seen.
  - simpl. split; [constructor | set_solver].
  - cbn [filterUnseen].
    destruct (decide (key w ∈ seen)) as [Hin | Hnew].
    + destruct (IH seen) as [Hnd Hk]. split; [exact Hnd |].
      intros w' Hw'. destruct (Hk w' Hw'). set_solver.
    + destruct (IH ({[key w]} ∪ seen)) as [Hnd Hk]. split.
      * cbn [fmap list_fmap]. apply NoDup_cons. split; [| exact Hnd].
        intros Hdup. apply list_elem_of_fmap in Hdup as [w' [Heq Hw']].
        destruct (Hk w' Hw'). set_solver.
      * intros w' Hw'. apply elem_of_cons in Hw' as [-> | Hw'].
        -- split; [exact Hnew | left].
        -- destruct (Hk w' Hw'). set_solver.
Qed.

Lemma filterUnseen_id (l : list WorkoutEntry) :
  forall seen : gset string,
    NoDup (key <$> l) -> (forall w, w ∈ l -> key w ∉ seen) ->
    unseen seen l = l.
Proof.
  induction l as [| w l IH]; intros seen Hnd Hfresh; [reflexivity |].
  cbn [filterUnseen]. cbn [fmap list_fmap] in Hnd.
  apply NoDup_cons in Hnd as [Hw Hnd].
  rewrite decide_False by (apply Hfresh; left).
  f_equal. apply IH; [exact Hnd |].
  intros w' Hw'. assert (key w' ∉ seen) by (apply Hfresh; right; exact Hw').
  assert (key w' ≠ key w).
  { intros Heq. apply Hw. rewrite <- Heq. apply list_elem_of_fmap_2, Hw'. }
  set_solver.
Qed.

Lemma deduplicateWorkouts_idempotent (workouts : list WorkoutEntry) :
  dedup (dedup workouts) = dedup workouts.
Proof.
  unfold deduplicateWorkouts.
  destruct (filterUnseen_fresh workouts ∅) as [Hnd _].
  apply filterUnseen_id; [exact Hnd | set_solver].
Qed.

Lemma deduplicateWorkouts_snoc (workouts : list WorkoutEntry) (w : WorkoutEntry) :
  dedup (workouts ++ [w])
  = dedup workouts
    ++ (if decide (key w ∈ key <$> workouts) then [] else [w]).
Proof.
  unfold deduplicateWorkouts. rewrite filterUnseen_app. f_equal.
  cbn [filterUnseen].
  destruct (decide (key w ∈ key <$> workouts)) as [Hin | Hnew].
  - rewrite decide_True by set_solver. reflexivity.
  - rewrite decide_False by set_solver. reflexivity.
Qed.

Lemma deduplicateWorkouts_merge_present (prev new : list WorkoutEntry) :
  Forall (fun w => key w ∈ key <$> prev) new ->
  dedup (prev ++ new) = dedup prev.
Proof.
  intros Hpresent. unfold deduplicateWorkouts.
  rewrite filterUnseen_app, (filterUnseen_all_seen new); [apply app_nil_r |].
  eapply Forall_impl; [exact Hpresent |]. intros w Hw. set_solver.
Qed.

Lemma filterUnseen_sublist (l : list WorkoutEntry) :
  forall seen : gset string, unseen seen l `sublist_of` l.
Proof.
  induction l as [| w l IH]; intros seen; cbn [filterUnseen].
  - constructor.
  - destruct (decide (key w ∈ seen)).
    + apply sublist_cons, IH.
    + apply sublist_skip, IH.
Qed.

Lemma filterUnseen_covers (l : list WorkoutEntry) :
  forall (seen : gset string) w,
    w ∈ l -> (key w ∈ seen) \/ (key w ∈ key <$> unseen seen l).
Proof.
  induction l as [| w0 l IH]; intros seen w Hw; [set_solver |].
  cbn [filterUnseen].
  apply elem_of_cons in Hw as [-> | Hw].
  - destruct (decide (key w0 ∈ seen)); [left; assumption | right; left].
  - destruct (decide (key w0 ∈ seen)) as [Hin | Hnew]; [apply IH, Hw |].
    destruct (IH ({[key w0]} ∪ seen) w Hw) as [Hseen | Hkept].
    + apply elem_of_union in Hseen as [Hsame | Hseen]; [| left; exact Hseen].
      apply elem_of_singleton in Hsame. right. rewrite Hsame. left.
    + right. right. exact Hkept.
Qed.

Lemma mergeUpload_present (prev : WorkoutsState) (csvData : list HevyRow) :
  (forall c, NoDup (key <$> entriesOf c prev)) ->
  (forall c, Forall (fun w => key w ∈ key <$> entriesOf c prev) (uploaded c csvData)) ->
  upload prev csvData = prev.
Proof.
  intros Hnd Hpresent. unfold mergeUpload, deduplicateWorkouts.
  destruct prev as [pu pl le co].
  pose proof (Hnd CatPush) as N1. pose proof (Hpresent CatPush) as P1.
  pose proof (Hnd CatPull) as N2. pose proof (Hpresent CatPull) as P2.
  pose proof (Hnd CatLegs) as N3. pose proof (Hpresent CatLegs) as P3.
  pose proof (Hnd CatConditioning) as N4. pose proof (Hpresent CatConditioning) as P4.
  cbn [entriesOf push pull legs conditioning] in *.
  pose proof (deduplicateWorkouts_merge_present _ _ P1) as E1.
  pose proof (deduplicateWorkouts_merge_present _ _ P2) as E2.
  pose proof (deduplicateWorkouts_merge_present _ _ P3) as E3.
  pose proof (deduplicateWorkouts_merge_present _ _ P4) as E4.
  unfold deduplicateWorkouts in E1, E2, E3, E4.
  rewrite E1, E2, E3, E4.
  rewrite !filterUnseen_id by (assumption || set_solver).
  reflexivity.
Qed.

Lemma workoutKey_fields (w1 w2 : WorkoutEntry) :
  separable numToString w1 w2 -> key w1 = key w2 ->
  date w1 = date w2 /\ exercise w1 = exercise w2
  /\ template numToString (weight w1) = template numToString (weight w2)
  /\ template numToString (reps w1) = template numToString (reps w2)
  /\ match rpe w1 with Some q => numToString q | None => ""%string end
     = match rpe w2 with Some q => numToString q | None => ""%string end.
Proof.
  intros (Hd & He & Hw & Hr) E. unfold workoutKey in E.
  apply (separableText_split _ _ _ _ Hd) in E as [Ed E].
  apply (separableText_split _ _ _ _ He) in E as [Ee E].
  apply (separableText_split _ _ _ _ Hw) in E as [Ew E].
  apply (separableText_split _ _ _ _ Hr) in E as [Er E].
  repeat split; assumption.
Qed.

Lemma workoutKey_sameSet (w1 w2 : WorkoutEntry) :
  (forall x y, numToString x = numToString y <-> x == y) ->
  complete w1 -> complete w2 -> separable numToString w1 w2 ->
  key w1 = key w2 <-> sameSet w1 w2.
Proof.
  intros Hnum ([a1 Ea1] & [r1 Er1] & [p1 Ep1]) ([a2 Ea2] & [r2 Er2] & [p2 Ep2]) Hsep.
  unfold sameSet. split.
  - intros E. destruct (workoutKey_fields w1 w2 Hsep E) as (Hd & He & Hw & Hr & Hp).
    rewrite Ea1, Ea2, Er1, Er2, Ep1, Ep2 in *. cbn in *.
    repeat split; try assumption; apply Hnum; assumption.
  - intros (Hd & He & Hw & Hr & Hp). unfold workoutKey.
    rewrite Ea1, Ea2, Er1, Er2, Ep1, Ep2 in *. cbn in *.
    apply Hnum in Hw, Hr, Hp. rewrite Hd, He, Hw, Hr, Hp. reflexivity.
Qed.

Lemma workoutKey_seen_before (workouts : list WorkoutEntry) (w : WorkoutEntry) :
  (forall x y, numToString x = numToString y <-> x == y) ->
  complete w ->
  (forall w', w' ∈ workouts -> complete w' /\ separable numToString w' w) ->
  key w ∈ key <$> workouts <-> exists w', w' ∈ workouts /\ sameSet w' w.
Proof.
  intros Hnum Hw Hall. split.
  - intros Hin. apply list_elem_of_fmap in Hin as [w' [E Hw']].
    exists w'. split; [exact Hw' |].
    destruct (Hall w' Hw') as [Hc Hsep].
    apply (workoutKey_sameSet w' w Hnum Hc Hw Hsep). symmetry. exact E.
  - intros [w' [Hw' Hsame]].
    destruct (Hall w' Hw') as [Hc Hsep].
    apply (workoutKey_sameSet w' w Hnum Hc Hw Hsep) in Hsame.
    rewrite <- Hsame. apply list_elem_of_fmap_2, Hw'.
Qed.

(** C9, amended: [deduplicateWorkouts] is idempotent.  Its output keeps
    the order of the input, and an entry is kept exactly when no earlier
    entry has its key, the text [date-exercise-weight-reps-rpe]: the
    output is a subsequence of the input, its keys are pairwise distinct
    and every key of the input is among them.  Merging entries whose
    keys are all present already adds nothing, for the list and for the
    whole state that an upload updates.  The key is made of the five
    fields alone.  Where number texts tell numbers apart, and among
    entries that carry weight, reps and RPE and whose fields can be read
    back from the key (equally long, or free of "-"), two entries have
    one key exactly when they agree on date, exercise, weight, reps and
    RPE, so that an entry is kept exactly when no earlier entry agrees
    with it on all five. *)
Theorem deduplicateWorkouts_keeps_first_occurrences :
  (forall workouts,
      deduplicateWorkouts numToString (deduplicateWorkouts numToString workouts)
      = deduplicateWorkouts numToString workouts)
  /\ deduplicateWorkouts numToString [] = []
  /\ (forall workouts w,
         deduplicateWorkouts numToString (workouts ++ [w])
         = deduplicateWorkouts numToString workouts
           ++ (if decide (workoutKey numToString w
                          ∈ workoutKey numToString <$> workouts)
               then [] else [w]))
  /\ (forall workouts,
         deduplicateWorkouts numToString workouts `sublist_of` workouts
         /\ NoDup (workoutKey numToString <$> deduplicateWorkouts numToString workouts)
         /\ (forall w, w ∈ workouts ->
                       workoutKey numToString w
                       ∈ workoutKey numToString <$> deduplicateWorkouts numToString workouts))
  /\ (forall prev new,
         Forall (fun w => workoutKey numToString w ∈ workoutKey numToString <$> prev)
           new ->
         deduplicateWorkouts numToString (prev ++ new)
         = deduplicateWorkouts numToString prev
         /\ (NoDup (workoutKey numToString <$> prev) ->
             deduplicateWorkouts numToString (prev ++ new) = prev))
  /\ (forall prev csvData,
         (forall c, NoDup (workoutKey numToString <$> entriesOf c prev)) ->
         (forall c, Forall (fun w => workoutKey numToString w
                                     ∈ workoutKey numToString <$> entriesOf c prev)
                      (rowsOf normalizeExercise today c csvData)) ->
         mergeUpload numToString normalizeExercise today prev csvData = prev)
  /\ (forall w1 w2,
         date w1 = date w2 -> exercise w1 = exercise w2 -> weight w1 = weight w2 ->
         reps w1 = reps w2 -> rpe w1 = rpe w2 ->
         workoutKey numToString w1 = workoutKey numToString w2)
  /\ ((forall x y, numToString x = numToString y <-> x == y) ->
      (forall w1 w2,
          complete w1 -> complete w2 -> separable numToString w1 w2 ->
          workoutKey numToString w1 = workoutKey numToString w2 <-> sameSet w1 w2)
      /\ (forall workouts w,
             complete w ->
             (forall w', w' ∈ workouts -> complete w' /\ separable numToString w' w) ->
             deduplicateWorkouts numToString (workouts ++ [w])
             = deduplicateWorkouts numToString workouts ++ [w]
             <-> ~ exists w', w' ∈ workouts /\ sameSet w' w)).
Proof.
  split; [exact deduplicateWorkouts_idempotent |].
  split; [reflexivity |].
  split; [exact deduplicateWorkouts_snoc |].
  split.
  { intros workouts. split; [apply filterUnseen_sublist |].
    split; [apply (filterUnseen_fresh workouts ∅) |].
    intros w Hw. destruct (filterUnseen_covers workouts ∅ w Hw) as [Hemp | Hkept];
      [set_solver | exact Hkept]. }
  split.
  { intros prev new Hpresent.
    rewrite (deduplicateWorkouts_merge_present prev new Hpresent).
    split; [reflexivity |].
    intros Hnd. apply filterUnseen_id; [exact Hnd | set_solver]. }
  split; [exact mergeUpload_present |].
  split.
  { intros w1 w2 Hd He Hw Hr Hp. unfold workoutKey.
    rewrite Hd, He, Hw, Hr, Hp. reflexivity. }
  intros Hnum. split.
  { intros w1 w2 H1 H2 Hsep. apply workoutKey_sameSet; assumption. }
  intros workouts w Hw Hall.
  rewrite deduplicateWorkouts_snoc.
  rewrite <- (workoutKey_seen_before workouts w Hnum Hw Hall).
  destruct (decide (key w ∈ key <$> workouts)) as [Hin | Hnew].
  - split; [| intros Hno; contradiction].
    intros E. apply (f_equal length) in E.
    rewrite app_nil_r, length_app in E. cbn in E. lia.
  - split; [intros _; exact Hnew | reflexivity].
Qed.

End Deduplication.

(** C9, as stated, fails: the key is the text that joins the five
    fields with "-", and a "-" inside a field moves the joints.  Two
    entries that differ in date and in exercise have one key, whatever
    text numbers are given, and the second of them is dropped. *)
Lemma deduplicateWorkouts_drops_a_distinct_entry :
  date splitDateA <> date splitDateB
  /\ exercise splitDateA <> exercise splitDateB
  /\ forall numToString : Q -> string,
       workoutKey numToString splitDateA = workoutKey numToString splitDateB
       /\ deduplicateWorkouts numToString [splitDateA; splitDateB] = [splitDateA].
Proof.
  split; [discriminate |]. split; [discriminate |].
  intros f. split; [reflexivity |].
  unfold deduplicateWorkouts. cbn [filterUnseen].
  rewrite decide_False by set_solver.
  change (workoutKey f splitDateB) with (workoutKey f splitDateA).
  rewrite decide_True by set_solver. reflexivity.
Qed.

(** A re-upload of [calfHistory] adds nothing, and a set of 3 at 140 kg
    is kept next to a set of 5 at 100 kg of the same day and exercise. *)
Lemma deduplicateWorkouts_keeps_first_occurrences_witness :
  deduplicateWorkouts showNumber (calfHistory ++ calfHistory) = calfHistory
  /\ deduplicateWorkouts showNumber
       ([loggedSet "2025-01-06" "Squat" 1 5 100 8]
        ++ [loggedSet "2025-01-06" "Squat" 1 3 140 8])
     = deduplicateWorkouts showNumber [loggedSet "2025-01-06" "Squat" 1 5 100 8]
       ++ [loggedSet "2025-01-06" "Squat" 1 3 140 8].
Proof.
  destruct (deduplicateWorkouts_keeps_first_occurrences showNumber (fun s => s)
              "06/01/2025")
    as (_ & _ & _ & _ & Hmerge & _ & _ & Hfields).
  split.
  - destruct (Hmerge calfHistory calfHistory) as [_ Hsame].
    + apply (bool_decide_unpack _). vm_compute. exact I.
    + apply Hsame. apply (bool_decide_unpack _). vm_compute. exact I.
  - destruct (Hfields showNumber_tells_apart) as [_ Hkept].
    apply Hkept.
    + repeat split; eexists; reflexivity.
    + intros w' Hw'. apply list_elem_of_singleton in Hw' as ->.
      split; [repeat split; eexists; reflexivity |].
      repeat split;
        first [left; vm_compute; reflexivity | right; split; vm_compute; reflexivity].
    + intros (w' & Hw' & Hsame). apply list_elem_of_singleton in Hw' as ->.
      destruct Hsame as (_ & _ & Hweight & _). vm_compute in Hweight.
      discriminate Hweight.
Defined.

(* ================================================================== *)
(** * Part III: further properties of the code                         *)
(* ================================================================== *)

(** ** The further functions on concrete inputs *)

Example norm_samples :
  List.map norm ["Exercise Title"; "weight_kg"; "Weight (kg)"; "fat%"]%string
  = ["exercise_title"; "weight_kg"; "weight_kg_"; "fat_"]%string.
Proof. reflexivity. Qed.

Example detectCsvType_samples :
  (detectCsvType ["title"; "start_time"; "exercise_title"; "weight_kg"; "reps"]%string,
   detectCsvType ["date"; "chest_in"; "waist_in"]%string,
   detectCsvType ["Date"; "Steps"]%string,
   detectCsvType ["movement"; "load"]%string,
   detectCsvType ["name"; "colour"]%string)
  = (HEVY_WORKOUTS, HEVY_MEASUREMENTS, STEPS, GENERIC_WORKOUTS, UNKNOWN).
Proof. reflexivity. Qed.

Example levelFor_samples :
  List.map (levelFor 8) [0; 1; 2; 3; 4; 5; 6; 7; 8]%Z = [0; 1; 2; 2; 3; 3; 4; 4; 4]%Z.
Proof. reflexivity. Qed.

Example weekOfMonth_samples :
  List.map (fun d => weekOfMonth d 0) [1; 2; 8; 9; 31]%Z = [1; 2; 2; 3; 6]%Z.
Proof. reflexivity. Qed.

Example trainingStreak_samples :
  (trainingStreak [0; 3 * DAY_MS; 20 * DAY_MS; 25 * DAY_MS]%Z, trainingStreak [])
  = (2%nat, 0%nat).
Proof. reflexivity. Qed.

Example availableRanges_samples :
  (availableRanges 0, availableRanges 45, availableRanges 400)
  = ([ALL], [R1W; R1M; ALL], [R1W; R1M; R3M; R6M; R1Y; ALL]).
Proof. reflexivity. Qed.

Example volumeDropWarning_sample :
  volumeDropWarning dropSeries = Some (WarnDrop (roundFixed 0 (- (50)))).
Proof. vm_compute. reflexivity. Qed.

Example weeklyVolumeSeries_sample :
  List.map (fun p => (ts p, Qred (volume p), Qred (avgRPE p)))
    (weeklyVolumeSeries
       (fun d => if String.eqb d "2025-01-06" then 100%Z else 50%Z)
       (calfHistory ++ [loggedSet "2024-12-30" "Squat" 1 5 (201 # 2) (17 # 2)]))
  = [(50%Z, 503, 17 # 2); (100%Z, 800, 8)].
Proof. vm_compute. reflexivity. Qed.

Example weeklyStepsOf_sample : weeklyStepsOf [Some 7000; None; Some 7001]%Z = 2000%Z.
Proof. reflexivity. Qed.

(** ** More on the muscle-group distribution *)

Lemma insertDesc_sorted a l :
  StronglySorted noSmallerThan l -> StronglySorted noSmallerThan (insertDesc a l).
Proof.
  induction l as [| b l IH]; intros Hs; simpl.
  - constructor; constructor.
  - apply StronglySorted_inv in Hs as [Hl Hb].
    destruct (Qle_bool (value b - value a) 0) eqn:E.
    + apply Qle_bool_iff in E.
      constructor; [constructor; assumption |].
      constructor; [unfold noSmallerThan; lra |].
      eapply List.Forall_impl; [| exact Hb].
      unfold noSmallerThan. intros x Hx. lra.
    + assert (~ value b - value a <= 0) as Hlt
          by (rewrite <- Qle_bool_iff; congruence).
      constructor; [apply IH, Hl |].
      apply (Permutation_Forall (Permutation_sym (insertDesc_Permutation a l))).
      constructor; [unfold noSmallerThan; lra | exact Hb].
Qed.

Lemma sortDesc_sorted l : StronglySorted noSmallerThan (sortDesc l).
Proof.
  induction l as [| a l IH]; simpl; [constructor |].
  apply insertDesc_sorted, IH.
Qed.

Lemma StronglySorted_map {A B} (R : B -> B -> Prop) (f : A -> B) (l : list A) :
  StronglySorted (fun x y => R (f x) (f y)) l -> StronglySorted R (List.map f l).
Proof.
  induction 1 as [| x l _ IH Hx]; simpl; constructor; [exact IH |].
  apply List.Forall_forall. intros y Hy. apply in_map_iff in Hy as [z [<- Hz]].
  rewrite List.Forall_forall in Hx. apply Hx, Hz.
Qed.

(** X1: the distribution lists the groups by volume, largest first: no
    entry has a larger volume than an entry before it. *)
Theorem distribution_sorted_by_volume overrides (arr : list WorkoutEntry) :
  StronglySorted (fun a b => value (item b) <= value (item a))
    (muscleGroupTonnage overrides arr).
Proof.
  unfold muscleGroupTonnage. apply StronglySorted_map. cbn [item].
  apply sortDesc_sorted.
Qed.

Lemma filter_map_swap {A B} (P : B -> bool) (f : A -> B) (l : list A) :
  List.filter P (List.map f l) = List.map f (List.filter (fun x => P (f x)) l).
Proof.
  induction l as [| x l IH]; simpl; [reflexivity |].
  destruct (P (f x)); simpl; rewrite IH; reflexivity.
Qed.

Lemma MUSCLE_GROUPS_NoDup : List.NoDup MUSCLE_GROUPS.
Proof.
  apply NoDup_ListNoDup. apply (bool_decide_unpack _). vm_compute. exact I.
Qed.

Lemma pieItems_names map :
  Permutation (List.map name (pieItems map))
    (List.filter (fun g => negb (Qle_bool (groupTotal map g) 0)) MUSCLE_GROUPS).
Proof.
  unfold pieItems.
  rewrite (Permutation_map name (sortDesc_Permutation _)).
  rewrite filter_map_swap, List.map_map. cbn [name value].
  rewrite List.map_id. reflexivity.
Qed.

Lemma pieItems_positive map x : In x (pieItems map) -> 0 < value x.
Proof. intros Hin. apply in_pieItems in Hin as [g [-> Hpos]]. exact Hpos. Qed.

(** X2: the distribution has at most one entry per muscle group, and
    every entry has a positive volume. *)
Theorem distribution_entries_distinct_positive overrides (arr : list WorkoutEntry) :
  NoDup (List.map (fun sl => name (item sl)) (muscleGroupTonnage overrides arr))
  /\ (forall sl, In sl (muscleGroupTonnage overrides arr) -> 0 < value (item sl)).
Proof.
  split.
  - unfold muscleGroupTonnage. rewrite List.map_map. cbn [item].
    change (fun x : PieItem => name x) with name. apply NoDup_ListNoDup.
    apply (Permutation_NoDup
             (Permutation_sym (pieItems_names (accumulateTonnage overrides arr)))).
    apply List.NoDup_filter, MUSCLE_GROUPS_NoDup.
  - intros sl Hin. apply in_muscleGroupTonnage in Hin.
    apply (pieItems_positive _ _ Hin).
Qed.

Lemma value_le_sumOf (l : list PieItem) :
  (forall x, In x l -> 0 < value x) ->
  0 <= sumOf value l /\ (forall x, In x l -> value x <= sumOf value l).
Proof.
  induction l as [| y l IH]; intros Hpos; simpl.
  - split; [lra | intros x []].
  - change (fold_right (fun x s => value x + s) 0 l) with (sumOf value l).
    destruct IH as [Hsum Hle]; [intros x Hx; apply Hpos; right; exact Hx |].
    assert (0 < value y) by (apply Hpos; left; reflexivity).
    split; [lra |].
    intros x [<- | Hx]; [lra |]. specialize (Hle x Hx). lra.
Qed.

Lemma roundFixed1_percent_range (x : Q) :
  0 <= x -> x <= 100 -> 0 <= roundFixed1 x /\ roundFixed1 x <= 100.
Proof.
  intros H0 H100. unfold roundFixed1, fixed1.
  destruct (Qlt_le_dec x 0) as [Hneg | _]; [lra |].
  unfold nearestTenths.
  assert (0 <= Qfloor (x * 10 + (1 # 2)))%Z as Hlo.
  { change 0%Z with (Qfloor 0). apply Qfloor_resp_le. lra. }
  assert (Qfloor (x * 10 + (1 # 2)) <= 1000)%Z as Hhi.
  { change 1000%Z with (Qfloor (1000 + (1 # 2))). apply Qfloor_resp_le. lra. }
  rewrite Zle_Qle in Hlo, Hhi.
  generalize dependent (inject_Z (Qfloor (x * 10 + (1 # 2)))). intros n Hlo Hhi.
  change (inject_Z 0) with 0 in Hlo. change (inject_Z 1000) with 1000 in Hhi.
  unfold Qdiv. change (/ 10) with (1 # 10). split; lra.
Qed.

(** X3: every entry of the distribution carries the same total, the sum
    of the entries' volumes, and a percentage between 0 and 100. *)
Theorem distribution_total_and_percent_range overrides (arr : list WorkoutEntry) :
  forall sl, In sl (muscleGroupTonnage overrides arr) ->
    total sl == sumOf (fun s => value (item s)) (muscleGroupTonnage overrides arr)
    /\ 0 <= pct sl /\ pct sl <= 100.
Proof.
  intros sl Hin. unfold muscleGroupTonnage in *.
  set (items := pieItems (accumulateTonnage overrides arr)) in *.
  apply in_map_iff in Hin as [x [<- Hx]]. cbn [total pct].
  rewrite sumOf_map. cbn [item].
  split; [apply itemsTotal_sumOf |].
  destruct (Qeq_bool (itemsTotal items) 0) eqn:E; [split; lra |].
  apply Qeq_bool_neq in E.
  destruct (value_le_sumOf items) as [Hsum Hle];
    [intros y Hy; apply (pieItems_positive _ _ Hy) |].
  specialize (Hle x Hx).
  pose proof (pieItems_positive _ _ Hx) as Hpos.
  rewrite <- itemsTotal_sumOf in Hsum, Hle.
  assert (0 < itemsTotal items) as Htot by lra.
  apply roundFixed1_percent_range.
  - apply Qmult_le_0_compat; [| lra].
    apply Qle_shift_div_l; [exact Htot | lra].
  - assert (value x / itemsTotal items <= 1) as Hratio
        by (apply Qle_shift_div_r; [exact Htot | lra]).
    lra.
Qed.

(** X4: the slice taken for the pie chart never drops an entry: the
    chart shows the whole distribution. *)
Theorem pie_data_is_whole_distribution overrides (arr : list WorkoutEntry) :
  muscleGroupPieData overrides arr = muscleGroupTonnage overrides arr.
Proof.
  unfold muscleGroupPieData. apply firstn_all2.
  unfold muscleGroupTonnage. rewrite length_map. apply pieItems_length.
Qed.

Lemma sumOf_nonpositive {A} (f : A -> Q) (l : list A) :
  (forall x, In x l -> f x <= 0) -> sumOf f l <= 0.
Proof.
  induction l as [| x l IH]; intros Hle; simpl; [lra |].
  change (fold_right (fun x s => f x + s) 0 l) with (sumOf f l).
  assert (f x <= 0) by (apply Hle; left; reflexivity).
  assert (sumOf f l <= 0) by (apply IH; intros y Hy; apply Hle; right; exact Hy).
  lra.
Qed.

Lemma sumOf_nonnegative {A} (f : A -> Q) (l : list A) :
  (forall x, In x l -> 0 <= f x) -> 0 <= sumOf f l.
Proof.
  induction l as [| x l IH]; intros Hle; simpl; [lra |].
  change (fold_right (fun x s => f x + s) 0 l) with (sumOf f l).
  assert (0 <= f x) by (apply Hle; left; reflexivity).
  assert (0 <= sumOf f l) by (apply IH; intros y Hy; apply Hle; right; exact Hy).
  lra.
Qed.

(** X5: a history in which no entry has a positive tonnage, the empty
    history included, has an empty distribution. *)
Theorem distribution_empty_without_volume overrides (arr : list WorkoutEntry) :
  (forall w, In w arr -> tonnage w <= 0) -> muscleGroupTonnage overrides arr = [].
Proof.
  intros Hzero.
  destruct (muscleGroupTonnage overrides arr) as [| sl rest] eqn:E; [reflexivity |].
  exfalso.
  destruct (distribution_entry overrides arr (name (item sl))) as [_ [Hpos _]].
  assert (0 < groupVolume overrides arr (name (item sl))) as Hgt.
  { apply Hpos. exists sl. rewrite E. split; [left; reflexivity | reflexivity]. }
  assert (groupVolume overrides arr (name (item sl)) <= 0); [| lra].
  unfold groupVolume. apply sumOf_nonpositive.
  intros w Hw. apply filter_In in Hw as [Hw _]. apply Hzero, Hw.
Qed.

Lemma distribution_empty_without_volume_witness :
  muscleGroupTonnage ∅ [noReps] = [].
Proof.
  apply distribution_empty_without_volume.
  intros w [<- | []]. vm_compute. discriminate.
Defined.

Lemma roundFixed1_tenths (x : Q) : exists tenths : Z, roundFixed1 x == inject_Z tenths / 10.
Proof.
  unfold roundFixed1, fixed1. destruct (Qlt_le_dec x 0) as [_ | _].
  - exists (- nearestTenths (- x))%Z. rewrite inject_Z_opp.
    unfold Qdiv. ring.
  - exists (nearestTenths x). reflexivity.
Qed.

(** X6: whenever the distribution has an entry, its total is positive,
    every percentage is a whole number of tenths within 0.05 of the
    entry's share of the total, and the percentages sum to 100 within
    0.05 per entry. *)
Theorem distribution_percentages overrides (arr : list WorkoutEntry) :
  let slices := muscleGroupTonnage overrides arr in
  slices <> [] ->
  (forall sl, In sl slices ->
     0 < total sl
     /\ (exists tenths : Z, pct sl == inject_Z tenths / 10)
     /\ value (item sl) / total sl * 100 - (1 # 20) <= pct sl
     /\ pct sl <= value (item sl) / total sl * 100 + (1 # 20))
  /\ 100 - inject_Z (Z.of_nat (length slices)) * (1 # 20) <= sumOf pct slices
  /\ sumOf pct slices <= 100 + inject_Z (Z.of_nat (length slices)) * (1 # 20).
Proof.
  intros slices Hne.
  set (items := pieItems (accumulateTonnage overrides arr)) in *.
  assert (0 < itemsTotal items) as Hpos.
  { destruct items as [| x rest] eqn:E; [exfalso; apply Hne; subst slices;
      unfold muscleGroupTonnage; fold items; rewrite E; reflexivity |].
    destruct (value_le_sumOf (x :: rest)) as [_ Hle].
    - intros y Hy. rewrite <- E in Hy. apply (pieItems_positive _ _ Hy).
    - assert (0 < value x) as Hx.
      { apply (pieItems_positive (accumulateTonnage overrides arr)).
        fold items. rewrite E. left. reflexivity. }
      specialize (Hle x (or_introl eq_refl)).
      rewrite itemsTotal_sumOf. lra. }
  assert (slices
          = List.map
              (fun x => mkPieSlice x (roundFixed1 (value x / itemsTotal items * 100))
                          (itemsTotal items))
              items) as Hslices
    by (apply muscleGroupTonnage_positive_total; exact Hpos).
  rewrite Hslices. clear Hslices Hne slices.
  split; [| rewrite length_map, sumOf_map; cbn [pct]].
  - intros sl Hin. apply in_map_iff in Hin as [x [<- _]]. cbn [total pct item].
    split; [exact Hpos |]. split; [apply roundFixed1_tenths |].
    apply roundFixed1_bounds.
  - assert (sumOf (fun x => value x / itemsTotal items * 100) items == 100) as Hexact.
    { rewrite (sumOf_ext _ (fun x => value x * (/ itemsTotal items * 100)))
        by (intros x; unfold Qdiv; ring).
      rewrite sumOf_scale, <- itemsTotal_sumOf. field. lra. }
    destruct (sumOf_rounded_bounds (fun x => value x / itemsTotal items * 100) items)
      as [Hlo Hhi].
    rewrite Hexact in Hlo, Hhi. split; assumption.
Qed.

Lemma calfHistory_distribution_nonempty :
  exists sl rest, muscleGroupTonnage ∅ calfHistory = sl :: rest.
Proof. vm_compute. eauto. Qed.

Lemma distribution_percentages_witness :
  100 - (2 # 20) <= sumOf pct (muscleGroupTonnage ∅ calfHistory)
  /\ sumOf pct (muscleGroupTonnage ∅ calfHistory) <= 100 + (2 # 20).
Proof.
  destruct (distribution_percentages ∅ calfHistory) as [_ Hsum];
    [vm_compute; discriminate |].
  exact Hsum.
Defined.

Lemma distribution_entries_distinct_positive_witness :
  exists sl, In sl (muscleGroupTonnage ∅ calfHistory) /\ 0 < value (item sl).
Proof.
  destruct calfHistory_distribution_nonempty as (sl & rest & E).
  assert (In sl (muscleGroupTonnage ∅ calfHistory)) as Hin
      by (rewrite E; left; reflexivity).
  exists sl. split; [exact Hin |].
  apply (distribution_entries_distinct_positive ∅ calfHistory), Hin.
Defined.

Lemma distribution_total_and_percent_range_witness :
  exists sl, In sl (muscleGroupTonnage ∅ calfHistory) /\ 0 <= pct sl /\ pct sl <= 100.
Proof.
  destruct calfHistory_distribution_nonempty as (sl & rest & E).
  assert (In sl (muscleGroupTonnage ∅ calfHistory)) as Hin
      by (rewrite E; left; reflexivity).
  exists sl. split; [exact Hin |].
  apply (distribution_total_and_percent_range ∅ calfHistory sl Hin).
Defined.

(** ** Editing the overrides *)

(** X7: saving an override for a named exercise makes that exercise
    count for the chosen group and leaves every other exercise where it
    was; saving with an empty exercise name changes nothing. *)
Theorem saveOverride_moves_one_exercise (prev : gmap string MuscleGroup)
    (e : string) (g : MuscleGroup) :
  (e <> ""%string ->
   inferMuscleGroup (saveOverride prev e g) e = g
   /\ forall e', e' <> e ->
        inferMuscleGroup (saveOverride prev e g) e' = inferMuscleGroup prev e')
  /\ saveOverride prev "" g = prev.
Proof.
  split; [| reflexivity].
  intros Hne. unfold saveOverride.
  destruct (String.eqb e "") eqn:E; [apply String.eqb_eq in E; contradiction |].
  unfold inferMuscleGroup. split.
  - rewrite lookup_insert_eq. reflexivity.
  - intros e' He'. rewrite lookup_insert_ne by congruence. reflexivity.
Qed.

Lemma saveOverride_moves_one_exercise_witness :
  inferMuscleGroup (saveOverride ∅ "Squat" Arms) "Squat" = Arms
  /\ inferMuscleGroup (saveOverride ∅ "Squat" Arms) "Bench Press" = Chest.
Proof.
  destruct (saveOverride_moves_one_exercise ∅ "Squat" Arms) as [Hsave _].
  destruct Hsave as [Hself Hother]; [discriminate |].
  split; [exact Hself |].
  rewrite Hother by discriminate. reflexivity.
Defined.

(** X8: after removing an override the exercise is looked up as in an
    empty override map: the keyword rules decide, unless its name is
    that of a member of [Object.prototype], which the lookup then
    returns.  No other exercise is touched, and removing an override
    that was saved for an exercise without one restores the map as it
    was. *)
Theorem removeOverride_undoes_override (prev : gmap string MuscleGroup)
    (e : string) (g : MuscleGroup) :
  inferMuscleGroup (removeOverride prev e) e = inferMuscleGroup ∅ e
  /\ (e ∉ OBJECT_PROTOTYPE ->
      inferMuscleGroup (removeOverride prev e) e = keywordGroup e)
  /\ (e ∈ OBJECT_PROTOTYPE ->
      inferMuscleGroup (removeOverride prev e) e = Inherited e)
  /\ (forall e', e' <> e ->
        inferMuscleGroup (removeOverride prev e) e' = inferMuscleGroup prev e')
  /\ (e <> ""%string -> prev !! e = None ->
      removeOverride (saveOverride prev e g) e = prev).
Proof.
  unfold removeOverride, inferMuscleGroup. repeat split.
  - rewrite lookup_delete_eq, lookup_empty. reflexivity.
  - intros Hout. rewrite lookup_delete_eq, bool_decide_eq_false_2 by exact Hout.
    reflexivity.
  - intros Hin. rewrite lookup_delete_eq, bool_decide_eq_true_2 by exact Hin.
    reflexivity.
  - intros e' He'. rewrite lookup_delete_ne by congruence. reflexivity.
  - intros Hne Hfresh. unfold saveOverride.
    destruct (String.eqb e "") eqn:E; [apply String.eqb_eq in E; contradiction |].
    rewrite delete_insert_eq. apply delete_id, Hfresh.
Qed.

Lemma removeOverride_undoes_override_witness :
  inferMuscleGroup (removeOverride (saveOverride ∅ "Squat" Arms) "Squat") "Squat" = Legs
  /\ inferMuscleGroup (removeOverride (saveOverride ∅ "valueOf" Arms) "valueOf") "valueOf"
     = Inherited "valueOf"
  /\ removeOverride (saveOverride ∅ "Squat" Arms) "Squat" = ∅.
Proof.
  destruct (removeOverride_undoes_override (saveOverride ∅ "Squat" Arms) "Squat" Arms)
    as (_ & Hrules & _).
  destruct (removeOverride_undoes_override (saveOverride ∅ "valueOf" Arms) "valueOf" Arms)
    as (_ & _ & Hmember & _).
  destruct (removeOverride_undoes_override ∅ "Squat" Arms) as (_ & _ & _ & _ & Hround).
  split; [| split].
  - rewrite Hrules; [reflexivity |]. apply (bool_decide_unpack _). vm_compute. exact I.
  - apply Hmember. apply (bool_decide_unpack _). vm_compute. exact I.
  - apply Hround; [discriminate | apply lookup_empty].
Defined.

(** ** Keyword rules and letter case *)

Lemma lowerAscii_idempotent (c : ascii) : lowerAscii (lowerAscii c) = lowerAscii c.
Proof. destruct c as [[] [] [] [] [] [] [] []]; reflexivity. Qed.

Lemma toLowerCase_idempotent (s : string) : toLowerCase (toLowerCase s) = toLowerCase s.
Proof.
  induction s as [| c s IH]; simpl; [reflexivity |].
  rewrite lowerAscii_idempotent, IH. reflexivity.
Qed.

(** ** More on uploads *)

Section UploadProps.

#[local] Set Warnings "-clear-no-such-hyp".

Variable numToString : Q -> string.
Variable normalizeExercise : string -> string.
Variable today : string.

Abbreviation wkey := (workoutKey numToString).
Abbreviation dedupe := (deduplicateWorkouts numToString).
Abbreviation entriesFrom := (rowsOf normalizeExercise today).

Lemma deduplicateWorkouts_absorbs (p n : list WorkoutEntry) :
  dedupe (dedupe (p ++ n) ++ n) = dedupe (p ++ n).
Proof.
  rewrite (deduplicateWorkouts_merge_present numToString normalizeExercise today
             (dedupe (p ++ n)) n).
  - apply (deduplicateWorkouts_idempotent numToString normalizeExercise today).
  - apply List.Forall_forall. intros w Hw.
    destruct (filterUnseen_covers numToString (p ++ n) ∅ w) as [Hemp | Hkept].
    + apply elem_of_app. right. apply list_elem_of_In. exact Hw.
    + set_solver.
    + exact Hkept.
Qed.

Lemma rowsOf_dated (day day' : string) (c : WorkoutCategory) (csvData : list HevyRow) :
  Forall (fun row => row_date row <> ""%string) csvData ->
  rowsOf normalizeExercise day' c csvData = rowsOf normalizeExercise day c csvData.
Proof.
  intros Hdated. unfold rowsOf. apply map_ext_in. intros row Hrow.
  apply filter_In in Hrow as [Hrow _].
  rewrite List.Forall_forall in Hdated. specialize (Hdated row Hrow).
  unfold workoutOfRow.
  destruct (String.eqb (row_date row) "") eqn:E;
    [apply String.eqb_eq in E; contradiction | reflexivity].
Qed.

(** X9: uploading the same file a second time changes nothing when the
    second upload happens on the day of the first, or when every row of
    the file carries a date; a row without a date is stamped with the
    day of its upload. *)
Theorem upload_twice_is_upload_once (laterDay : string) (prev : WorkoutsState)
    (csvData : list HevyRow) :
  laterDay = today \/ Forall (fun row => row_date row <> ""%string) csvData ->
  mergeUpload numToString normalizeExercise laterDay
    (mergeUpload numToString normalizeExercise today prev csvData) csvData
  = mergeUpload numToString normalizeExercise today prev csvData.
Proof.
  intros Hsame.
  assert (forall c, rowsOf normalizeExercise laterDay c csvData
                    = rowsOf normalizeExercise today c csvData) as Hrows.
  { intros c. destruct Hsame as [-> | Hdated]; [reflexivity |].
    apply rowsOf_dated, Hdated. }
  unfold mergeUpload. cbn [push pull legs conditioning].
  rewrite !Hrows, !deduplicateWorkouts_absorbs. reflexivity.
Qed.

(** X10: an upload keeps the stored entries of a category whose keys are
    pairwise distinct, in place and in order; what it appends comes from
    the file's rows of that category, in their order, and has keys the
    category did not hold. *)
Theorem upload_keeps_stored_entries (prev : WorkoutsState) (csvData : list HevyRow)
    (c : WorkoutCategory) :
  NoDup (workoutKey numToString <$> entriesOf c prev) ->
  exists added,
    entriesOf c (mergeUpload numToString normalizeExercise today prev csvData)
    = entriesOf c prev ++ added
    /\ added `sublist_of` rowsOf normalizeExercise today c csvData
    /\ forall w, w ∈ added ->
         workoutKey numToString w ∉ workoutKey numToString <$> entriesOf c prev.
Proof.
  intros Hnd.
  exists (filterUnseen numToString (∅ ∪ list_to_set (wkey <$> entriesOf c prev))
            (entriesFrom c csvData)).
  split; [| split].
  - assert (forall p n, NoDup (wkey <$> p) ->
              dedupe (p ++ n)
              = p ++ filterUnseen numToString (∅ ∪ list_to_set (wkey <$> p)) n) as Hsplit.
    { intros p n Hp. unfold deduplicateWorkouts.
      rewrite (filterUnseen_app numToString normalizeExercise). f_equal.
      apply (filterUnseen_id numToString normalizeExercise today);
        [exact Hp | set_solver]. }
    destruct c; cbn [entriesOf mergeUpload push pull legs conditioning] in *;
      apply Hsplit, Hnd.
  - apply filterUnseen_sublist.
  - intros w Hw.
    destruct (filterUnseen_fresh numToString normalizeExercise today
                (entriesFrom c csvData)
                (∅ ∪ list_to_set (wkey <$> entriesOf c prev))) as [_ Hfresh].
    destruct (Hfresh w Hw) as [Hnot _]. set_solver.
Qed.

(** X11: every row of an uploaded file is filed under exactly one
    category. *)
Theorem upload_files_each_row_once (csvData : list HevyRow) :
  (length (rowsOf normalizeExercise today CatPush csvData)
   + length (rowsOf normalizeExercise today CatPull csvData)
   + length (rowsOf normalizeExercise today CatLegs csvData)
   + length (rowsOf normalizeExercise today CatConditioning csvData)
   = length csvData)%nat.
Proof.
  unfold rowsOf. rewrite !length_map.
  induction csvData as [| row rows IH]; [reflexivity |].
  cbn [List.filter].
  destruct (categoryOf (row_title row)); cbn [bool_decide decide_rel length];
    repeat match goal with
           | |- context [bool_decide ?P] =>
               first [rewrite (bool_decide_eq_true_2 P) by reflexivity
                     | rewrite (bool_decide_eq_false_2 P) by discriminate]
           end; cbn [length]; lia.
Qed.

(** X12: the entry built from an uploaded row never has a zero sets
    count, and for a row without a sets cell its tonnage is reps times
    weight. *)
Theorem uploaded_row_tonnage (row : HevyRow) :
  let w := workoutOfRow normalizeExercise today row in
  (exists s, sets w = Some s /\ ~ s == 0)
  /\ (row_sets row = None ->
      tonnage w == default 0 (row_reps row) * default 0 (row_weight row)).
Proof.
  intros w. split.
  - cbn [w workoutOfRow sets].
    destruct (row_sets row) as [s |].
    + destruct (Qeq_bool s 0) eqn:E; eexists; (split; [reflexivity |]).
      * intros H. discriminate H.
      * apply Qeq_bool_neq, E.
    + eexists. split; [reflexivity |]. intros H. discriminate H.
  - intros Hsets. rewrite tonnage_productVolume. unfold productVolume.
    cbn [w workoutOfRow sets reps weight]. rewrite Hsets. ring.
Qed.

End UploadProps.

(** A row without a date, uploaded on two days, is stored twice. *)
Example upload_on_two_days :
  List.map date
    (legs (mergeUpload showWhole (fun s => s) "07/01/2025"
             (mergeUpload showWhole (fun s => s) "06/01/2025"
                (mkWorkoutsState [] [] [] [])
                [mkHevyRow "Legs Day" "Leg Press" (Some 10) (Some 150) None (Some 9) "" ""])
             [mkHevyRow "Legs Day" "Leg Press" (Some 10) (Some 150) None (Some 9) "" ""]))
  = ["06/01/2025"; "07/01/2025"]%string.
Proof. vm_compute. reflexivity. Qed.

Lemma upload_twice_is_upload_once_witness :
  mergeUpload showWhole (fun s => s) "07/01/2025"
    (mergeUpload showWhole (fun s => s) "06/01/2025"
       (mkWorkoutsState [] [] calfHistory [])
       [mkHevyRow "Legs Day" "Leg Press" (Some 10) (Some 150) None (Some 9)
          "2025-01-08" ""])
    [mkHevyRow "Legs Day" "Leg Press" (Some 10) (Some 150) None (Some 9)
       "2025-01-08" ""]
  = mergeUpload showWhole (fun s => s) "06/01/2025"
      (mkWorkoutsState [] [] calfHistory [])
      [mkHevyRow "Legs Day" "Leg Press" (Some 10) (Some 150) None (Some 9)
         "2025-01-08" ""].
Proof.
  apply (upload_twice_is_upload_once showWhole (fun s => s) "06/01/2025" "07/01/2025").
  right. repeat constructor. discriminate.
Defined.

Lemma upload_keeps_stored_entries_witness :
  exists added,
    entriesOf CatLegs
      (mergeUpload showWhole (fun s => s) "06/01/2025"
         (mkWorkoutsState [] [] calfHistory [])
         [mkHevyRow "Legs Day" "Leg Press" (Some 10) (Some 150) None (Some 9)
            "2025-01-08" ""])
    = calfHistory ++ added.
Proof.
  destruct (upload_keeps_stored_entries showWhole (fun s => s) "06/01/2025"
              (mkWorkoutsState [] [] calfHistory [])
              [mkHevyRow "Legs Day" "Leg Press" (Some 10) (Some 150) None (Some 9)
                 "2025-01-08" ""] CatLegs) as (added & Heq & _).
  - apply (bool_decide_unpack _). vm_compute. exact I.
  - exists added. exact Heq.
Defined.

Lemma uploaded_row_tonnage_witness :
  tonnage
    (workoutOfRow (fun s => s) "06/01/2025"
       (mkHevyRow "Legs Day" "Leg Press" (Some 10) (Some 150) None (Some 9)
          "2025-01-08" ""))
  == 10 * 150.
Proof.
  destruct (uploaded_row_tonnage (fun s => s) "06/01/2025"
              (mkHevyRow "Legs Day" "Leg Press" (Some 10) (Some 150) None (Some 9)
                 "2025-01-08" "")) as [_ Hton].
  apply Hton. reflexivity.
Defined.

(** ** More on the one-rep max *)

(** X13: for a fixed number of reps the estimated one-rep max does not
    decrease when the weight grows, and for a weight that is not
    negative it is never below the weight lifted. *)
Theorem epley1RM_monotone_in_weight (r w1 w2 : Q) :
  (w1 <= w2 -> epley1RM w1 r <= epley1RM w2 r)
  /\ (0 <= w1 -> w1 <= epley1RM w1 r).
Proof.
  split; [| apply epley1RM_ge_weight].
  intros Hle. unfold epley1RM.
  destruct (Qlt_le_dec 0 r) as [Hr | _]; [| exact Hle].
  assert (0 <= (w2 - w1) * (1 + r / 30)) as Hprod.
  { apply Qmult_le_0_compat; [lra |].
    assert (0 <= r / 30) by (apply Qle_shift_div_l; lra). lra. }
  lra.
Qed.

Lemma epley1RM_monotone_in_weight_witness :
  epley1RM 100 5 <= epley1RM 110 5 /\ 100 <= epley1RM 100 5.
Proof.
  destruct (epley1RM_monotone_in_weight 5 100 110) as [Hmono Hge].
  split; [apply Hmono | apply Hge]; lra.
Defined.

(** ** Weekly volume *)

Lemma nearestScaled0_bounds (x : Q) :
  x - (1 # 2) <= inject_Z (nearestScaled 0 x) / inject_Z (10 ^ Z.of_nat 0)
  /\ inject_Z (nearestScaled 0 x) / inject_Z (10 ^ Z.of_nat 0) <= x + (1 # 2).
Proof.
  unfold nearestScaled. change (inject_Z (10 ^ Z.of_nat 0)) with 1.
  pose proof (Qfloor_le (x * 1 + (1 # 2))) as Hle.
  pose proof (Qlt_floor (x * 1 + (1 # 2))) as Hlt.
  rewrite inject_Z_plus in Hlt.
  set (n := inject_Z (Qfloor (x * 1 + (1 # 2)))) in *. clearbody n.
  change (inject_Z 1) with 1 in Hlt.
  unfold Qdiv. change (/ 1) with 1. split; lra.
Qed.

(** Rounding to a whole number moves a number by at most one half. *)
Lemma roundFixed0_bounds (x : Q) :
  x - (1 # 2) <= roundFixed 0 x /\ roundFixed 0 x <= x + (1 # 2).
Proof.
  unfold roundFixed.
  destruct (Qlt_le_dec x 0) as [Hneg | Hpos].
  - destruct (nearestScaled0_bounds (- x)) as [Hlo Hhi].
    generalize dependent (inject_Z (nearestScaled 0 (- x)) / inject_Z (10 ^ Z.of_nat 0)).
    intros; split; lra.
  - apply nearestScaled0_bounds.
Qed.

Lemma addToBucket_ts w b : bucket_ts (addToBucket w b) = bucket_ts b.
Proof. unfold addToBucket. destruct (positiveRpe w); reflexivity. Qed.

Lemma addToBucket_volume w b :
  bucket_volume (addToBucket w b) = bucket_volume b + tonnage w.
Proof. unfold addToBucket. destruct (positiveRpe w); reflexivity. Qed.

Lemma updateWeek_keys t w map :
  List.map bucket_ts (updateWeek t w map)
  = if in_dec Z.eq_dec t (List.map bucket_ts map)
    then List.map bucket_ts map
    else List.map bucket_ts map ++ [t].
Proof.
  induction map as [| b rest IH]; cbn [updateWeek List.map].
  - rewrite addToBucket_ts. reflexivity.
  - destruct (Z.eqb_spec (bucket_ts b) t) as [E | E].
    + cbn [List.map]. rewrite addToBucket_ts.
      destruct (in_dec Z.eq_dec t (bucket_ts b :: List.map bucket_ts rest)) as [_ | Hn];
        [reflexivity |].
      exfalso. apply Hn. left. exact E.
    + cbn [List.map]. rewrite IH.
      destruct (in_dec Z.eq_dec t (List.map bucket_ts rest)) as [Hin | Hnin];
        destruct (in_dec Z.eq_dec t (bucket_ts b :: List.map bucket_ts rest))
          as [Hin' | Hnin']; try reflexivity.
      * exfalso. apply Hnin'. right. exact Hin.
      * exfalso. destruct Hin' as [Hb | Hr]; [exact (E Hb) | exact (Hnin Hr)].
Qed.

Lemma updateWeek_volume t w map :
  sumOf bucket_volume (updateWeek t w map) == sumOf bucket_volume map + tonnage w.
Proof.
  unfold sumOf. induction map as [| b rest IH]; cbn [updateWeek].
  - cbn. rewrite addToBucket_volume. cbn. ring.
  - destruct (bucket_ts b =? t)%Z; cbn [fold_right].
    + rewrite addToBucket_volume. ring.
    + rewrite IH. ring.
Qed.

Section WeeklyVolumeProps.

Variable weekStart : string -> Z.

Lemma weekBuckets_from (arr : list WorkoutEntry) :
  forall map,
    let r := fold_left (fun map w => updateWeek (weekStart (date w)) w map) arr map in
    List.NoDup (List.map bucket_ts map) ->
    List.NoDup (List.map bucket_ts r)
    /\ sumOf bucket_volume r == sumOf bucket_volume map + sumOf tonnage arr
    /\ (length r <= length map + length arr)%nat
    /\ (forall t, In t (List.map bucket_ts r)
                  <-> In t (List.map bucket_ts map)
                      \/ exists w, In w arr /\ weekStart (date w) = t).
Proof.
  induction arr as [| w arr IH]; intros map r Hnd.
  - subst r. unfold sumOf. cbn [fold_left length fold_right].
    split; [exact Hnd |]. split; [ring |]. split; [lia |].
    intros t. split; [intros H; left; exact H |].
    intros [H | [w [[] _]]]; exact H.
  - subst r. cbn [fold_left].
    set (t := weekStart (date w)).
    pose proof (updateWeek_keys t w map) as Hkeys.
    assert (List.NoDup (List.map bucket_ts (updateWeek t w map))) as Hnd'.
    { rewrite Hkeys. destruct (in_dec Z.eq_dec t (List.map bucket_ts map)) as [_ | Hn];
        [exact Hnd |].
      apply NoDup_app_remove_l with (l := []). cbn.
      apply (Permutation_NoDup (l := t :: List.map bucket_ts map)).
      - apply Permutation_cons_append.
      - constructor; assumption. }
    destruct (IH (updateWeek t w map) Hnd') as (Hn & Hsum & Hlen & Hmem).
    split; [exact Hn |]. split; [| split].
    + rewrite Hsum, updateWeek_volume. unfold sumOf. cbn [fold_right]. ring.
    + assert (length (updateWeek t w map) <= S (length map))%nat as Hl.
      { rewrite <- (length_map bucket_ts), Hkeys.
        destruct (in_dec Z.eq_dec t (List.map bucket_ts map));
          rewrite ?length_app, !length_map; cbn; lia. }
      cbn [length]. lia.
    + intros t'. rewrite Hmem, Hkeys. split.
      * intros [Hin | [w' [Hw' Ht']]].
        -- destruct (in_dec Z.eq_dec t (List.map bucket_ts map)) as [_ | _].
           ++ left; exact Hin.
           ++ apply in_app_or in Hin as [Hin | [<- | []]]; [left; exact Hin |].
              right. exists w. split; [left; reflexivity | reflexivity].
        -- right. exists w'. split; [right; exact Hw' | exact Ht'].
      * intros [Hin | [w' [[<- | Hw'] Ht']]].
        -- left. destruct (in_dec Z.eq_dec t (List.map bucket_ts map));
             [exact Hin | apply in_or_app; left; exact Hin].
        -- left. fold t in Ht'. subst t'.
           destruct (in_dec Z.eq_dec t (List.map bucket_ts map)) as [Hin | _];
             [exact Hin | apply in_or_app; right; left; reflexivity].
        -- right. exists w'. split; assumption.
Qed.

End WeeklyVolumeProps.

Lemma insertByTs_Permutation a l : Permutation (insertByTs a l) (a :: l).
Proof.
  induction l as [| b l IH]; simpl; [reflexivity |].
  destruct (ts a - ts b <=? 0)%Z; [reflexivity |].
  rewrite IH. apply perm_swap.
Qed.

Lemma sortByTs_Permutation l : Permutation (sortByTs l) l.
Proof.
  induction l as [| a l IH]; simpl; [reflexivity |].
  rewrite insertByTs_Permutation. apply perm_skip, IH.
Qed.

Lemma insertByTs_sorted a l :
  StronglySorted (fun x y => (ts x <= ts y)%Z) l ->
  StronglySorted (fun x y => (ts x <= ts y)%Z) (insertByTs a l).
Proof.
  induction l as [| b l IH]; intros Hs; simpl.
  - constructor; constructor.
  - apply StronglySorted_inv in Hs as [Hl Hb].
    destruct (Z.leb_spec (ts a - ts b) 0) as [E | E].
    + constructor; [constructor; assumption |].
      constructor; [lia |].
      eapply List.Forall_impl; [| exact Hb]. cbn. intros x Hx. lia.
    + constructor; [apply IH, Hl |].
      apply (Permutation_Forall (Permutation_sym (insertByTs_Permutation a l))).
      constructor; [lia | exact Hb].
Qed.

Lemma sortByTs_sorted l : StronglySorted (fun x y => (ts x <= ts y)%Z) (sortByTs l).
Proof.
  induction l as [| a l IH]; simpl; [constructor |].
  apply insertByTs_sorted, IH.
Qed.

Lemma sorted_distinct_strict (l : list WeekPoint) :
  StronglySorted (fun x y => (ts x <= ts y)%Z) l ->
  List.NoDup (List.map ts l) ->
  StronglySorted (fun x y => (ts x < ts y)%Z) l.
Proof.
  induction 1 as [| x l _ IH Hx]; intros Hnd; constructor.
  - apply IH. apply List.NoDup_cons_iff in Hnd as [_ Hnd]. exact Hnd.
  - apply List.NoDup_cons_iff in Hnd as [Hnotin _].
    apply List.Forall_forall. intros y Hy.
    rewrite List.Forall_forall in Hx. specialize (Hx y Hy).
    assert (ts x <> ts y); [| lia].
    intros E. apply Hnotin. rewrite E. apply in_map, Hy.
Qed.

Section WeeklySeriesProps.

Variable weekStart : string -> Z.

Lemma weeklyVolumeSeries_ts (arr : list WorkoutEntry) :
  Permutation (List.map ts (weeklyVolumeSeries weekStart arr))
    (List.map bucket_ts (weekBuckets weekStart arr)).
Proof.
  unfold weeklyVolumeSeries.
  rewrite (Permutation_map ts (sortByTs_Permutation _)).
  rewrite List.map_map. reflexivity.
Qed.

(** X14: the weekly series has one point per week in which something
    was logged, and only those, in strictly increasing order of time. *)
Theorem weekly_series_one_point_per_week (arr : list WorkoutEntry) :
  StronglySorted (fun x y => (ts x < ts y)%Z) (weeklyVolumeSeries weekStart arr)
  /\ (forall t, In t (List.map ts (weeklyVolumeSeries weekStart arr))
                <-> exists w, In w arr /\ weekStart (date w) = t).
Proof.
  destruct (weekBuckets_from weekStart arr []) as (Hnd & _ & _ & Hmem);
    [constructor |].
  fold (weekBuckets weekStart arr) in Hnd, Hmem.
  split.
  - apply sorted_distinct_strict; [apply sortByTs_sorted |].
    apply (Permutation_NoDup (Permutation_sym (weeklyVolumeSeries_ts arr))), Hnd.
  - intros t. split.
    + intros Hin.
      apply (Permutation_in _ (weeklyVolumeSeries_ts arr)) in Hin.
      apply Hmem in Hin as [[] | Hex]. exact Hex.
    + intros Hex.
      apply (Permutation_in _ (Permutation_sym (weeklyVolumeSeries_ts arr))).
      apply Hmem. right. exact Hex.
Qed.

(** X15: the weekly volumes add up to the tonnage of the whole history,
    up to the rounding of each week to a whole number: the difference is
    at most one half per week, and there are no more weeks than entries. *)
Theorem weekly_volumes_add_up (arr : list WorkoutEntry) :
  let series := weeklyVolumeSeries weekStart arr in
  (length series <= length arr)%nat
  /\ totalTonnage arr - inject_Z (Z.of_nat (length series)) * (1 # 2)
     <= sumOf volume series
  /\ sumOf volume series
     <= totalTonnage arr + inject_Z (Z.of_nat (length series)) * (1 # 2).
Proof.
  intros series.
  destruct (weekBuckets_from weekStart arr []) as (_ & Hsum & Hlen & _);
    [constructor |].
  fold (weekBuckets weekStart arr) in Hsum, Hlen.
  assert (length series = length (weekBuckets weekStart arr)) as Hl.
  { unfold series, weeklyVolumeSeries.
    rewrite (Permutation_length (sortByTs_Permutation _)). apply length_map. }
  split; [rewrite Hl; cbn in Hlen; lia |].
  assert (sumOf volume series
          == sumOf (fun b => roundFixed 0 (bucket_volume b)) (weekBuckets weekStart arr))
    as Hser.
  { unfold series, weeklyVolumeSeries.
    rewrite (sumOf_Permutation volume _ _ (sortByTs_Permutation _)).
    rewrite sumOf_map. reflexivity. }
  rewrite Hser, Hl, totalTonnage_sumOf.
  assert (sumOf bucket_volume (weekBuckets weekStart arr) == sumOf tonnage arr) as Hexact.
  { rewrite Hsum. unfold sumOf. cbn [fold_right]. ring. }
  rewrite <- Hexact.
  generalize (weekBuckets weekStart arr). intros l.
  induction l as [| b l [IHlo IHhi]].
  - split; vm_compute; discriminate.
  - unfold sumOf in *. cbn [fold_right length].
    rewrite Nat2Z.inj_succ, <- Z.add_1_r, inject_Z_plus.
    change (inject_Z 1) with 1.
    destruct (roundFixed0_bounds (bucket_volume b)) as [Hlo Hhi].
    split; lra.
Qed.

End WeeklySeriesProps.

Lemma weekly_series_one_point_per_week_witness :
  In 0%Z (List.map ts (weeklyVolumeSeries (fun _ => 0%Z) calfHistory)).
Proof.
  apply (weekly_series_one_point_per_week (fun _ => 0%Z) calfHistory).
  exists (loggedSet "2025-01-06" "Squat" 1 5 100 8).
  split; [left; reflexivity | reflexivity].
Defined.

(** ** Volume warning *)

Lemma roundFixed0_integer (x : Q) : exists z : Z, roundFixed 0 x == inject_Z z.
Proof.
  unfold roundFixed. change (inject_Z (10 ^ Z.of_nat 0)) with 1.
  destruct (Qlt_le_dec x 0).
  - exists (- nearestScaled 0 (- x))%Z. rewrite inject_Z_opp. field.
  - exists (nearestScaled 0 x). field.
Qed.

Lemma sliceBetween_short {A} (arr : list A) :
  (length arr < 8)%nat -> (length (sliceBetween 8 4 arr) < 4)%nat.
Proof.
  intros Hlen. unfold sliceBetween.
  replace (length arr - 8)%nat with 0%nat by lia.
  rewrite length_firstn. cbn [skipn]. lia.
Qed.

Lemma volumeDropWarning_short (series : list WeekPoint) :
  (length series < 8)%nat -> volumeDropWarning series = None.
Proof.
  intros Hlen. unfold volumeDropWarning.
  pose proof (sliceBetween_short series Hlen) as Hshort.
  apply Nat.ltb_lt in Hshort. rewrite Hshort, orb_true_r. reflexivity.
Qed.

(** X16: a warning is given only on eight weeks or more; it carries the
    change of the last four weeks' volume against the four weeks before,
    in percent of the latter and rounded to a whole number.  When the
    earlier volume is positive, a drop warning means the last four
    weeks reached at most 89.5 percent of it, an increase warning at
    least 110.5 percent. *)
Theorem volume_warning_thresholds (series : list WeekPoint) (warning : VolumeWarning) :
  volumeDropWarning series = Some warning ->
  let lastSum := sumOf volume (sliceLast 4 series) in
  let prevSum := sumOf volume (sliceBetween 8 4 series) in
  (8 <= length series)%nat
  /\ ~ prevSum == 0
  /\ match warning with
     | WarnDrop pct =>
         pct == roundFixed 0 ((lastSum - prevSum) / prevSum * 100)
         /\ (0 < prevSum -> lastSum <= (895 # 1000) * prevSum)
     | WarnIncrease pct =>
         pct == roundFixed 0 ((lastSum - prevSum) / prevSum * 100)
         /\ (0 < prevSum -> (1105 # 1000) * prevSum <= lastSum)
     end.
Proof.
  intros Hwarn lastSum prevSum.
  assert (8 <= length series)%nat as Hlen.
  { destruct (Nat.lt_ge_cases (length series) 8) as [Hlt | Hge]; [| exact Hge].
    rewrite (volumeDropWarning_short series Hlt) in Hwarn.
    discriminate Hwarn. }
  split; [exact Hlen |].
  unfold volumeDropWarning in Hwarn.
  destruct ((length (sliceLast 4 series) <? 4)%nat
            || (length (sliceBetween 8 4 series) <? 4)%nat); [discriminate Hwarn |].
  assert (fold_left (fun s x => s + volume x) (sliceLast 4 series) 0 == lastSum) as El
      by (rewrite fold_left_sumOf; unfold lastSum; ring).
  assert (fold_left (fun s x => s + volume x) (sliceBetween 8 4 series) 0 == prevSum)
    as Ep by (rewrite fold_left_sumOf; unfold prevSum; ring).
  set (ls := fold_left (fun s x => s + volume x) (sliceLast 4 series) 0) in *.
  set (ps := fold_left (fun s x => s + volume x) (sliceBetween 8 4 series) 0) in *.
  destruct (Qeq_bool ps 0) eqn:Ezero; [discriminate Hwarn |].
  apply Qeq_bool_neq in Ezero.
  split; [rewrite <- Ep; exact Ezero |].
  set (x := (ls - ps) / ps * 100) in *.
  assert (x == (lastSum - prevSum) / prevSum * 100) as Ex
      by (unfold x; rewrite El, Ep; reflexivity).
  assert (forall q, q == roundFixed 0 x ->
                    q == roundFixed 0 ((lastSum - prevSum) / prevSum * 100)) as Hpct.
  { intros q ->. unfold roundFixed.
    destruct (Qlt_le_dec x 0), (Qlt_le_dec ((lastSum - prevSum) / prevSum * 100) 0);
      try (exfalso; lra); unfold nearestScaled; rewrite Ex; reflexivity. }
  assert (0 < prevSum -> x * prevSum == (lastSum - prevSum) * 100) as Hmul.
  { intros Hp. rewrite Ex. field. lra. }
  destruct (roundFixed0_bounds x) as [Hlo Hhi].
  destruct (roundFixed0_integer x) as [z Hz].
  destruct (Qle_bool (- (10)) (roundFixed 0 x)) eqn:Edrop; cbn [negb] in Hwarn.
  - destruct (Qle_bool (roundFixed 0 x) 10) eqn:Einc; cbn [negb] in Hwarn;
      [discriminate Hwarn |].
    injection Hwarn as <-. split; [apply Hpct; reflexivity |].
    intros Hp. specialize (Hmul Hp).
    assert (~ roundFixed 0 x <= 10) as Hgt
        by (rewrite <- Qle_bool_iff; congruence).
    assert (11 <= z)%Z as Hz11.
    { apply Z.lt_succ_r. apply Z.lt_succ_r. rewrite Hz in Hgt.
      destruct (Z.le_gt_cases z 10) as [Hle | Hlt]; [| lia].
      exfalso. apply Hgt. rewrite Zle_Qle in Hle. exact Hle. }
    rewrite Zle_Qle in Hz11. change (inject_Z 11) with 11 in Hz11.
    assert ((21 # 2) * prevSum <= x * prevSum) as Hprod
        by (apply Qmult_le_compat_r; lra).
    lra.
  - injection Hwarn as <-. split; [apply Hpct; reflexivity |].
    intros Hp. specialize (Hmul Hp).
    assert (~ - (10) <= roundFixed 0 x) as Hlt
        by (rewrite <- Qle_bool_iff; congruence).
    assert (z <= -11)%Z as Hz11.
    { rewrite Hz in Hlt.
      destruct (Z.le_gt_cases (-10) z) as [Hle | Hgt]; [| lia].
      exfalso. apply Hlt. rewrite Zle_Qle in Hle. exact Hle. }
    rewrite Zle_Qle in Hz11. change (inject_Z (-11)) with (- (11)) in Hz11.
    assert (x * prevSum <= - (21 # 2) * prevSum) as Hprod
        by (apply Qmult_le_compat_r; lra).
    lra.
Qed.

Lemma volume_warning_thresholds_witness :
  exists pct,
    volumeDropWarning dropSeries = Some (WarnDrop pct)
    /\ sumOf volume (sliceLast 4 dropSeries)
       <= (895 # 1000) * sumOf volume (sliceBetween 8 4 dropSeries).
Proof.
  eexists. split; [vm_compute; reflexivity |].
  eapply (volume_warning_thresholds dropSeries (WarnDrop _)).
  - vm_compute. reflexivity.
  - vm_compute. reflexivity.
Defined.

(** ** Comparison statistics and insights *)

Lemma Qfloor_half (k : Z) : Qfloor (inject_Z k + (1 # 2)) = k.
Proof.
  unfold Qfloor, Qplus, inject_Z. cbn [Qnum Qden].
  change (Z.pos (1 * 2)) with 2%Z.
  symmetry. apply Z.div_unique with (r := 1%Z); lia.
Qed.

Lemma roundFixed0_percent_range (x : Q) :
  0 <= x -> x <= 100 -> 0 <= roundFixed 0 x /\ roundFixed 0 x <= 100.
Proof.
  intros H0 H100. unfold roundFixed, nearestScaled.
  change (inject_Z (10 ^ Z.of_nat 0)) with 1.
  destruct (Qlt_le_dec x 0) as [Hneg | _]; [lra |].
  assert (0 <= Qfloor (x * 1 + (1 # 2)))%Z as Hlo.
  { change 0%Z with (Qfloor 0). apply Qfloor_resp_le. lra. }
  assert (Qfloor (x * 1 + (1 # 2)) <= 100)%Z as Hhi.
  { rewrite <- (Qfloor_half 100). apply Qfloor_resp_le.
    change (inject_Z 100) with 100. lra. }
  rewrite Zle_Qle in Hlo, Hhi.
  generalize dependent (inject_Z (Qfloor (x * 1 + (1 # 2)))). intros n Hlo Hhi.
  change (inject_Z 0) with 0 in Hlo. change (inject_Z 100) with 100 in Hhi.
  unfold Qdiv. change (/ 1) with 1. split; lra.
Qed.

Lemma roundFixed2_rpe_range (x : Q) :
  0 <= x -> x <= 10 -> 0 <= roundFixed 2 x /\ roundFixed 2 x <= 10.
Proof.
  intros H0 H10. unfold roundFixed, nearestScaled.
  change (inject_Z (10 ^ Z.of_nat 2)) with 100.
  destruct (Qlt_le_dec x 0) as [Hneg | _]; [lra |].
  assert (0 <= Qfloor (x * 100 + (1 # 2)))%Z as Hlo.
  { change 0%Z with (Qfloor 0). apply Qfloor_resp_le. lra. }
  assert (Qfloor (x * 100 + (1 # 2)) <= 1000)%Z as Hhi.
  { rewrite <- (Qfloor_half 1000). apply Qfloor_resp_le.
    change (inject_Z 1000) with 1000. lra. }
  rewrite Zle_Qle in Hlo, Hhi.
  generalize dependent (inject_Z (Qfloor (x * 100 + (1 # 2)))). intros n Hlo Hhi.
  change (inject_Z 0) with 0 in Hlo. change (inject_Z 1000) with 1000 in Hhi.
  unfold Qdiv. change (/ 100) with (1 # 100). split; lra.
Qed.

Lemma fold_left_Qplus (l : list Q) :
  forall a, fold_left Qplus l a == a + sumOf (fun x => x) l.
Proof.
  induction l as [| x l IH]; intros a; cbn [fold_left].
  - unfold sumOf. cbn. ring.
  - rewrite IH. unfold sumOf. cbn [fold_right]. ring.
Qed.

Lemma sumOf_between (l : list Q) (lo hi : Q) :
  (forall x, In x l -> lo <= x /\ x <= hi) ->
  lo * inject_Z (Z.of_nat (length l)) <= sumOf (fun x => x) l
  /\ sumOf (fun x => x) l <= hi * inject_Z (Z.of_nat (length l)).
Proof.
  induction l as [| x l IH]; intros Hb.
  - unfold sumOf. cbn [fold_right length]. change (inject_Z (Z.of_nat 0)) with 0.
    split; lra.
  - unfold sumOf in *. cbn [fold_right length].
    rewrite Nat2Z.inj_succ, <- Z.add_1_r, inject_Z_plus. change (inject_Z 1) with 1.
    destruct IH as [IHlo IHhi]; [intros y Hy; apply Hb; right; exact Hy |].
    destruct (Hb x) as [Hlo Hhi]; [left; reflexivity |].
    split; lra.
Qed.

Lemma positiveRpe_Some w p : positiveRpe w = Some p -> rpe w = Some p /\ 0 < p.
Proof.
  unfold positiveRpe. destruct (rpe w) as [q |]; [| discriminate].
  destruct (Qlt_le_dec 0 q); [| discriminate].
  intros [= <-]. split; [reflexivity | assumption].
Qed.

Lemma in_omap_positiveRpe arr p :
  In p (omap positiveRpe arr) -> exists w, In w arr /\ rpe w = Some p /\ 0 < p.
Proof.
  induction arr as [| w arr IH]; cbn [omap list_omap]; [intros [] |].
  destruct (positiveRpe w) as [q |] eqn:E.
  - intros [<- | Hin].
    + exists w. split; [left; reflexivity | apply positiveRpe_Some, E].
    + destruct (IH Hin) as [w' [Hw' Hp]]. exists w'. split; [right; exact Hw' | exact Hp].
  - intros Hin. destruct (IH Hin) as [w' [Hw' Hp]].
    exists w'. split; [right; exact Hw' | exact Hp].
Qed.

#[local] Set Warnings "-clear-no-such-hyp".

Lemma size_list_to_set_le (l : list string) :
  (size (list_to_set l : gset string) <= length l)%nat.
Proof.
  induction l as [| x l IH]; [rewrite list_to_set_nil, size_empty; cbn; lia |].
  rewrite list_to_set_cons, size_union_alt, size_singleton. cbn [length].
  assert (size (list_to_set l ∖ {[x]} : gset string)
          <= size (list_to_set l : gset string))%nat
    by (apply subseteq_size; set_solver).
  lia.
Qed.

Section CompareProps.

Variable toDateLabel : string -> string.

(** X17: the statistics of a comparison period stay in range: the
    failure percentage lies between 0 and 100, there are no more
    sessions than entries, and when no recorded RPE exceeds 10 the
    average RPE lies between 0 and 10.  A period without a positive RPE
    reports 0 for both. *)
Theorem compare_stats_in_range (arr : list WorkoutEntry) :
  let s := calc toDateLabel arr in
  0 <= cs_failurePct s /\ cs_failurePct s <= 100
  /\ (cs_sessions s <= cs_entries s)%nat
  /\ ((forall w p, In w arr -> rpe w = Some p -> p <= 10) ->
      0 <= cs_avgRPE s /\ cs_avgRPE s <= 10)
  /\ ((forall w, In w arr -> positiveRpe w = None) ->
      cs_avgRPE s = 0 /\ cs_failurePct s = 0).
Proof.
  intros s. subst s. unfold calc.
  cbn [cs_failurePct cs_sessions cs_entries cs_avgRPE].
  set (rpes := omap positiveRpe arr).
  assert (forall p, In p rpes -> 0 < p) as Hpos.
  { intros p Hp. apply in_omap_positiveRpe in Hp as (w & _ & _ & H). exact H. }
  assert (rpes <> [] -> 0 < inject_Z (Z.of_nat (length rpes))) as Hlen.
  { intros Hne. destruct rpes; [contradiction |].
    change 0 with (inject_Z 0). rewrite <- Zlt_Qlt. cbn [length]. lia. }
  assert (0 <= match rpes with
               | [] => 0
               | _ :: _ =>
                   roundFixed 0
                     (inject_Z
                        (Z.of_nat (length (List.filter (fun r => Qle_bool 9 r) rpes)))
                      / inject_Z (Z.of_nat (length rpes)) * 100)
               end
          /\ match rpes with
             | [] => 0
             | _ :: _ =>
                 roundFixed 0
                   (inject_Z
                      (Z.of_nat (length (List.filter (fun r => Qle_bool 9 r) rpes)))
                    / inject_Z (Z.of_nat (length rpes)) * 100)
             end <= 100) as [Hf0 Hf100].
  { destruct rpes as [| p0 rest] eqn:Er; [split; lra |]. rewrite <- Er in *.
    apply roundFixed0_percent_range.
    + apply Qmult_le_0_compat; [| lra].
      apply Qle_shift_div_l; [apply Hlen; congruence |].
      rewrite Qmult_0_l. change 0 with (inject_Z 0). rewrite <- Zle_Qle. lia.
    + assert (inject_Z (Z.of_nat (length (List.filter (fun r => Qle_bool 9 r) rpes)))
              / inject_Z (Z.of_nat (length rpes)) <= 1) as Hratio.
      { apply Qle_shift_div_r; [apply Hlen; congruence |].
        rewrite Qmult_1_l, <- Zle_Qle.
        apply Nat2Z.inj_le, List.filter_length_le. }
      lra. }
  split; [exact Hf0 |]. split; [exact Hf100 |]. split; [| split].
  - rewrite <- (length_map (fun w => toDateLabel (date w)) arr).
    apply size_list_to_set_le.
  - intros Hmax.
    destruct rpes as [| p0 rest] eqn:Er; [split; lra |]. rewrite <- Er in *.
    assert (forall p, In p rpes -> 0 <= p /\ p <= 10) as Hb.
    { intros p Hp. split; [apply Qlt_le_weak, Hpos, Hp |].
      apply in_omap_positiveRpe in Hp as (w & Hw & Hr & _). apply (Hmax w p Hw Hr). }
    destruct (sumOf_between rpes 0 10 Hb) as [Hlo Hhi].
    pose proof (fold_left_Qplus rpes 0) as Hsum.
    specialize (Hlen ltac:(congruence)).
    apply roundFixed2_rpe_range.
    + apply Qle_shift_div_l; [exact Hlen |]. rewrite Hsum. lra.
    + apply Qle_shift_div_r; [exact Hlen |]. rewrite Hsum. lra.
  - intros Hnone.
    assert (rpes = []) as ->; [| split; reflexivity].
    unfold rpes. clear -Hnone.
    induction arr as [| w arr IH]; [reflexivity |].
    cbn [omap list_omap]. rewrite (Hnone w) by (left; reflexivity).
    apply IH. intros w' Hw'. apply Hnone. right. exact Hw'.
Qed.

End CompareProps.

Lemma compare_stats_in_range_witness :
  0 <= cs_avgRPE (calc (fun d => d) calfHistory)
  /\ cs_avgRPE (calc (fun d => d) calfHistory) <= 10.
Proof.
  apply (compare_stats_in_range (fun d => d) calfHistory).
  intros w p Hw Hp.
  repeat destruct Hw as [<- | Hw]; try contradiction;
    injection Hp as <-; vm_compute; discriminate.
Defined.

Lemma repRangeDistribution_from (arr : list WorkoutEntry) :
  forall acc,
    let r := fold_left
               (fun acc w =>
                  if repsAtMost 5 w
                  then mkRepRanges (low acc + 1) (target acc) (high acc)
                  else if repsAtMost 10 w
                       then mkRepRanges (low acc) (target acc + 1) (high acc)
                       else mkRepRanges (low acc) (target acc) (high acc + 1))
               arr acc in
    (low r + target r + high r = low acc + target acc + high acc + length arr)%nat
    /\ (low acc <= low r)%nat /\ (target acc <= target r)%nat /\ (high acc <= high r)%nat.
Proof.
  induction arr as [| w arr IH]; intros acc r; subst r; cbn [fold_left length].
  - lia.
  - destruct (repsAtMost 5 w); [| destruct (repsAtMost 10 w)];
      match goal with
      | |- context [fold_left _ arr ?a] => specialize (IH a)
      end; cbn [low target high] in IH; cbn zeta in IH; lia.
Qed.

(** X18: the rep-range counts partition the history: low, target and
    high add up to the number of entries, and an entry whose reps were
    not recorded is counted as high. *)
Theorem repRangeDistribution_partitions (arr : list WorkoutEntry) :
  (low (repRangeDistribution arr) + target (repRangeDistribution arr)
   + high (repRangeDistribution arr) = length arr)%nat
  /\ (forall w, reps w = None ->
        high (repRangeDistribution (arr ++ [w])) = S (high (repRangeDistribution arr))).
Proof.
  split.
  - destruct (repRangeDistribution_from arr (mkRepRanges 0 0 0)) as [Hsum _].
    unfold repRangeDistribution. cbn [low target high] in Hsum. lia.
  - intros w Hw. unfold repRangeDistribution. rewrite fold_left_app. cbn [fold_left].
    unfold repsAtMost. rewrite Hw. cbn [high]. lia.
Qed.

Lemma repRangeDistribution_partitions_witness :
  high (repRangeDistribution (calfHistory ++ [noReps]))
  = S (high (repRangeDistribution calfHistory)).
Proof. apply repRangeDistribution_partitions. reflexivity. Defined.

Lemma streakBack_bounds (earlier : list Z) :
  forall later, (1 <= streakBack later earlier <= S (length earlier))%nat.
Proof.
  induction earlier as [| d rest IH]; intros later; cbn [streakBack length]; [lia |].
  destruct ((later - d) / DAY_MS <=? 7)%Z; [| lia].
  specialize (IH d). lia.
Qed.

Lemma streakBack_snoc (earlier : list Z) (oldest : Z) :
  forall later,
    (streakBack later earlier <= streakBack later (earlier ++ [oldest])
     <= S (streakBack later earlier))%nat.
Proof.
  induction earlier as [| d rest IH]; intros later; cbn [streakBack app].
  - destruct ((later - oldest) / DAY_MS <=? 7)%Z; lia.
  - destruct ((later - d) / DAY_MS <=? 7)%Z; [| lia].
    specialize (IH d). lia.
Qed.

(** X19: the training streak of a non-empty list of training days is at
    least 1 and at most the number of days, and a further, older day in
    front of the list never shortens it and adds at most one. *)
Theorem trainingStreak_bounds (unique : list Z) (older : Z) :
  unique <> [] ->
  (1 <= trainingStreak unique <= length unique)%nat
  /\ (trainingStreak unique <= trainingStreak (older :: unique)
      <= S (trainingStreak unique))%nat.
Proof.
  intros Hne. unfold trainingStreak. cbn [rev].
  destruct (rev unique) as [| lastDay earlier] eqn:E.
  - exfalso. apply Hne. rewrite <- (rev_involutive unique), E. reflexivity.
  - assert (length unique = S (length earlier)) as Hlen
        by (rewrite <- length_rev, E; reflexivity).
    cbn [app]. split.
    + rewrite Hlen. apply streakBack_bounds.
    + apply streakBack_snoc.
Qed.

Lemma trainingStreak_bounds_witness :
  (1 <= trainingStreak [0; 3 * DAY_MS; 20 * DAY_MS; 25 * DAY_MS]%Z <= 4)%nat.
Proof.
  apply (trainingStreak_bounds [0; 3 * DAY_MS; 20 * DAY_MS; 25 * DAY_MS]%Z 0%Z).
  discriminate.
Defined.

(** ** Heat map levels *)

Lemma levelFor_range (maxCount count : Z) :
  (0 <= levelFor maxCount count <= 4)%Z.
Proof.
  unfold levelFor.
  repeat match goal with
         | |- context [if ?b then _ else _] => destruct b
         end; lia.
Qed.

(** X20: the heat-map level of a day lies between 0 and 4, is 0 exactly
    for a day without workouts, does not decrease with the day's count,
    and is 4 for the busiest day when that day has two workouts or
    more. *)
Theorem levelFor_monotone (maxCount c1 c2 : Z) :
  (0 <= levelFor maxCount c1 <= 4)%Z
  /\ (levelFor maxCount c1 = 0%Z <-> (c1 <= 0)%Z)
  /\ ((c1 <= c2)%Z -> (levelFor maxCount c1 <= levelFor maxCount c2)%Z)
  /\ ((2 <= maxCount)%Z -> levelFor maxCount maxCount = 4%Z).
Proof.
  split; [apply levelFor_range |]. split; [| split].
  - unfold levelFor. destruct (Z.leb_spec c1 0) as [H | H]; [tauto |].
    split; [| lia].
    repeat match goal with
           | |- context [if ?b then _ else _] => destruct b
           end; discriminate.
  - intros Hle. unfold levelFor.
    destruct (Z.leb_spec c1 0) as [H1 | H1].
    + pose proof (levelFor_range maxCount c2) as Hr. unfold levelFor in Hr. lia.
    + destruct (Z.leb_spec c2 0) as [H2 | H2]; [lia |].
      destruct (Z.leb_spec maxCount 1) as [Hm | Hm]; [lia |].
      assert (0 < inject_Z maxCount) as Hmq
          by (change 0 with (inject_Z 0); rewrite <- Zlt_Qlt; lia).
      assert (inject_Z c1 / inject_Z maxCount <= inject_Z c2 / inject_Z maxCount) as Hr.
      { unfold Qdiv. apply Qmult_le_compat_r; [rewrite <- Zle_Qle; exact Hle |].
        apply Qlt_le_weak, Qinv_lt_0_compat, Hmq. }
      set (r1 := inject_Z c1 / inject_Z maxCount) in *.
      set (r2 := inject_Z c2 / inject_Z maxCount) in *.
      clearbody r1 r2.
      destruct (Qle_bool 0.25 r1) eqn:A1, (Qle_bool 0.5 r1) eqn:B1,
        (Qle_bool 0.75 r1) eqn:C1, (Qle_bool 0.25 r2) eqn:A2,
        (Qle_bool 0.5 r2) eqn:B2, (Qle_bool 0.75 r2) eqn:C2; cbn [negb]; try lia;
        exfalso;
        repeat match goal with
               | H : Qle_bool _ _ = true |- _ => apply Qle_bool_iff in H
               | H : Qle_bool _ _ = false |- _ =>
                   apply not_true_iff_false in H; rewrite Qle_bool_iff in H
               end;
        repeat match goal with
               | H : ~ _ <= _ |- _ => apply Qnot_le_lt in H
               end; lra.
  - intros Hm. unfold levelFor.
    destruct (Z.leb_spec maxCount 0) as [H | _]; [lia |].
    destruct (Z.leb_spec maxCount 1) as [H | _]; [lia |].
    assert (inject_Z maxCount / inject_Z maxCount == 1) as Hone.
    { field. change 0 with (inject_Z 0). rewrite inject_Z_injective. lia. }
    assert (Qle_bool 0.25 (inject_Z maxCount / inject_Z maxCount) = true) as ->
        by (apply Qle_bool_iff; rewrite Hone; lra).
    assert (Qle_bool 0.5 (inject_Z maxCount / inject_Z maxCount) = true) as ->
        by (apply Qle_bool_iff; rewrite Hone; lra).
    assert (Qle_bool 0.75 (inject_Z maxCount / inject_Z maxCount) = true) as ->
        by (apply Qle_bool_iff; rewrite Hone; lra).
    reflexivity.
Qed.

Lemma levelFor_monotone_witness :
  (levelFor 8 3 <= levelFor 8 5)%Z /\ levelFor 8 8 = 4%Z.
Proof.
  destruct (levelFor_monotone 8 3 5) as (_ & _ & Hmono & _).
  destruct (levelFor_monotone 8 8 8) as (_ & _ & _ & Hmax).
  split; [apply Hmono | apply Hmax]; lia.
Defined.

(** ** Time ranges *)

(** X21: the ranges offered are the overall range, which is always
    offered, and every shorter range that the recorded span of days
    covers; so the list is never empty and a range is never offered
    without the ranges shorter than it. *)
Theorem availableRanges_offered (spanDays : Z) (r : TimeRange) :
  (In r (availableRanges spanDays) <-> r = ALL \/ (rangeDays r <= spanDays)%Z)
  /\ availableRanges spanDays
     = List.filter (rangeOk spanDays) [R1W; R1M; R3M; R6M; R1Y; ALL].
Proof.
  assert (availableRanges spanDays
          = List.filter (rangeOk spanDays) [R1W; R1M; R3M; R6M; R1Y; ALL]) as Heq.
  { unfold availableRanges.
    destruct (List.filter (rangeOk spanDays) [R1W; R1M; R3M; R6M; R1Y; ALL]) eqn:E;
      [| reflexivity].
    exfalso.
    assert (In ALL (List.filter (rangeOk spanDays) [R1W; R1M; R3M; R6M; R1Y; ALL])) as Hin
        by (apply filter_In; split; [cbn; tauto | reflexivity]).
    rewrite E in Hin. exact Hin. }
  split; [| exact Heq].
  rewrite Heq, filter_In.
  assert (In r [R1W; R1M; R3M; R6M; R1Y; ALL]) as Hall by (destruct r; cbn; tauto).
  split.
  - intros [_ Hok]. destruct r; [right | right | right | right | right | left; reflexivity];
      unfold rangeOk in Hok; destruct (Z.eqb_spec spanDays 0); try discriminate;
      apply Z.leb_le in Hok; exact Hok.
  - intros [-> | Hle]; [split; [exact Hall | reflexivity] |].
    split; [exact Hall |].
    destruct r; cbn [rangeDays] in Hle; unfold rangeOk;
      try (destruct (Z.eqb_spec spanDays 0); [lia | apply Z.leb_le; exact Hle]).
    reflexivity.
Qed.

Lemma availableRanges_offered_witness :
  In R3M (availableRanges 120) /\ ~ In R6M (availableRanges 120).
Proof.
  split.
  - apply (availableRanges_offered 120 R3M). right. cbn. lia.
  - intros Hin. apply (availableRanges_offered 120 R6M) in Hin as [H | H];
      [discriminate | cbn in H; lia].
Defined.

(** X22: for a day of the month between 1 and 31 and a first weekday
    between 0 and 6 the week of the month lies between 1 and 6, and it
    does not decrease with the day. *)
Theorem weekOfMonth_range (dayOfMonth later firstWeekday : Z) :
  (1 <= dayOfMonth <= 31)%Z -> (0 <= firstWeekday <= 6)%Z ->
  (1 <= weekOfMonth dayOfMonth firstWeekday <= 6)%Z
  /\ ((dayOfMonth <= later)%Z ->
      (weekOfMonth dayOfMonth firstWeekday <= weekOfMonth later firstWeekday)%Z).
Proof.
  intros Hd Hw. unfold weekOfMonth.
  pose proof (Z.mod_pos_bound (firstWeekday + 6) 7 ltac:(lia)) as Hoff.
  set (offset := ((firstWeekday + 6) mod 7)%Z) in *. clearbody offset.
  split.
  - pose proof (Qle_ceiling (inject_Z (dayOfMonth + offset) / 7)) as Hup.
    pose proof (Qceiling_lt (inject_Z (dayOfMonth + offset) / 7)) as Hdown.
    assert (1 <= inject_Z (dayOfMonth + offset)) as H1
        by (change 1 with (inject_Z 1); rewrite <- Zle_Qle; lia).
    assert (inject_Z (dayOfMonth + offset) <= 37) as H37
        by (change 37 with (inject_Z 37); rewrite <- Zle_Qle; lia).
    set (n := inject_Z (dayOfMonth + offset)) in *. clearbody n.
    set (c := Qceiling (n / 7)) in *. clearbody c.
    unfold Zminus in Hdown. rewrite inject_Z_plus in Hdown.
    change (inject_Z (- (1))%Z) with (-1 # 1) in Hdown.
    unfold Qdiv in *. change (/ 7) with (1 # 7) in *.
    assert (0 < inject_Z c) as Hc0 by lra.
    assert (inject_Z c < 7) as Hc7 by lra.
    change 0 with (inject_Z 0) in Hc0. change 7 with (inject_Z 7) in Hc7.
    rewrite <- Zlt_Qlt in Hc0, Hc7. lia.
  - intros Hle. apply Qceiling_resp_le.
    unfold Qdiv. apply Qmult_le_compat_r; [| discriminate].
    rewrite <- Zle_Qle. lia.
Qed.

Lemma weekOfMonth_range_witness :
  (1 <= weekOfMonth 31 0 <= 6)%Z.
Proof. apply (weekOfMonth_range 31 31 0); lia. Defined.

(** ** Steps *)

Lemma skipn_app_length {A} (l1 l2 : list A) : skipn (length l1) (l1 ++ l2) = l2.
Proof. induction l1 as [| x l1 IH]; [reflexivity | exact IH]. Qed.

Lemma in_skipn {A} (n : nat) (l : list A) (x : A) : In x (skipn n l) -> In x l.
Proof.
  revert l. induction n as [| n IH]; intros l Hin; [exact Hin |].
  destruct l as [| y l]; [destruct Hin |]. right. apply IH, Hin.
Qed.

Lemma steps_total_bounds (M : Z) (l : list (option Z)) :
  (0 <= M)%Z ->
  (forall n v, In n l -> n = Some v -> (0 <= v <= M)%Z) ->
  forall acc,
    (acc <= fold_left (fun sum n => sum + default 0 n) l acc
     <= acc + M * Z.of_nat (length l))%Z.
Proof.
  intros HM. induction l as [| n l IH]; intros Hb acc; cbn [fold_left length].
  - lia.
  - assert (0 <= default 0%Z n <= M)%Z as Hn.
    { destruct n as [v |]; cbn; [apply (Hb (Some v) v); [left |]; reflexivity | lia]. }
    specialize (IH (fun n' v Hin => Hb n' v (or_intror Hin)) (acc + default 0 n)%Z).
    lia.
Qed.

(** X23: only the last seven rows of a steps file count, and when every
    row holds between 0 and [M] steps the weekly figure lies between 0
    and [M] as well, however few rows there are. *)
Theorem weekly_steps_from_last_seven (M : Z) (earlier rows : list (option Z)) :
  (length rows = 7%nat -> weeklyStepsOf (earlier ++ rows) = weeklyStepsOf rows)
  /\ ((0 <= M)%Z ->
      (forall n v, In n rows -> n = Some v -> (0 <= v <= M)%Z) ->
      (0 <= weeklyStepsOf rows <= M)%Z).
Proof.
  split.
  - intros Hlen. unfold weeklyStepsOf, sliceLast.
    rewrite length_app, Hlen.
    replace (length earlier + 7 - 7)%nat with (length earlier) by lia.
    rewrite skipn_app_length. reflexivity.
  - intros HM Hb. unfold weeklyStepsOf, mathRound.
    set (last7 := sliceLast 7 rows).
    assert (length last7 <= 7)%nat as Hl7
        by (unfold last7, sliceLast; rewrite length_skipn; lia).
    destruct (steps_total_bounds M last7 HM) with (acc := 0%Z) as [Hlo Hhi].
    { intros n v Hin. apply Hb. unfold last7, sliceLast in Hin.
      apply (in_skipn _ _ _ Hin). }
    set (total := fold_left (fun sum n => (sum + default 0 n)%Z) last7 0%Z) in *.
    assert (total <= 7 * M)%Z as Htot by nia.
    rewrite Zle_Qle in Hlo, Htot. rewrite inject_Z_mult in Htot.
    change (inject_Z 0) with 0 in Hlo. change (inject_Z 7) with 7 in Htot.
    split.
    + change 0%Z with (Qfloor 0). apply Qfloor_resp_le.
      unfold Qdiv. change (/ 7) with (1 # 7). lra.
    + rewrite <- (Qfloor_half M). apply Qfloor_resp_le.
      unfold Qdiv. change (/ 7) with (1 # 7). lra.
Qed.

Lemma weekly_steps_from_last_seven_witness :
  weeklyStepsOf ([Some 99999%Z]
                 ++ List.map Some [7000; 8000; 9000; 10000; 11000; 12000; 13000]%Z)
  = 10000%Z.
Proof.
  destruct (weekly_steps_from_last_seven 0 [Some 99999%Z]
              (List.map Some [7000; 8000; 9000; 10000; 11000; 12000; 13000]%Z))
    as [Hlast _].
  rewrite Hlast; reflexivity.
Defined.

(** ** Tape measurements *)

Lemma roundFixed1_compat (x y : Q) : x == y -> roundFixed1 x == roundFixed1 y.
Proof.
  intros Hxy. unfold roundFixed1, fixed1, nearestTenths.
  destruct (Qlt_le_dec x 0), (Qlt_le_dec y 0); try (exfalso; lra);
    rewrite Hxy; reflexivity.
Qed.

(** X24: the average of a left and a right measurement does not depend
    on their order; with both present it lies between them, up to the
    rounding to one decimal place, and with one present it is that
    one. *)
Theorem avg_symmetric_between (A B : option Q) :
  avg A B == avg B A
  /\ (forall a b, A = Some a -> B = Some b -> a <= b ->
        a - (1 # 20) <= avg A B /\ avg A B <= b + (1 # 20))
  /\ (forall a, A = Some a -> B = None -> avg A B = a).
Proof.
  split; [| split].
  - destruct A as [a |], B as [b |]; cbn [avg]; try reflexivity.
    apply roundFixed1_compat. field.
  - intros a b -> -> Hab. cbn [avg].
    destruct (roundFixed1_bounds ((a + b) / 2)) as [Hlo Hhi].
    unfold Qdiv in *. change (/ 2) with (1 # 2) in *.
    generalize dependent (roundFixed1 ((a + b) * (1 # 2))). intros; split; lra.
  - intros a -> ->. reflexivity.
Qed.

Lemma avg_symmetric_between_witness :
  15 - (1 # 20) <= avg (Some 15) (Some 15.5) /\ avg (Some 15) (Some 15.5) <= 15.5 + (1 # 20).
Proof.
  destruct (avg_symmetric_between (Some 15) (Some 15.5)) as (_ & Hbetween & _).
  apply (Hbetween 15 15.5); [reflexivity | reflexivity | lra].
Defined.

(** ** Health token *)

(** X25: when no token is configured every request passes.  When a
    token is configured, a request passes exactly when the header holds
    the token, or the header is absent or empty and the query parameter
    holds it; a header with another value is refused whatever the query
    parameter says. *)
Theorem verifyHealthToken_accepts (tok : string) (header queryToken : option string) :
  verifyHealthToken None header queryToken = true
  /\ verifyHealthToken (Some "") header queryToken = true
  /\ (tok <> ""%string ->
      (verifyHealthToken (Some tok) header queryToken = true
       <-> header = Some tok \/ (truthy header = false /\ queryToken = Some tok)))
  /\ (tok <> ""%string -> truthy header = true -> header <> Some tok ->
      verifyHealthToken (Some tok) header queryToken = false).
Proof.
  split; [reflexivity |]. split; [reflexivity |].
  assert (tok <> ""%string -> truthy (Some tok) = true) as Htok.
  { intros Hne. cbn. destruct (String.eqb_spec tok ""); [contradiction | reflexivity]. }
  split.
  - intros Hne. unfold verifyHealthToken. rewrite (Htok Hne). cbn [negb].
    destruct (truthy header) eqn:Eh.
    + rewrite Eh. cbn [andb]. rewrite bool_decide_eq_true. split.
      * intros H. left. exact H.
      * intros [H | [H _]]; [exact H | discriminate H].
    + rewrite andb_true_iff, bool_decide_eq_true. split.
      * intros [_ H]. right. split; [reflexivity | exact H].
      * intros [H | [_ H]].
        -- rewrite H, (Htok Hne) in Eh. discriminate Eh.
        -- rewrite H. split; [apply Htok, Hne | reflexivity].
  - intros Hne Hh Hwrong. unfold verifyHealthToken.
    rewrite (Htok Hne), Hh. cbn [negb]. rewrite Hh. cbn [andb].
    apply bool_decide_eq_false. exact Hwrong.
Qed.

Lemma verifyHealthToken_accepts_witness :
  verifyHealthToken (Some "s3cret") None (Some "s3cret") = true
  /\ verifyHealthToken (Some "s3cret") (Some "guess") (Some "s3cret") = false.
Proof.
  destruct (verifyHealthToken_accepts "s3cret" None (Some "s3cret"))
    as (_ & _ & Hiff & _).
  destruct (verifyHealthToken_accepts "s3cret" (Some "guess") (Some "s3cret"))
    as (_ & _ & _ & Hwrong).
  split.
  - apply Hiff; [discriminate |]. right. split; reflexivity.
  - apply Hwrong; [discriminate | reflexivity | discriminate].
Defined.

(** ** CSV type detection *)

Lemma lowerAscii_fixes_alnum (c : ascii) : isLowerAlnum c = true -> lowerAscii c = c.
Proof.
  destruct c as [[] [] [] [] [] [] [] []]; vm_compute; intros H;
    first [reflexivity | discriminate H].
Qed.

Lemma toLowerCase_replaceRuns (s : string) :
  forall b, toLowerCase (replaceRuns b s) = replaceRuns b s.
Proof.
  induction s as [| c s IH]; intros b; cbn [replaceRuns]; [reflexivity |].
  destruct (isLowerAlnum c) eqn:E.
  - cbn [toLowerCase]. rewrite (lowerAscii_fixes_alnum c E), IH. reflexivity.
  - destruct b; [apply IH |]. cbn [toLowerCase]. rewrite IH. reflexivity.
Qed.

Lemma replaceRuns_idempotent (s : string) :
  (forall b, replaceRuns false (replaceRuns b s) = replaceRuns b s)
  /\ replaceRuns true (replaceRuns true s) = replaceRuns true s.
Proof.
  induction s as [| c s [IH1 IH2]]; [split; [intros []; reflexivity | reflexivity] |].
  split.
  - intros b. cbn [replaceRuns]. destruct (isLowerAlnum c) eqn:E.
    + cbn [replaceRuns]. rewrite E, IH1. reflexivity.
    + destruct b; [apply IH1 |]. cbn [replaceRuns].
      change (isLowerAlnum "_") with false. cbn iota. rewrite IH2. reflexivity.
  - cbn [replaceRuns]. destruct (isLowerAlnum c) eqn:E; [| exact IH2].
    cbn [replaceRuns]. rewrite E, IH1. reflexivity.
Qed.

Lemma norm_idempotent (s : string) : norm (norm s) = norm s.
Proof.
  unfold norm. rewrite toLowerCase_replaceRuns.
  apply (proj1 (replaceRuns_idempotent (toLowerCase s))).
Qed.

Lemma norm_toLowerCase (s : string) : norm (toLowerCase s) = norm s.
Proof. unfold norm. rewrite toLowerCase_idempotent. reflexivity. Qed.

(** X26: normalising a header twice is normalising it once, and the
    detected type of a file is the same whether its headers are given as
    they are, in lower case, or already normalised: letter case and
    punctuation of the headers do not matter. *)
Theorem detectCsvType_ignores_case_and_punctuation (fields : list string) :
  (forall s, norm (norm s) = norm s)
  /\ detectCsvType (List.map toLowerCase fields) = detectCsvType fields
  /\ detectCsvType (List.map norm fields) = detectCsvType fields.
Proof.
  split; [exact norm_idempotent |].
  unfold detectCsvType. rewrite !List.map_map.
  rewrite (List.map_ext (fun x => norm (toLowerCase x)) norm norm_toLowerCase).
  rewrite (List.map_ext (fun x => norm (norm x)) norm norm_idempotent).
  split; reflexivity.
Qed.

(** ** Backend synchronisation *)

Lemma backfillPages_untilEmpty (pages : list (list HevyWorkout)) :
  forall db, backfillPages pages db = fold_left backfillRow (untilEmpty pages) db.
Proof.
  induction pages as [| page more IH]; intros db; [reflexivity |].
  destruct page as [| w page]; [reflexivity |].
  cbn [backfillPages untilEmpty]. rewrite IH, fold_left_app. reflexivity.
Qed.

Lemma syncPages_untilEmpty (pages : list (list HevyEvent)) :
  forall state, syncPages pages state = fold_left syncEvent (untilEmpty pages) state.
Proof.
  induction pages as [| page more IH]; intros state; [reflexivity |].
  destruct page as [| ev page]; [reflexivity |].
  cbn [syncPages untilEmpty]. rewrite IH, fold_left_app. reflexivity.
Qed.

Lemma backfillRow_other_tables db w :
  meta (backfillRow db w) = meta db /\ hevy_events (backfillRow db w) = hevy_events db.
Proof. unfold backfillRow. destruct (orElse (hw_id w) None); split; reflexivity. Qed.

Lemma backfill_rows_lookup (rows : list HevyWorkout) (db : Db) (id : string) :
  hevy_workouts (fold_left backfillRow rows db) !! id
  = match lastRowFor id rows with
    | Some w => Some (orElse (hw_updated w) None, hw_payload w)
    | None => hevy_workouts db !! id
    end
  /\ meta (fold_left backfillRow rows db) = meta db
  /\ hevy_events (fold_left backfillRow rows db) = hevy_events db.
Proof.
  induction rows as [| w rows IH] using rev_ind; [repeat split |].
  rewrite fold_left_app. cbn [fold_left].
  destruct IH as (IHw & IHm & IHe).
  destruct (backfillRow_other_tables (fold_left backfillRow rows db) w) as [Hm He].
  split; [| split; congruence].
  unfold lastRowFor. rewrite rev_app_distr. cbn [rev app List.find].
  unfold backfillRow at 1.
  destruct (orElse (hw_id w) None) as [wid |] eqn:E.
  - cbn [upsertWorkout hevy_workouts].
    destruct (decide (wid = id)) as [-> | Hne].
    + rewrite bool_decide_eq_true_2 by reflexivity. apply lookup_insert_eq.
    + rewrite bool_decide_eq_false_2 by congruence.
      rewrite lookup_insert_ne by exact Hne. exact IHw.
  - rewrite bool_decide_eq_false_2 by discriminate. exact IHw.
Qed.

(** X27: after a backfill, a workout id that the fetched pages carry
    holds the data of the last fetched row with that id, every other id
    holds what it held before, rows without an id are never stored, and
    the event log is untouched; pages after the first empty page are
    not read. *)
Theorem initialBackfill_last_row_wins (now : string) (pages : list (list HevyWorkout))
    (db : Db) (id : string) :
  hevy_workouts (initialBackfill now pages db) !! id
  = match lastRowFor id (untilEmpty pages) with
    | Some w => Some (orElse (hw_updated w) None, hw_payload w)
    | None => hevy_workouts db !! id
    end
  /\ hevy_events (initialBackfill now pages db) = hevy_events db
  /\ getMeta (initialBackfill now pages db) META_KEY "" = now.
Proof.
  unfold initialBackfill. rewrite backfillPages_untilEmpty.
  destruct (backfill_rows_lookup (untilEmpty pages) db id) as (Hw & _ & He).
  cbn [setMeta hevy_workouts hevy_events].
  split; [exact Hw |]. split; [exact He |].
  unfold getMeta, setMeta. cbn [meta]. rewrite lookup_insert_eq. reflexivity.
Qed.

(** X28: running the backfill again over the same pages changes
    nothing. *)
Theorem initialBackfill_idempotent (now : string) (pages : list (list HevyWorkout))
    (db : Db) :
  initialBackfill now pages (initialBackfill now pages db) = initialBackfill now pages db.
Proof.
  unfold initialBackfill. rewrite !backfillPages_untilEmpty.
  set (rows := untilEmpty pages).
  set (db1 := fold_left backfillRow rows db).
  set (db2 := fold_left backfillRow rows (setMeta db1 META_KEY now)).
  destruct (backfill_rows_lookup rows (setMeta db1 META_KEY now) ""%string)
    as (_ & Hm2 & He2).
  fold db2 in Hm2, He2. cbn [setMeta meta hevy_events] in Hm2, He2.
  assert (hevy_workouts db2 = hevy_workouts db1) as Hw2.
  { apply map_eq. intros id.
    destruct (backfill_rows_lookup rows (setMeta db1 META_KEY now) id) as (H2 & _ & _).
    destruct (backfill_rows_lookup rows db id) as (H1 & _ & _).
    fold db2 in H2. fold db1 in H1. cbn [setMeta hevy_workouts] in H2.
    rewrite H2. destruct (lastRowFor id rows); [symmetry; exact H1 | reflexivity]. }
  unfold setMeta. rewrite Hm2, He2, Hw2. cbn [meta hevy_workouts hevy_events].
  rewrite insert_insert_eq. reflexivity.
Qed.

Lemma ltb_Lt (a b : string) : String.ltb a b = true <-> String.compare a b = Lt.
Proof. unfold String.ltb. destruct (String.compare a b); split; congruence. Qed.

Lemma ltb_irrefl (s : string) : String.ltb s s = false.
Proof.
  unfold String.ltb. pose proof (String.compare_antisym s s) as H.
  destruct (String.compare s s); try reflexivity; discriminate H.
Qed.

Lemma ltb_trans (a b c : string) :
  String.ltb a b = true -> String.ltb b c = true -> String.ltb a c = true.
Proof.
  rewrite !ltb_Lt. intros Hab Hbc.
  apply String_as_OT.cmp_lt. apply String_as_OT.cmp_lt in Hab, Hbc.
  exact (String_as_OT.lt_trans _ _ _ Hab Hbc).
Qed.

(** The [newestSeen] of the event loop on its own. *)
Lemma syncEvent_newest (evs : list HevyEvent) :
  forall db n,
    snd (fold_left syncEvent evs (db, n))
    = fold_left (fun n ev => if String.ltb n (ev_occurredAt ev) then ev_occurredAt ev else n)
        evs n.
Proof.
  induction evs as [| ev evs IH]; intros db n; [reflexivity |].
  cbn [fold_left]. unfold syncEvent at 2.
  match goal with
  | |- snd (fold_left syncEvent evs (?d, ?m)) = _ => rewrite (IH d m)
  end.
  reflexivity.
Qed.

Lemma newest_is_maximum (evs : list HevyEvent) :
  forall n,
    let m := fold_left
               (fun n ev => if String.ltb n (ev_occurredAt ev) then ev_occurredAt ev else n)
               evs n in
    String.ltb m n = false
    /\ (forall ev, In ev evs -> String.ltb m (ev_occurredAt ev) = false)
    /\ (m = n \/ exists ev, In ev evs /\ m = ev_occurredAt ev).
Proof.
  induction evs as [| ev evs IH]; intros n m; subst m; cbn [fold_left].
  - split; [apply ltb_irrefl |]. split; [intros ev [] | left; reflexivity].
  - set (n' := if String.ltb n (ev_occurredAt ev) then ev_occurredAt ev else n).
    destruct (IH n') as (Hge & Hall & Hmem). cbn zeta in Hge, Hall, Hmem.
    set (m := fold_left _ evs n') in *.
    assert (String.ltb n' n = false /\ String.ltb n' (ev_occurredAt ev) = false)
      as [Hn Hev].
    { unfold n'. destruct (String.ltb n (ev_occurredAt ev)) eqn:E.
      - split; [| apply ltb_irrefl].
        destruct (String.ltb (ev_occurredAt ev) n) eqn:E'; [| reflexivity].
        pose proof (ltb_trans _ _ _ E E') as Habs. rewrite ltb_irrefl in Habs.
        discriminate Habs.
      - split; [apply ltb_irrefl | exact E]. }
    assert (forall x, String.ltb n' x = false -> String.ltb m x = false) as Hup.
    { intros x Hx. destruct (String.ltb m x) eqn:E; [| reflexivity].
      destruct (String.compare m n') eqn:C.
      - apply String.compare_eq_iff in C. rewrite C in E. congruence.
      - apply ltb_Lt in C. congruence.
      - assert (String.ltb n' m = true) as Hlt.
        { apply ltb_Lt. rewrite String.compare_antisym, C. reflexivity. }
        pose proof (ltb_trans _ _ _ Hlt E). congruence. }
    split; [apply Hup, Hn |]. split.
    + intros ev' [<- | Hin]; [apply Hup, Hev | apply Hall, Hin].
    + destruct Hmem as [Hm | [ev' [Hin Hm]]].
      * unfold n' in Hm. destruct (String.ltb n (ev_occurredAt ev)).
        -- right. exists ev. split; [left; reflexivity | exact Hm].
        -- left. exact Hm.
      * right. exists ev'. split; [right; exact Hin | exact Hm].
Qed.

(** X29: an incremental synchronisation starts from the stored cursor,
    or from 1970 when none is stored, and stores as the new cursor the
    latest of the old cursor and the times of the events it read: the
    cursor never moves backwards, no event read is later than it, and it
    is the old cursor or the time of one of the events. *)
Theorem incrementalSync_cursor (pages : list (list HevyEvent)) (db : Db) :
  let result := incrementalSync pages db in
  let since := fst (snd result) in
  let newestSeen := snd (snd result) in
  since = getMeta db META_KEY "1970-01-01T00:00:00Z"
  /\ getMeta (fst result) META_KEY "1970-01-01T00:00:00Z" = newestSeen
  /\ String.ltb newestSeen since = false
  /\ (forall ev, In ev (untilEmpty pages) ->
                 String.ltb newestSeen (ev_occurredAt ev) = false)
  /\ (newestSeen = since
      \/ exists ev, In ev (untilEmpty pages) /\ newestSeen = ev_occurredAt ev).
Proof.
  intros result since newestSeen. subst since newestSeen result.
  unfold incrementalSync.
  set (since := getMeta db META_KEY "1970-01-01T00:00:00Z").
  pose proof (syncEvent_newest (untilEmpty pages) db since) as Hn.
  rewrite <- syncPages_untilEmpty in Hn.
  destruct (syncPages pages (db, since)) as [db' newest]. cbn [fst snd] in *.
  split; [reflexivity |]. split.
  - unfold getMeta, setMeta. cbn [meta]. rewrite lookup_insert_eq. reflexivity.
  - rewrite Hn. apply newest_is_maximum.
Qed.

Lemma orElse_None_Some (a : option string) (s : string) :
  orElse a None = Some s -> a = Some s /\ s <> ""%string.
Proof.
  unfold orElse. destruct (truthy a) eqn:E; [| discriminate].
  intros ->. split; [reflexivity |]. cbn in E.
  destruct (String.eqb_spec s ""); [discriminate E | assumption].
Qed.

Lemma syncEvent_tables (db : Db) (n : string) (ev : HevyEvent) (id : string) :
  let db' := fst (syncEvent (db, n) ev) in
  meta db' = meta db
  /\ hevy_events db' = hevy_events db ++ [eventRow ev]
  /\ (~ eventMentions id ev -> hevy_workouts db' !! id = hevy_workouts db !! id)
  /\ (includes "delete" (toLowerCase (ev_type ev)) = true ->
      ev_workoutId ev = Some id -> id <> ""%string ->
      hevy_workouts db' !! id = None).
Proof.
  unfold syncEvent. cbn [fst].
  destruct (includes "delete" (toLowerCase (ev_type ev))) eqn:Edel.
  - destruct (orElse (ev_workoutId ev) None) as [wid |] eqn:Ew;
      cbn [meta hevy_events hevy_workouts]; (split; [reflexivity |]);
      (split; [reflexivity |]).
    + apply orElse_None_Some in Ew as [Ew _]. split.
      * intros Hno. apply lookup_delete_ne. intros ->. apply Hno. left. exact Ew.
      * intros _ Hid _. rewrite Ew in Hid. injection Hid as ->. apply lookup_delete_eq.
    + split; [reflexivity |]. intros _ Hid Hne. exfalso.
      unfold orElse in Ew. rewrite Hid in Ew. cbn in Ew.
      destruct (String.eqb_spec id ""); [contradiction | discriminate Ew].
  - destruct (orElse (ev_workoutId ev) None) as [wid |] eqn:Ew;
      cbn [upsertWorkout meta hevy_events hevy_workouts]; (split; [reflexivity |]);
      (split; [reflexivity |]); (split; [| discriminate]).
    + intros Hno. apply lookup_insert_ne. intros Heq. apply Hno.
      apply orElse_None_Some in Ew as [Ew _].
      destruct (orElse (hw_id (ev_fetched ev)) None) as [fid |] eqn:Ef; cbn in Heq.
      * apply orElse_None_Some in Ef as [Ef _]. right. rewrite Ef, Heq. reflexivity.
      * left. rewrite Ew, Heq. reflexivity.
    + reflexivity.
Qed.

Lemma sync_events_tables (evs : list HevyEvent) (id : string) :
  forall db n,
    let db' := fst (fold_left syncEvent evs (db, n)) in
    meta db' = meta db
    /\ hevy_events db' = hevy_events db ++ List.map eventRow evs
    /\ ((forall ev, In ev evs -> ~ eventMentions id ev) ->
        hevy_workouts db' !! id = hevy_workouts db !! id).
Proof.
  induction evs as [| ev evs IH]; intros db n; cbn [fold_left List.map].
  - cbn [fst]. rewrite app_nil_r. repeat split.
  - destruct (syncEvent (db, n) ev) as [db1 n1] eqn:E.
    pose proof (syncEvent_tables db n ev id) as H1. rewrite E in H1. cbn [fst] in H1.
    destruct H1 as (Hm & He & Hf & _).
    destruct (IH db1 n1) as (IHm & IHe & IHf). cbn zeta in *.
    split; [congruence |]. split.
    + rewrite IHe, He, <- app_assoc. reflexivity.
    + intros Hno. rewrite IHf by (intros ev' Hin; apply Hno; right; exact Hin).
      apply Hf, Hno. left. reflexivity.
Qed.

(** X30: an incremental synchronisation appends one row per event read
    to the event log, in order, and changes nothing else in the log; a
    workout that no event read mentions keeps its stored data; and when
    the last event read is a deletion of a workout, the workout is gone
    afterwards. *)
Theorem incrementalSync_log_and_workouts (pages : list (list HevyEvent)) (db : Db)
    (id : string) :
  let db' := fst (incrementalSync pages db) in
  hevy_events db' = hevy_events db ++ List.map eventRow (untilEmpty pages)
  /\ ((forall ev, In ev (untilEmpty pages) -> ~ eventMentions id ev) ->
      hevy_workouts db' !! id = hevy_workouts db !! id)
  /\ (forall evs ev,
        untilEmpty pages = evs ++ [ev] ->
        includes "delete" (toLowerCase (ev_type ev)) = true ->
        ev_workoutId ev = Some id -> id <> ""%string ->
        hevy_workouts db' !! id = None).
Proof.
  intros db'. subst db'. unfold incrementalSync.
  set (since := getMeta db META_KEY "1970-01-01T00:00:00Z").
  rewrite syncPages_untilEmpty.
  destruct (sync_events_tables (untilEmpty pages) id db since) as (_ & He & Hf).
  cbn zeta in He, Hf.
  destruct (fold_left syncEvent (untilEmpty pages) (db, since)) as [db1 newest] eqn:E.
  cbn [fst setMeta hevy_events hevy_workouts] in *.
  split; [exact He |]. split; [exact Hf |].
  intros evs ev Hsplit Hdel Hid Hne.
  rewrite Hsplit, fold_left_app in E. cbn [fold_left] in E.
  destruct (fold_left syncEvent evs (db, since)) as [db0 n0].
  pose proof (syncEvent_tables db0 n0 ev id) as H1. rewrite E in H1. cbn [fst] in H1.
  destruct H1 as (_ & _ & _ & Hgone). apply Hgone; assumption.
Qed.

Lemma incrementalSync_log_and_workouts_witness :
  hevy_workouts
    (fst (incrementalSync
            [[mkHevyEvent "deleted" (Some "w1") "2025-01-07T10:00:00Z" "{}"
                (mkHevyWorkout None None "")]]
            (mkDb ∅ (<["w1"%string := (None, "{}"%string)]> ∅) [])))
  !! "w1"%string = None.
Proof.
  destruct (incrementalSync_log_and_workouts
              [[mkHevyEvent "deleted" (Some "w1") "2025-01-07T10:00:00Z" "{}"
                  (mkHevyWorkout None None "")]]
              (mkDb ∅ (<["w1"%string := (None, "{}"%string)]> ∅) []) "w1")
    as (_ & _ & Hgone).
  apply (Hgone [] (mkHevyEvent "deleted" (Some "w1") "2025-01-07T10:00:00Z" "{}"
                     (mkHevyWorkout None None "")));
    [reflexivity | reflexivity | reflexivity | discriminate].
Defined.

Lemma incrementalSync_cursor_witness :
  String.ltb
    (snd (snd (incrementalSync
                 [[mkHevyEvent "updated" (Some "w1") "2025-01-07T10:00:00Z" "{}"
                     (mkHevyWorkout (Some "w1") None "{}")]]
                 (mkDb ∅ ∅ []))))
    "2025-01-07T10:00:00Z"
  = false.
Proof.
  destruct (incrementalSync_cursor
              [[mkHevyEvent "updated" (Some "w1") "2025-01-07T10:00:00Z" "{}"
                  (mkHevyWorkout (Some "w1") None "{}")]]
              (mkDb ∅ ∅ [])) as (_ & _ & _ & Hall & _).
  apply (Hall (mkHevyEvent "updated" (Some "w1") "2025-01-07T10:00:00Z" "{}"
                 (mkHevyWorkout (Some "w1") None "{}"))).
  left. reflexivity.
Defined.
